(** * mlb_pipeline: the transform-and-load stage, embedded and verified

    A shallow embedding of [transform_load_mlb_data.py]: the SQLite store
    with its connection-level transactions, the entity resolvers
    ([get_or_create_team] / [get_or_create_player] / [get_or_create_game]),
    the batting-rate computation, the bulk loader, the processed-file
    ledger and the [main] loop that drives them.

    Python exceptions are results of an error monad; the store, the two
    directories and the log are an explicit state.  A storage failure
    ([sqlite3.Error]) is an event of the environment: the state carries a
    schedule saying which of the coming storage operations fail.

    What the model takes for granted:
    - the JSON values have the types of the input shape (integers,
      strings, floats for innings); a missing key is [None];
    - strings are strings of bytes, so [\d] and [str.isdigit] see the
      ASCII digits only;
    - a statement that raises changes nothing, a COMMIT that raises
      drops its transaction, and the two connections never wait for each
      other's locks;
    - [shutil.move] succeeds whenever its source exists. *)

From Stdlib Require Import ZArith String Ascii List Bool Lia.
From Stdlib Require Import Floats.SpecFloat.
From stdpp Require Import base option list gmap strings.

Local Open Scope string_scope.
Local Open Scope Z_scope.

(** ** Exceptions and results *)

(** The exceptions the module can raise.  Every one of them is a subclass
    of Python's [Exception]; only [SqliteError] is a [sqlite3.Error]. *)
Inductive exn : Type :=
| SqliteError            (* sqlite3.Error and its subclasses *)
| RetrievalException     (* raise Exception("Error retrieving ...") *)
| FileError              (* open() / json.load() failed *)
| ZeroDivisionError
| OverflowError.

Inductive result (A : Type) : Type :=
| Ok (a : A)
| Raise (e : exn).
Arguments Ok {A} a.
Arguments Raise {A} e.

#[global] Instance result_ret : MRet result := fun _ a => Ok a.
#[global] Instance result_fmap : FMap result := fun _ _ f r =>
  match r with
  | Ok a => Ok (f a)
  | Raise e => Raise e
  end.
#[global] Instance result_bind : MBind result := fun _ _ f r =>
  match r with
  | Ok a => f a
  | Raise e => Raise e
  end.

(** ** Python floats

    A Python [float] is an IEEE 754 binary64 number; [spec_float] with
    [prec = 53] and [emax = 1024] is its specification in the Standard
    Library. *)
Module PyFloat.

Definition prec : Z := 53.
Definition emax : Z := 1024.

Definition zero : spec_float := S754_zero false.

(** An integer as an exact (not normalised) binary number. *)
Definition of_int (n : Z) : spec_float :=
  match n with
  | Z0 => S754_zero false
  | Zpos p => S754_finite false p 0
  | Zneg p => S754_finite true p 0
  end.

(** [a / b] on two Python ints: the correctly rounded quotient;
    [ZeroDivisionError] for [b = 0], [OverflowError] when the quotient
    is too large for a float; a zero dividend gives a signed zero. *)
Definition int_true_divide (a b : Z) : result spec_float :=
  if b =? 0 then Raise ZeroDivisionError
  else if a =? 0 then Ok (S754_zero (b <? 0))
  else match SFdiv prec emax (of_int a) (of_int b) with
       | S754_infinity _ => Raise OverflowError
       | q => Ok q
       end.

(** [x + y] on floats. *)
Definition add (x y : spec_float) : spec_float := SFadd prec emax x y.

(** The integer nearest to [a / b], ties to even ([0 <= a], [0 < b]). *)
Definition div_half_even (a b : Z) : Z :=
  let q := a / b in
  let r := a mod b in
  match 2 * r ?= b with
  | Lt => q
  | Gt => q + 1
  | Eq => if Z.even q then q else q + 1
  end.

(** The exact value of [m * 2^e * 1000] rounded to an integer. *)
Definition thousandths (m : positive) (e : Z) : Z :=
  match e with
  | Zneg p => div_half_even (Zpos m * 1000) (2 ^ Zpos p)
  | _ => Zpos m * 1000 * 2 ^ e
  end.

(** [round(x, 3)]: the exact binary value of [x] is rounded half-even
    to three decimals and the decimal is converted back to the nearest
    float; the sign is kept, infinities and NaN round to themselves. *)
Definition round3 (x : spec_float) : spec_float :=
  match x with
  | S754_finite s m e =>
      match thousandths m e with
      | Zpos n => SFdiv prec emax (S754_finite s n 0) (S754_finite false 1000 0)
      | _ => S754_zero s
      end
  | _ => x
  end.

End PyFloat.

(** ** The statistic deriver

    Lines 262-272 of [transform_and_load]: the four rate statistics of a
    raw batting line. *)
Record rates : Type := Rates {
  avg : spec_float;
  obp : spec_float;
  slg : spec_float;
  ops : spec_float
}.

Definition derive_rates
    (at_bats hits walks hit_by_pitch sac_flies total_bases : Z) : result rates :=
  avg ← (if at_bats >? 0
         then PyFloat.round3 <$> PyFloat.int_true_divide hits at_bats
         else Ok PyFloat.zero);
  let obp_denominator := at_bats + walks + hit_by_pitch + sac_flies in
  obp ← (if obp_denominator >? 0
         then PyFloat.round3 <$>
                PyFloat.int_true_divide (hits + walks + hit_by_pitch) obp_denominator
         else Ok PyFloat.zero);
  slg ← (if at_bats >? 0
         then PyFloat.round3 <$> PyFloat.int_true_divide total_bases at_bats
         else Ok PyFloat.zero);
  let ops := PyFloat.round3 (PyFloat.add obp slg) in
  Ok (Rates avg obp slg ops).

(** ** The relational store

    One record per table of [create_tables].  A nullable column is an
    [option]; [name TEXT NOT NULL] is a plain string.  Rows are kept in
    insertion order. *)
Module Team.
Record row : Type := Row {
  team_id : Z;
  api_team_id : option Z;
  name : string;
  venue : option string;
  city : option string
}.
End Team.

Module Player.
Record row : Type := Row {
  player_id : Z;
  api_player_id : option Z;
  name : string;
  team_id : option Z;
  position : option string
}.
End Player.

Module Game.
Record row : Type := Row {
  game_id : Z;
  api_game_id : option Z;
  game_date : option string;
  location : option string;
  home_team_id : option Z;
  away_team_id : option Z;
  home_team_score : option Z;
  away_team_score : option Z
}.
End Game.

Module BatterStat.
(** The tuple built per batting line, in the order of [batter_columns]. *)
Record values : Type := Values {
  game_id : Z;
  player_id : Z;
  at_bats : Z;
  runs : Z;
  hits : Z;
  doubles : Z;
  triples : Z;
  home_runs : Z;
  rbi : Z;
  walks : Z;
  hit_by_pitch : Z;
  strikeouts : Z;
  stolen_bases : Z;
  caught_stealing : Z;
  avg : spec_float;
  obp : spec_float;
  slg : spec_float;
  ops : spec_float
}.
Record row : Type := Row { stat_id : Z; cols : values }.
End BatterStat.

Module PitcherStat.
(** The tuple built per pitching line, in the order of [pitcher_columns]. *)
Record values : Type := Values {
  game_id : Z;
  player_id : Z;
  innings_pitched : spec_float;
  hits_allowed : Z;
  runs_allowed : Z;
  earned_runs : Z;
  home_runs_allowed : Z;
  walks_allowed : Z;
  strikeouts : Z
}.
Record row : Type := Row { stat_id : Z; cols : values }.
End PitcherStat.

Module ProcessedFile.
Record row : Type := Row {
  id : Z;
  file_name : string;
  start_date : string;
  end_date : string;
  processed_at : string
}.
End ProcessedFile.

(** The database file.  [sqlite_sequence] is SQLite's table of the same
    name: the largest rowid each AUTOINCREMENT table has handed out. *)
Record database : Type := Database {
  teams : list Team.row;
  players : list Player.row;
  games : list Game.row;
  batter_stats : list BatterStat.row;
  pitcher_stats : list PitcherStat.row;
  processed_files : list ProcessedFile.row;
  sqlite_sequence : gmap string Z
}.

Definition empty_database : database := Database [] [] [] [] [] [] ∅.

Definition seq_of (table : string) (db : database) : Z :=
  default 0 (sqlite_sequence db !! table).

Definition bump_seq (table : string) (db : database) : database :=
  Database (teams db) (players db) (games db) (batter_stats db)
           (pitcher_stats db) (processed_files db)
           (<[table := seq_of table db + 1]> (sqlite_sequence db)).

Definition set_teams (l : list Team.row) (db : database) : database :=
  Database l (players db) (games db) (batter_stats db)
           (pitcher_stats db) (processed_files db) (sqlite_sequence db).
Definition set_players (l : list Player.row) (db : database) : database :=
  Database (teams db) l (games db) (batter_stats db)
           (pitcher_stats db) (processed_files db) (sqlite_sequence db).
Definition set_games (l : list Game.row) (db : database) : database :=
  Database (teams db) (players db) l (batter_stats db)
           (pitcher_stats db) (processed_files db) (sqlite_sequence db).
Definition set_batter_stats (l : list BatterStat.row) (db : database) : database :=
  Database (teams db) (players db) (games db) l
           (pitcher_stats db) (processed_files db) (sqlite_sequence db).
Definition set_pitcher_stats (l : list PitcherStat.row) (db : database) : database :=
  Database (teams db) (players db) (games db) (batter_stats db)
           l (processed_files db) (sqlite_sequence db).
Definition set_processed_files (l : list ProcessedFile.row) (db : database) : database :=
  Database (teams db) (players db) (games db) (batter_stats db)
           (pitcher_stats db) l (sqlite_sequence db).

(** *** SQL statements of the module *)

(** [api = ?] in a WHERE clause or a UNIQUE check: NULL equals nothing. *)
Definition sql_eq (col param : option Z) : bool :=
  match col, param with
  | Some a, Some b => a =? b
  | _, _ => false
  end.

(** [INSERT OR IGNORE INTO teams (api_team_id, name, venue, city)].  The
    rowid is drawn first, so the sequence advances whether or not the row
    is kept; a NULL name (NOT NULL) or a known [api_team_id] (UNIQUE)
    makes SQLite drop the row silently. *)
Definition insert_or_ignore_team
    (api_team_id : option Z) (name : option string)
    (venue city : option string) (db : database) : database :=
  let rowid := seq_of "teams" db + 1 in
  let db := bump_seq "teams" db in
  match name with
  | None => db
  | Some n =>
      if existsb (fun r => sql_eq (Team.api_team_id r) api_team_id) (teams db)
      then db
      else set_teams (teams db ++ [Team.Row rowid api_team_id n venue city]) db
  end.

Definition insert_or_ignore_player
    (api_player_id : option Z) (name : option string)
    (team_id : option Z) (position : option string) (db : database) : database :=
  let rowid := seq_of "players" db + 1 in
  let db := bump_seq "players" db in
  match name with
  | None => db
  | Some n =>
      if existsb (fun r => sql_eq (Player.api_player_id r) api_player_id) (players db)
      then db
      else set_players
             (players db ++ [Player.Row rowid api_player_id n team_id position]) db
  end.

Definition insert_or_ignore_game
    (api_game_id : option Z) (game_date location : option string)
    (home_team_id away_team_id home_team_score away_team_score : option Z)
    (db : database) : database :=
  let rowid := seq_of "games" db + 1 in
  let db := bump_seq "games" db in
  if existsb (fun r => sql_eq (Game.api_game_id r) api_game_id) (games db)
  then db
  else set_games
         (games db ++ [Game.Row rowid api_game_id game_date location
                         home_team_id away_team_id
                         home_team_score away_team_score]) db.

(** [SELECT team_id FROM teams WHERE api_team_id = ?] and [fetchone]. *)
Definition select_team_id (api_team_id : option Z) (db : database) : option Z :=
  Team.team_id <$> List.find (fun r => sql_eq (Team.api_team_id r) api_team_id) (teams db).
Definition select_player_id (api_player_id : option Z) (db : database) : option Z :=
  Player.player_id <$>
    List.find (fun r => sql_eq (Player.api_player_id r) api_player_id) (players db).
Definition select_game_id (api_game_id : option Z) (db : database) : option Z :=
  Game.game_id <$> List.find (fun r => sql_eq (Game.api_game_id r) api_game_id) (games db).

(** [executemany] of a plain INSERT: one fresh rowid per tuple. *)
Fixpoint insert_batter_stats (data : list BatterStat.values) (db : database) : database :=
  match data with
  | [] => db
  | v :: data' =>
      let rowid := seq_of "batter_stats" db + 1 in
      insert_batter_stats data'
        (set_batter_stats (batter_stats db ++ [BatterStat.Row rowid v])
           (bump_seq "batter_stats" db))
  end.

Fixpoint insert_pitcher_stats (data : list PitcherStat.values) (db : database) : database :=
  match data with
  | [] => db
  | v :: data' =>
      let rowid := seq_of "pitcher_stats" db + 1 in
      insert_pitcher_stats data'
        (set_pitcher_stats (pitcher_stats db ++ [PitcherStat.Row rowid v])
           (bump_seq "pitcher_stats" db))
  end.

(** [INSERT INTO processed_files]: [file_name] is UNIQUE and the
    statement has no conflict clause, so a known name aborts it. *)
Definition insert_processed_file
    (file_name start_date end_date processed_at : string)
    (db : database) : option database :=
  if existsb (fun r => String.eqb (ProcessedFile.file_name r) file_name)
             (processed_files db)
  then None
  else
    let rowid := seq_of "processed_files" db + 1 in
    Some (set_processed_files
            (processed_files db ++
               [ProcessedFile.Row rowid file_name start_date end_date processed_at])
            (bump_seq "processed_files" db)).

(** ** The input document

    A typed view of the JSON snapshot: one record per object shape that
    [transform_and_load] reads.  A field is [None] when its key is absent
    (or null, for the keys read without a default). *)
Module Json.
Record team : Type := Team {
  id : option Z;
  name : option string;
  venue_name : option string;           (* team["venue"]["name"] *)
  locationName : option string
}.
Record roster_entry : Type := RosterEntry {
  person_id : option Z;                 (* player["person"]["id"] *)
  person_fullName : option string;
  position_abbreviation : option string
}.
Record game : Type := Game {
  game_id : option Z;
  game_date : option string;
  location : option string;
  home_team_id : option Z;
  away_team_id : option Z;
  home_team_score : option Z;
  away_team_score : option Z
}.
Record batter_stat : Type := BatterStat {
  b_game_id : option Z;
  b_player_id : option Z;
  at_bats : option Z;
  runs : option Z;
  hits : option Z;
  doubles : option Z;
  triples : option Z;
  home_runs : option Z;
  rbi : option Z;
  walks : option Z;
  hit_by_pitch : option Z;
  strikeouts : option Z;
  stolen_bases : option Z;
  caught_stealing : option Z;
  sac_flies : option Z;
  total_bases : option Z
}.
Record pitcher_stat : Type := PitcherStat {
  p_game_id : option Z;
  p_player_id : option Z;
  innings_pitched : option spec_float;
  hits_allowed : option Z;
  runs_allowed : option Z;
  earned_runs : option Z;
  home_runs_allowed : option Z;
  walks_allowed : option Z;
  p_strikeouts : option Z
}.
Record document : Type := Document {
  teams : list team;
  rosters : list (string * list roster_entry);   (* in dict order *)
  games : list game;
  batter_stats : list batter_stat;
  pitcher_stats : list pitcher_stat
}.
End Json.

(** ** The log *)
Inductive level : Type := INFO | WARNING | ERROR.

Inductive message : Type :=
| ConnectionEstablished
| ErrorConnecting
| TablesCreated
| ErrorCreatingTables
| ErrorInGetOrCreateTeam (name : option string)
| ErrorInGetOrCreatePlayer (name : option string)
| ErrorInGetOrCreateGame (api_game_id : option Z)
| BulkInserted (n : nat) (table : string)
| ErrorBulkInserting (table : string)
| TeamNotFound (team_key : string)
| MissingTeamMapping (api_game_id : option Z)
| LoadedSuccessfully
| ErrorDuringTransformAndLoad (e : exn)
| ErrorCheckingOverlap
| RecordedFile (filename : string)
| ErrorRecordingFile (filename : string)
| SkippingOverlap (start_date end_date filename : string)
| FilenameDoesNotMatch (filename : string)
| ProcessingFile (filename : string)
| MovedFile (filename : string)
| FailedToProcess (filename : string) (e : exn).

(** ** The state of the run

    [db_file] is what is durable in [mlb.db]; [txn] is the database as the
    open connection sees it, its uncommitted statements included.  The
    pipeline is sequential and every connection is left without pending
    work before the other one is used, so one view suffices.  [faults]
    says, for the storage operations to come, which of them fail (none
    once the list is exhausted). *)
Record state : Type := State {
  db_file : database;
  txn : database;
  raw_dir : gmap string (option Json.document);
  historical_dir : gmap string (option Json.document);
  faults : list bool;
  log : list (level * message);
  clock : string
}.

Definition set_db_file (d : database) (s : state) : state :=
  State d (txn s) (raw_dir s) (historical_dir s) (faults s) (log s) (clock s).
Definition set_txn (d : database) (s : state) : state :=
  State (db_file s) d (raw_dir s) (historical_dir s) (faults s) (log s) (clock s).
Definition set_dirs (r h : gmap string (option Json.document)) (s : state) : state :=
  State (db_file s) (txn s) r h (faults s) (log s) (clock s).
Definition set_faults (f : list bool) (s : state) : state :=
  State (db_file s) (txn s) (raw_dir s) (historical_dir s) f (log s) (clock s).
Definition add_log (l : level) (m : message) (s : state) : state :=
  State (db_file s) (txn s) (raw_dir s) (historical_dir s) (faults s)
        (log s ++ [(l, m)]) (clock s).

(** ** The monad of the pipeline: state and exceptions *)
Definition M (A : Type) : Type := state → result A * state.

#[global] Instance M_ret : MRet M := fun _ a s => (Ok a, s).
#[global] Instance M_bind : MBind M := fun _ _ f c s =>
  match c s with
  | (Ok a, s') => f a s'
  | (Raise e, s') => (Raise e, s')
  end.

Definition raise {A : Type} (e : exn) : M A := fun s => (Raise e, s).
Definition gets {A : Type} (f : state → A) : M A := fun s => (Ok (f s), s).
Definition modify (f : state → state) : M unit := fun s => (Ok (), f s).

(** A pure computation that may raise, run inside the pipeline. *)
Definition lift {A : Type} (r : result A) : M A := fun s => (r, s).

(** [try: c  except Exception as e: h e] *)
Definition try_except {A : Type} (c : M A) (h : exn → M A) : M A := fun s =>
  match c s with
  | (Ok a, s') => (Ok a, s')
  | (Raise e, s') => h e s'
  end.

(** [try: c  except sqlite3.Error as e: h] : other exceptions pass. *)
Definition try_except_sqlite {A : Type} (c : M A) (h : M A) : M A :=
  try_except c (fun e => match e with SqliteError => h | _ => raise e end).

(** [try: c  finally: f] *)
Definition try_finally {A : Type} (c : M A) (f : M unit) : M A := fun s =>
  match c s with
  | (r, s') =>
      match f s' with
      | (Ok _, s'') => (r, s'')
      | (Raise e, s'') => (Raise e, s'')
      end
  end.

Definition logging (l : level) (m : message) : M unit := modify (add_log l m).

(** *** The connection *)

(** Does the next storage operation fail? *)
Definition storage_fault : M bool := fun s =>
  match faults s with
  | [] => (Ok false, s)
  | b :: fs => (Ok b, set_faults fs s)
  end.

(** [sqlite3.connect]: a new connection sees the committed data. *)
Definition connect : M unit :=
  failed ← storage_fault;
  if failed : bool then raise SqliteError
  else modify (fun s => set_txn (db_file s) s).

(** [cursor.execute] of a statement that writes: it either raises and
    changes nothing, or applies to the open transaction.  [stmt] returns
    [None] when a constraint aborts the statement. *)
Definition execute_write (stmt : database → option database) : M unit :=
  failed ← storage_fault;
  if failed : bool then raise SqliteError
  else
    db ← gets txn;
    match stmt db with
    | Some db' => modify (set_txn db')
    | None => raise SqliteError            (* sqlite3.IntegrityError *)
    end.

(** [cursor.execute] of a SELECT followed by the fetch. *)
Definition execute_query {A : Type} (q : database → A) : M A :=
  failed ← storage_fault;
  if failed : bool then raise SqliteError
  else gets (fun s => q (txn s)).

(** [conn.commit()]: the transaction becomes durable, or the commit
    fails and the transaction is gone. *)
Definition commit : M unit :=
  failed ← storage_fault;
  if failed : bool
  then modify (fun s => set_txn (db_file s) s) ;; raise SqliteError
  else modify (fun s => set_db_file (txn s) s).

Definition rollback : M unit := modify (fun s => set_txn (db_file s) s).

(** [conn.close()]: pending statements are dropped. *)
Definition close : M unit := modify (fun s => set_txn (db_file s) s).

(** [with conn: body] : commit when the body returns, roll back and
    re-raise when it raises. *)
Definition with_conn {A : Type} (body : M A) : M A := fun s =>
  match body s with
  | (Ok a, s') => (commit ;; mret a) s'
  | (Raise e, s') => (rollback ;; raise e) s'
  end.

(** ** The entity resolvers *)

Definition get_or_create_team
    (api_team_id : option Z) (name venue city : option string) : M Z :=
  try_except_sqlite
    (execute_write (fun db =>
       Some (insert_or_ignore_team api_team_id name venue city db)) ;;
     commit ;;
     row ← execute_query (select_team_id api_team_id);
     match row with
     | Some team_id => mret team_id
     | None => raise RetrievalException
     end)
    (logging ERROR (ErrorInGetOrCreateTeam name) ;; raise SqliteError).

Definition get_or_create_player
    (api_player_id : option Z) (name : option string)
    (team_id : option Z) (position : option string) : M Z :=
  try_except_sqlite
    (execute_write (fun db =>
       Some (insert_or_ignore_player api_player_id name team_id position db)) ;;
     commit ;;
     row ← execute_query (select_player_id api_player_id);
     match row with
     | Some player_id => mret player_id
     | None => raise RetrievalException
     end)
    (logging ERROR (ErrorInGetOrCreatePlayer name) ;; raise SqliteError).

Definition get_or_create_game
    (api_game_id : option Z) (game_date location : option string)
    (home_team_id away_team_id home_team_score away_team_score : option Z) : M Z :=
  try_except_sqlite
    (execute_write (fun db =>
       Some (insert_or_ignore_game api_game_id game_date location
               home_team_id away_team_id home_team_score away_team_score db)) ;;
     commit ;;
     row ← execute_query (select_game_id api_game_id);
     match row with
     | Some game_id => mret game_id
     | None => raise RetrievalException
     end)
    (logging ERROR (ErrorInGetOrCreateGame api_game_id) ;; raise SqliteError).

(** ** The batch loader *)
Inductive stat_data : Type :=
| BatterData (data : list BatterStat.values)
| PitcherData (data : list PitcherStat.values).

Definition table_of (d : stat_data) : string :=
  match d with
  | BatterData _ => "batter_stats"
  | PitcherData _ => "pitcher_stats"
  end.

Definition len (d : stat_data) : nat :=
  match d with
  | BatterData data => length data
  | PitcherData data => length data
  end.

Definition executemany (d : stat_data) (db : database) : database :=
  match d with
  | BatterData data => insert_batter_stats data db
  | PitcherData data => insert_pitcher_stats data db
  end.

Definition bulk_insert_stats (d : stat_data) : M unit :=
  try_except_sqlite
    (execute_write (fun db => Some (executemany d db)) ;;
     commit ;;
     logging INFO (BulkInserted (len d) (table_of d)))
    (logging ERROR (ErrorBulkInserting (table_of d)) ;; raise SqliteError).

(** ** [transform_and_load] *)

(** The two dictionaries built while the teams are resolved. *)
Record team_mappings : Type := TeamMappings {
  team_mapping_by_api : gmap (option Z) Z;
  team_mapping_by_name : gmap (option string) Z
}.

Fixpoint process_teams (teams : list Json.team) (tm : team_mappings) : M team_mappings :=
  match teams with
  | [] => mret tm
  | team :: teams' =>
      let api_team_id := Json.id team in
      let name := Json.name team in
      let venue := Json.venue_name team in
      let city := Json.locationName team in
      db_team_id ← get_or_create_team api_team_id name venue city;
      process_teams teams'
        (TeamMappings (<[api_team_id := db_team_id]> (team_mapping_by_api tm))
                      (<[name := db_team_id]> (team_mapping_by_name tm)))
  end.

(** [str.isdigit] and [int] on a string of bytes. *)
Definition is_digit (c : ascii) : bool :=
  (48 <=? Z.of_N (N_of_ascii c)) && (Z.of_N (N_of_ascii c) <=? 57).

Fixpoint all_digits (s : string) : bool :=
  match s with
  | EmptyString => true
  | String c s' => is_digit c && all_digits s'
  end.

Definition isdigit (s : string) : bool :=
  match s with
  | EmptyString => false
  | _ => all_digits s
  end.

Fixpoint int_acc (acc : Z) (s : string) : Z :=
  match s with
  | EmptyString => acc
  | String c s' => int_acc (10 * acc + (Z.of_N (N_of_ascii c) - 48)) s'
  end.

Definition int (s : string) : Z := int_acc 0 s.

Fixpoint process_roster (roster : list Json.roster_entry) (db_team_id : Z)
    (player_mapping : gmap (option Z) Z) : M (gmap (option Z) Z) :=
  match roster with
  | [] => mret player_mapping
  | player :: roster' =>
      let api_player_id := Json.person_id player in
      let full_name := Json.person_fullName player in
      let position := default "NA" (Json.position_abbreviation player) in
      db_player_id ← get_or_create_player api_player_id full_name
                       (Some db_team_id) (Some position);
      process_roster roster' db_team_id (<[api_player_id := db_player_id]> player_mapping)
  end.

Fixpoint process_rosters (rosters : list (string * list Json.roster_entry))
    (tm : team_mappings) (player_mapping : gmap (option Z) Z) : M (gmap (option Z) Z) :=
  match rosters with
  | [] => mret player_mapping
  | (team_key, roster) :: rosters' =>
      let db_team_id :=
        if isdigit team_key
        then team_mapping_by_api tm !! Some (int team_key)
        else team_mapping_by_name tm !! Some team_key in
      match db_team_id with
      | None =>
          logging WARNING (TeamNotFound team_key) ;;
          process_rosters rosters' tm player_mapping
      | Some db_team_id =>
          player_mapping ← process_roster roster db_team_id player_mapping;
          process_rosters rosters' tm player_mapping
      end
  end.

Fixpoint process_games (games : list Json.game) (tm : team_mappings)
    (game_mapping : gmap (option Z) Z) : M (gmap (option Z) Z) :=
  match games with
  | [] => mret game_mapping
  | game :: games' =>
      let api_game_id := Json.game_id game in
      let game_date := Json.game_date game in
      let location := Json.location game in
      let home_api_team_id := Json.home_team_id game in
      let away_api_team_id := Json.away_team_id game in
      let home_team_score := Json.home_team_score game in
      let away_team_score := Json.away_team_score game in
      let home_team_db_id := team_mapping_by_api tm !! home_api_team_id in
      let away_team_db_id := team_mapping_by_api tm !! away_api_team_id in
      match home_team_db_id, away_team_db_id with
      | Some home_team_db_id, Some away_team_db_id =>
          db_game_id ← get_or_create_game api_game_id game_date location
                         (Some home_team_db_id) (Some away_team_db_id)
                         home_team_score away_team_score;
          process_games games' tm (<[api_game_id := db_game_id]> game_mapping)
      | _, _ =>
          logging WARNING (MissingTeamMapping api_game_id) ;;
          process_games games' tm game_mapping
      end
  end.

(** [if local_game_id and local_player_id]: found, and not [0]. *)
Definition truthy (o : option Z) : bool :=
  match o with
  | Some n => negb (n =? 0)
  | None => false
  end.

Definition batter_row (local_game_id local_player_id : Z)
    (stat : Json.batter_stat) : result BatterStat.values :=
  let at_bats := default 0 (Json.at_bats stat) in
  let hits := default 0 (Json.hits stat) in
  let walks := default 0 (Json.walks stat) in
  let hit_by_pitch := default 0 (Json.hit_by_pitch stat) in
  let sac_flies := default 0 (Json.sac_flies stat) in
  let total_bases := default 0 (Json.total_bases stat) in
  r ← derive_rates at_bats hits walks hit_by_pitch sac_flies total_bases;
  Ok (BatterStat.Values local_game_id local_player_id at_bats
        (default 0 (Json.runs stat)) hits
        (default 0 (Json.doubles stat)) (default 0 (Json.triples stat))
        (default 0 (Json.home_runs stat)) (default 0 (Json.rbi stat))
        walks hit_by_pitch
        (default 0 (Json.strikeouts stat)) (default 0 (Json.stolen_bases stat))
        (default 0 (Json.caught_stealing stat))
        (avg r) (obp r) (slg r) (ops r)).

Fixpoint batter_stats_data (stats : list Json.batter_stat)
    (game_mapping player_mapping : gmap (option Z) Z) : result (list BatterStat.values) :=
  match stats with
  | [] => Ok []
  | stat :: stats' =>
      let local_game_id := game_mapping !! Json.b_game_id stat in
      let local_player_id := player_mapping !! Json.b_player_id stat in
      if truthy local_game_id && truthy local_player_id
      then
        row ← batter_row (default 0 local_game_id) (default 0 local_player_id) stat;
        rows ← batter_stats_data stats' game_mapping player_mapping;
        Ok (row :: rows)
      else batter_stats_data stats' game_mapping player_mapping
  end.

Definition pitcher_row (local_game_id local_player_id : Z)
    (stat : Json.pitcher_stat) : PitcherStat.values :=
  PitcherStat.Values local_game_id local_player_id
    (default PyFloat.zero (Json.innings_pitched stat))
    (default 0 (Json.hits_allowed stat)) (default 0 (Json.runs_allowed stat))
    (default 0 (Json.earned_runs stat)) (default 0 (Json.home_runs_allowed stat))
    (default 0 (Json.walks_allowed stat)) (default 0 (Json.p_strikeouts stat)).

Fixpoint pitcher_stats_data (stats : list Json.pitcher_stat)
    (game_mapping player_mapping : gmap (option Z) Z) : list PitcherStat.values :=
  match stats with
  | [] => []
  | stat :: stats' =>
      let local_game_id := game_mapping !! Json.p_game_id stat in
      let local_player_id := player_mapping !! Json.p_player_id stat in
      if truthy local_game_id && truthy local_player_id
      then pitcher_row (default 0 local_game_id) (default 0 local_player_id) stat
             :: pitcher_stats_data stats' game_mapping player_mapping
      else pitcher_stats_data stats' game_mapping player_mapping
  end.

(** *** The file system *)
Inductive directory : Type := RAW_DIR | HISTORICAL_DIR.

Definition path : Type := directory * string.

(** [os.path.join(dir, filename)] *)
Definition os_path_join (d : directory) (filename : string) : path := (d, filename).

Definition listing (d : directory) (s : state) : gmap string (option Json.document) :=
  match d with
  | RAW_DIR => raw_dir s
  | HISTORICAL_DIR => historical_dir s
  end.

(** [with open(file_path) as f: data = json.load(f)] *)
Definition json_load (file_path : path) : M Json.document := fun s =>
  match listing file_path.1 s !! file_path.2 with
  | Some (Some data) => (Ok data, s)
  | _ => (Raise FileError, s)
  end.

Definition create_connection : M unit :=
  try_except_sqlite
    (connect ;; logging INFO ConnectionEstablished)
    (logging ERROR ErrorConnecting ;; raise SqliteError).

(** The reference-data block under [with conn:]. *)
Definition resolve_reference_data (data : Json.document)
    : M (gmap (option Z) Z * gmap (option Z) Z) :=
  with_conn
    (tm ← process_teams (Json.teams data) (TeamMappings ∅ ∅);
     player_mapping ← process_rosters (Json.rosters data) tm ∅;
     game_mapping ← process_games (Json.games data) tm ∅;
     mret (player_mapping, game_mapping)).

Definition load_batter_stats (data : Json.document)
    (game_mapping player_mapping : gmap (option Z) Z) : M unit :=
  match Json.batter_stats data with
  | [] => mret ()
  | batter_stats =>
      rows ← lift (batter_stats_data batter_stats game_mapping player_mapping);
      bulk_insert_stats (BatterData rows)
  end.

Definition load_pitcher_stats (data : Json.document)
    (game_mapping player_mapping : gmap (option Z) Z) : M unit :=
  match Json.pitcher_stats data with
  | [] => mret ()
  | pitcher_stats =>
      bulk_insert_stats
        (PitcherData (pitcher_stats_data pitcher_stats game_mapping player_mapping))
  end.

Definition transform_and_load (file_path : path) : M unit :=
  data ← json_load file_path;
  create_connection ;;
  try_finally
    (try_except
       ('(player_mapping, game_mapping) ← resolve_reference_data data;
        load_batter_stats data game_mapping player_mapping ;;
        load_pitcher_stats data game_mapping player_mapping ;;
        logging INFO LoadedSuccessfully)
       (fun e => logging ERROR (ErrorDuringTransformAndLoad e) ;; raise e))
    close.

(** [shutil.move(src, dst)] *)
Definition shutil_move (src dst : path) : M unit := fun s =>
  match listing src.1 s !! src.2 with
  | None => (Raise FileError, s)
  | Some content =>
      let s := match src.1 with
               | RAW_DIR => set_dirs (delete src.2 (raw_dir s)) (historical_dir s) s
               | HISTORICAL_DIR => set_dirs (raw_dir s) (delete src.2 (historical_dir s)) s
               end in
      let s := match dst.1 with
               | RAW_DIR => set_dirs (<[dst.2 := content]> (raw_dir s)) (historical_dir s) s
               | HISTORICAL_DIR => set_dirs (raw_dir s) (<[dst.2 := content]> (historical_dir s)) s
               end in
      (Ok (), s)
  end.

(** [os.listdir(d)]: the names, in an order the caller cannot rely on. *)
Definition os_listdir (d : directory) : M (list string) :=
  gets (fun s => (map_to_list (listing d s)).*1).

(** ** The ingestion ledger *)

(** *** [extract_date_range]

    [re.match(r"mlb_raw_([\d-]+)_([\d-]+)_.*\.json", filename)].  A group
    [[\d-]+] cannot hold the underscore that must follow it, so the only
    way to match is to take the longest run of digits and hyphens. *)
Definition is_date_char (c : ascii) : bool := is_digit c || Ascii.eqb c "-".

Fixpoint strip_prefix (p s : string) : option string :=
  match p, s with
  | EmptyString, _ => Some s
  | String a p', String b s' => if Ascii.eqb a b then strip_prefix p' s' else None
  | String _ _, EmptyString => None
  end.

(** The longest prefix of digits and hyphens, and what follows it. *)
Fixpoint take_date_chars (s : string) : string * string :=
  match s with
  | String c s' =>
      if is_date_char c
      then let '(g, rest) := take_date_chars s' in (String c g, rest)
      else (EmptyString, s)
  | EmptyString => (EmptyString, EmptyString)
  end.

Definition newline : ascii := ascii_of_N 10.

(** [.*lit] matches at the start of [s]: [lit] occurs after some
    characters none of which is a newline. *)
Fixpoint match_dotstar (lit s : string) : bool :=
  match strip_prefix lit s with
  | Some _ => true
  | None =>
      match s with
      | String c s' => negb (Ascii.eqb c newline) && match_dotstar lit s'
      | EmptyString => false
      end
  end.

Definition extract_date_range (filename : string) : option string * option string :=
  match strip_prefix "mlb_raw_" filename with
  | Some rest =>
      match take_date_chars rest with
      | (String c1 g1, String "_" rest) =>
          match take_date_chars rest with
          | (String c2 g2, String "_" rest) =>
              if match_dotstar ".json" rest
              then (Some (String c1 g1), Some (String c2 g2))
              else (None, None)
          | _ => (None, None)
          end
      | _ => (None, None)
      end
  | None => (None, None)
  end.

(** *** [file_overlaps_processed] *)

(** SQLite compares TEXT values byte by byte. *)
Definition sql_le (a b : string) : bool :=
  match String.compare a b with
  | Gt => false
  | _ => true
  end.

Definition sql_ge (a b : string) : bool :=
  match String.compare a b with
  | Lt => false
  | _ => true
  end.

(** The WHERE clause [(? <= end_date) AND (? >= start_date)] with the
    parameters [(new_start, new_end)], on one recorded range. *)
Definition overlaps (new_start new_end start_date end_date : string) : bool :=
  sql_le new_start end_date && sql_ge new_end start_date.

(** [SELECT 1 FROM processed_files WHERE ...] and [fetchone]. *)
Definition select_overlapping (new_start new_end : string) (db : database) : option Z :=
  (fun _ => 1) <$>
    List.find (fun r => overlaps new_start new_end
                          (ProcessedFile.start_date r) (ProcessedFile.end_date r))
              (processed_files db).

Definition file_overlaps_processed (new_start new_end : string) : M bool :=
  try_except_sqlite
    (row ← execute_query (select_overlapping new_start new_end);
     mret (bool_decide (row ≠ None)))
    (logging ERROR ErrorCheckingOverlap ;; mret false).

Definition record_file_processed (filename start_date end_date : string) : M unit :=
  try_except_sqlite
    (processed_at ← gets clock;
     execute_write (insert_processed_file filename start_date end_date processed_at) ;;
     commit ;;
     logging INFO (RecordedFile filename))
    (logging ERROR (ErrorRecordingFile filename) ;; raise SqliteError).

(** ** The orchestrator *)

Definition create_tables : M unit :=
  try_except_sqlite
    (execute_write Some ;;             (* PRAGMA foreign_keys = ON *)
     execute_write Some ;;             (* CREATE TABLE IF NOT EXISTS ... *)
     commit ;;
     logging INFO TablesCreated)
    (logging ERROR ErrorCreatingTables ;; rollback ;; raise SqliteError).

Definition endswith (s suffix : string) : bool :=
  let n := String.length s in
  let m := String.length suffix in
  (m <=? n)%nat && String.eqb (substring (n - m) m s) suffix.

(** [if start_date and end_date]: both present and not empty. *)
Definition both (start_date end_date : option string) : option (string * string) :=
  match start_date, end_date with
  | Some (String a s), Some (String b e) => Some (String a s, String b e)
  | _, _ => None
  end.

(** Lines 384-390: is the file to be skipped? *)
Definition range_check (filename : string)
    (start_date end_date : option string) : M bool :=
  match both start_date end_date with
  | Some (start_date, end_date) =>
      overlap ← file_overlaps_processed start_date end_date;
      if overlap : bool
      then logging INFO (SkippingOverlap start_date end_date filename) ;; mret true
      else mret false
  | None =>
      logging WARNING (FilenameDoesNotMatch filename) ;; mret false
  end.

(** Lines 392-402: load the file, record it, archive it. *)
Definition load_and_archive (filename : string)
    (start_date end_date : option string) : M unit :=
  let file_path := os_path_join RAW_DIR filename in
  logging INFO (ProcessingFile filename) ;;
  try_except
    (transform_and_load file_path ;;
     match both start_date end_date with
     | Some (start_date, end_date) =>
         record_file_processed filename start_date end_date
     | None => mret ()
     end ;;
     let new_path := os_path_join HISTORICAL_DIR filename in
     shutil_move file_path new_path ;;
     logging INFO (MovedFile filename))
    (fun e => logging ERROR (FailedToProcess filename e)).

(** The body of the loop of [main]. *)
Definition process_file (filename : string) : M unit :=
  if endswith filename ".json"
  then
    let '(start_date, end_date) := extract_date_range filename in
    skip ← range_check filename start_date end_date;
    if skip : bool then mret () else load_and_archive filename start_date end_date
  else mret ().

Fixpoint main_loop (filenames : list string) : M unit :=
  match filenames with
  | [] => mret ()
  | filename :: filenames' => process_file filename ;; main_loop filenames'
  end.

Definition main : M unit :=
  create_connection ;;
  create_tables ;;
  filenames ← os_listdir RAW_DIR;
  main_loop filenames ;;
  close.

(** ** The extractor's file name

    [extract_mlb_data.py], lines 195-196: the name under which a snapshot
    is written to the intake directory. *)
Module Extract.
Definition filename (start_date end_date timestamp : string) : string :=
  "mlb_raw_" +:+ start_date +:+ "_" +:+ end_date +:+ "_" +:+ timestamp +:+ ".json".
End Extract.

(** * The vocabulary of the statements *)

(** The deriver as section 4.2 of the specification words it: a rate is
    [0.0] when its denominator is [0], and the rounded quotient
    otherwise. *)
Definition derive_rates_spec (AB H BB HBP SF TB : Z) : result rates :=
  average ← (if AB =? 0 then Ok PyFloat.zero
             else PyFloat.round3 <$> PyFloat.int_true_divide H AB);
  on_base ← (if AB + BB + HBP + SF =? 0 then Ok PyFloat.zero
             else PyFloat.round3 <$>
                    PyFloat.int_true_divide (H + BB + HBP) (AB + BB + HBP + SF));
  slugging ← (if AB =? 0 then Ok PyFloat.zero
              else PyFloat.round3 <$> PyFloat.int_true_divide TB AB);
  Ok (Rates average on_base slugging
            (PyFloat.round3 (PyFloat.add on_base slugging))).

(** [fexp] at binary64: the exponent of the last bit kept. *)
Definition fexp64 (e : Z) : Z := Z.max (e - 53) (-1074).

(** The order SQLite puts on TEXT values: byte-wise, which on
    [YYYY-MM-DD] dates is the order of the calendar. *)
Definition text_le (a b : string) : Prop := String.compare a b ≠ Gt.

(** *** Calendar dates and their text *)

(** A decimal digit as a character. *)
Definition digit (n : Z) : ascii := ascii_of_N (Z.to_N (48 + n)).

Definition two_digits (n : Z) : string :=
  String (digit (n / 10)) (String (digit (n mod 10)) EmptyString).

(** [date.isoformat()]: [YYYY-MM-DD], zero-padded. *)
Definition isoformat (date : Z * Z * Z) : string :=
  let '(year, month, day) := date in
  two_digits (year / 100) +:+ two_digits (year mod 100) +:+ "-" +:+
  two_digits month +:+ "-" +:+ two_digits day.

Definition valid_date (date : Z * Z * Z) : Prop :=
  let '(year, month, day) := date in
  0 ≤ year < 10000 ∧ 1 ≤ month ≤ 12 ∧ 1 ≤ day ≤ 31.

(** The order of the calendar. *)
Definition date_compare (d1 d2 : Z * Z * Z) : comparison :=
  let '(y1, m1, a1) := d1 in
  let '(y2, m2, a2) := d2 in
  match y1 ?= y2 with
  | Eq => match m1 ?= m2 with Eq => a1 ?= a2 | c => c end
  | c => c
  end.

Definition date_le (d1 d2 : Z * Z * Z) : Prop := date_compare d1 d2 ≠ Gt.

(** ** The source token

    What the regular expression of [extract_date_range] accepts, said
    without a matcher: the prefix, two non-empty groups of digits and
    hyphens each followed by an underscore, any characters but a newline,
    then [.json] (and whatever follows: [re.match] anchors the start
    only). *)
Fixpoint all_date_chars (g : string) : bool :=
  match g with
  | EmptyString => true
  | String c g' => is_date_char c && all_date_chars g'
  end.

Fixpoint no_newline (s : string) : bool :=
  match s with
  | EmptyString => true
  | String c s' => negb (Ascii.eqb c newline) && no_newline s'
  end.

Definition token_matches (filename start_date end_date : string) : Prop :=
  ∃ mid tail,
    filename = "mlb_raw_" +:+ start_date +:+ "_" +:+ end_date +:+ "_"
                 +:+ mid +:+ ".json" +:+ tail
    ∧ start_date ≠ "" ∧ all_date_chars start_date = true
    ∧ end_date ≠ "" ∧ all_date_chars end_date = true
    ∧ no_newline mid = true.

(** The rows of a table that carry the external id [e]. *)
Definition rows_with_key {row : Type} (key : row → option Z) (e : Z)
    (rows : list row) : list row :=
  List.filter (λ r, sql_eq (key r) (Some e)) rows.

(** The UNIQUE constraints on the three external ids hold in [db]. *)
Definition unique_keys (db : database) : Prop :=
  ∀ e,
    (length (rows_with_key Team.api_team_id e (teams db)) ≤ 1)%nat ∧
    (length (rows_with_key Player.api_player_id e (players db)) ≤ 1)%nat ∧
    (length (rows_with_key Game.api_game_id e (games db)) ≤ 1)%nat.

(** [c] moves every state to an [R]-related one, whatever it returns. *)
Definition preserves {A : Type} (R : state → state → Prop) (c : M A) : Prop :=
  ∀ s, R s (c s).2.

(** The directories are the same. *)
Definition same_dirs (s s' : state) : Prop :=
  raw_dir s' = raw_dir s ∧ historical_dir s' = historical_dir s.

(** [Q] relates the durable database before and after, and keeps
    relating the durable database to the connection's view of it. *)
Definition stable (Q : database → database → Prop) (s s' : state) : Prop :=
  Q (db_file s) (txn s) → Q (db_file s) (db_file s') ∧ Q (db_file s') (txn s').

(** The rows of the three reference tables of [db] are an initial
    segment of those of [db']: none is gone and none has changed. *)
Definition reference_rows_kept (db db' : database) : Prop :=
  teams db `prefix_of` teams db' ∧
  players db `prefix_of` players db' ∧
  games db `prefix_of` games db'.

(** The ledger of [db'] is the ledger of [db]. *)
Definition ledger_kept (db db' : database) : Prop :=
  processed_files db' = processed_files db.

(** The next storage operation succeeds, leaving [s0]. *)
Definition storage_ok (s s0 : state) : Prop := storage_fault s = (Ok false, s0).
(** The next storage operation fails, leaving [s0]. *)
Definition storage_fails (s s0 : state) : Prop := storage_fault s = (Ok true, s0).

(** What the orchestrator does with a file once the range check let it
    pass: load (and record, when the token gave a range), archive, log;
    any exception ends in an error line. *)
Definition attempt (filename : string) (dates : option (string * string))
    (s : state) : result unit * state :=
  match (transform_and_load (os_path_join RAW_DIR filename) ;;
         match dates with
         | Some (start_date, end_date) =>
             record_file_processed filename start_date end_date
         | None => mret ()
         end ;;
         shutil_move (os_path_join RAW_DIR filename)
                     (os_path_join HISTORICAL_DIR filename) ;;
         logging INFO (MovedFile filename))
        (add_log INFO (ProcessingFile filename) s) with
  | (Ok a, s') => (Ok a, s')
  | (Raise e, s') => (Ok (), add_log ERROR (FailedToProcess filename e) s')
  end.

(** No raw file is lost between [s] and [s']: a file of the intake
    directory is still there with its content, or it is in the archive
    with its content; a name that was not in the intake directory is
    still not there, and the archive holds under it what it held. *)
Definition files_conserved (s s' : state) : Prop :=
  ∀ f,
    match raw_dir s !! f with
    | Some content =>
        raw_dir s' !! f = Some content ∨
        (raw_dir s' !! f = None ∧ historical_dir s' !! f = Some content)
    | None =>
        raw_dir s' !! f = None ∧ historical_dir s' !! f = historical_dir s !! f
    end.

(** No two rows of the ledger have overlapping ranges. *)
Definition ranges_disjoint (rows : list ProcessedFile.row) : Prop :=
  ∀ i j r1 r2,
    i ≠ j → rows !! i = Some r1 → rows !! j = Some r2 →
    overlaps (ProcessedFile.start_date r1) (ProcessedFile.end_date r1)
             (ProcessedFile.start_date r2) (ProcessedFile.end_date r2) = false.

(** The log shows that a query of the ledger for overlaps has failed. *)
Definition overlap_check_failed (s : state) : Prop :=
  (ERROR, ErrorCheckingOverlap) ∈ log s.

(** ** Referential integrity

    The schema declares five foreign keys.  SQLite enforces them only on
    a connection that ran [PRAGMA foreign_keys = ON], which the
    connection of [transform_and_load] never does, so whether they hold
    is up to the code. *)
Definition has_team (db : database) (id : Z) : Prop :=
  ∃ r, r ∈ teams db ∧ Team.team_id r = id.

Definition has_player (db : database) (id : Z) : Prop :=
  ∃ r, r ∈ players db ∧ Player.player_id r = id.

Definition has_game (db : database) (id : Z) : Prop :=
  ∃ r, r ∈ games db ∧ Game.game_id r = id.

Definition foreign_keys_hold (db : database) : Prop :=
  (∀ r t, r ∈ players db → Player.team_id r = Some t → has_team db t) ∧
  (∀ r t, r ∈ games db →
          Game.home_team_id r = Some t ∨ Game.away_team_id r = Some t →
          has_team db t) ∧
  (∀ r, r ∈ batter_stats db →
        has_game db (BatterStat.game_id (BatterStat.cols r)) ∧
        has_player db (BatterStat.player_id (BatterStat.cols r))) ∧
  (∀ r, r ∈ pitcher_stats db →
        has_game db (PitcherStat.game_id (PitcherStat.cols r)) ∧
        has_player db (PitcherStat.player_id (PitcherStat.cols r))).

(** The tuples of a batch name rows that exist. *)
Definition stat_ids_exist (d : stat_data) (db : database) : Prop :=
  match d with
  | BatterData data =>
      ∀ v, v ∈ data →
           has_game db (BatterStat.game_id v) ∧ has_player db (BatterStat.player_id v)
  | PitcherData data =>
      ∀ v, v ∈ data →
           has_game db (PitcherStat.game_id v) ∧ has_player db (PitcherStat.player_id v)
  end.

(** The row with identifier [id] carries the external id [k]. *)
Definition team_row (db : database) (k : option Z) (id : Z) : Prop :=
  ∃ r, r ∈ teams db ∧ Team.team_id r = id ∧ Team.api_team_id r = k.

Definition player_row (db : database) (k : option Z) (id : Z) : Prop :=
  ∃ r, r ∈ players db ∧ Player.player_id r = id ∧ Player.api_player_id r = k.

Definition game_row (db : database) (k : option Z) (id : Z) : Prop :=
  ∃ r, r ∈ games db ∧ Game.game_id r = id ∧ Game.api_game_id r = k.

(** The identifiers a mapping hands out are those of rows that exist,
    and by external id those of the rows with that external id. *)
Definition team_mappings_exist (tm : team_mappings) (db : database) : Prop :=
  map_Forall (team_row db) (team_mapping_by_api tm) ∧
  map_Forall (λ _, has_team db) (team_mapping_by_name tm).

(** From [s] to [s'] the connection ends without pending work, the
    reference rows are kept, and the foreign keys hold if they did. *)
Definition integrity_kept (s s' : state) : Prop :=
  txn s' = db_file s' ∧
  reference_rows_kept (db_file s) (db_file s') ∧
  (foreign_keys_hold (db_file s) → foreign_keys_hold (db_file s')).

(** A property of the database that more reference rows cannot break. *)
Definition monotone (F : database → Prop) : Prop :=
  ∀ db db', reference_rows_kept db db' → F db → F db'.

(** Started on a connection without pending work and a durable
    database that satisfies [P], [c] keeps the integrity, and what it
    returns satisfies [Q] in the durable database it leaves. *)
Definition hoare {A : Type} (P : database → Prop) (c : M A)
    (Q : A → database → Prop) : Prop :=
  ∀ s, txn s = db_file s → P (db_file s) →
       integrity_kept s (c s).2 ∧ ∀ a, (c s).1 = Ok a → Q a (db_file (c s).2).

(** ** More invariants of the tables *)

(** [file_name] is UNIQUE in the ledger. *)
Definition names_unique (db : database) : Prop :=
  NoDup (ProcessedFile.file_name <$> processed_files db).

(** The UNIQUE constraints of the schema. *)
Definition unique_constraints (db : database) : Prop :=
  unique_keys db ∧ names_unique db.

(** The statistic rows and the ledger rows of [db] are an initial
    segment of those of [db']. *)
Definition fact_rows_kept (db db' : database) : Prop :=
  batter_stats db `prefix_of` batter_stats db' ∧
  pitcher_stats db `prefix_of` pitcher_stats db' ∧
  processed_files db `prefix_of` processed_files db'.

(** Every row of the ledger carries the range its file name declares. *)
Definition ledger_matches_tokens (rows : list ProcessedFile.row) : Prop :=
  ∀ r, r ∈ rows →
       extract_date_range (ProcessedFile.file_name r) =
         (Some (ProcessedFile.start_date r), Some (ProcessedFile.end_date r)).

(** Is this log line the error of a failed overlap query? *)
Definition is_overlap_error (entry : level * message) : bool :=
  match entry with
  | (ERROR, ErrorCheckingOverlap) => true
  | _ => false
  end.

(** ** Snapshots that load

    What [transform_and_load] needs from a snapshot in order not to
    raise by itself: teams, roster entries and games carry an external
    id, teams and players a name (the columns are NOT NULL), and the
    counts of a batting line are non-negative SQLite integers. *)
Definition well_formed (data : Json.document) : Prop :=
  Forall (λ team, is_Some (Json.id team) ∧ is_Some (Json.name team))
         (Json.teams data) ∧
  Forall (λ entry : string * list Json.roster_entry,
            Forall (λ player, is_Some (Json.person_id player) ∧
                              is_Some (Json.person_fullName player)) entry.2)
         (Json.rosters data) ∧
  Forall (λ game, is_Some (Json.game_id game)) (Json.games data) ∧
  Forall (λ stat,
            0 ≤ default 0 (Json.hits stat) < 2 ^ 63 ∧
            0 ≤ default 0 (Json.walks stat) < 2 ^ 63 ∧
            0 ≤ default 0 (Json.hit_by_pitch stat) < 2 ^ 63 ∧
            0 ≤ default 0 (Json.total_bases stat) < 2 ^ 63)
         (Json.batter_stats data).

(** [c] returns from [s], and no storage failure is scheduled after it. *)
Definition returns {A : Type} (c : M A) (s : state) : Prop :=
  ∃ a s', c s = (Ok a, s') ∧ faults s' = [].

(** The identifiers of players and games are positive, as AUTOINCREMENT
    guarantees from an empty table on. *)
Definition positive_ids (db : database) : Prop :=
  (∀ r, r ∈ players db → 0 < Player.player_id r) ∧
  (∀ r, r ∈ games db → 0 < Game.game_id r) ∧
  0 ≤ seq_of "players" db ∧ 0 ≤ seq_of "games" db.

(** Every file of the intake directory is a [.json] snapshot that is
    well formed, whose name gives a range that no row of the ledger
    overlaps, and which the ledger does not know by name; and no two of
    the ranges overlap. *)
Definition intake_loadable (s : state) : Prop :=
  (∀ f c, raw_dir s !! f = Some c →
     ∃ a b data,
       endswith f ".json" = true ∧ token_matches f a b ∧
       c = Some data ∧ well_formed data ∧
       ∀ r, r ∈ processed_files (db_file s) →
            overlaps a b (ProcessedFile.start_date r) (ProcessedFile.end_date r)
              = false ∧
            ProcessedFile.file_name r ≠ f) ∧
  (∀ f g a b a' b',
     f ≠ g → is_Some (raw_dir s !! f) → is_Some (raw_dir s !! g) →
     token_matches f a b → token_matches g a' b' →
     overlaps a b a' b' = false).

(** ** A sample run *)
Module Sample.
Definition doc : Json.document :=
  Json.Document
    [ Json.Team (Some 147) (Some "Yankees") (Some "Yankee Stadium") (Some "Bronx");
      Json.Team (Some 111) (Some "Red Sox") (Some "Fenway Park") (Some "Boston") ]
    [ ("Yankees", [ Json.RosterEntry (Some 592450) (Some "Aaron Judge") (Some "RF") ]);
      ("Red Sox", [ Json.RosterEntry (Some 646240) (Some "Rafael Devers") None ]) ]
    [ Json.Game (Some 745000) (Some "2024-04-05T17:05:00Z") (Some "Yankee Stadium")
        (Some 147) (Some 111) (Some 5) (Some 3) ]
    [ Json.BatterStat (Some 745000) (Some 592450) (Some 4) (Some 1) (Some 2)
        (Some 1) None None (Some 2) (Some 1) None (Some 1) None None None (Some 3) ]
    [ Json.PitcherStat (Some 745000) (Some 646240)
        (Some (S754_finite false 6755399441055744 (-50)))
        (Some 5) (Some 3) (Some 3) (Some 1) (Some 2) (Some 7) ].

Definition token : string := "mlb_raw_2024-04-05_2024-04-10_20240411_010203.json".

Definition start : state :=
  State empty_database empty_database {[ token := Some doc ]} ∅ [] []
        "2024-04-11T01:02:03".

(** A database whose ledger already holds the week of 2024-04-01. *)
Definition week_one : ProcessedFile.row :=
  ProcessedFile.Row 1 "mlb_raw_2024-04-01_2024-04-07_20240408_000000.json"
    "2024-04-01" "2024-04-07" "2024-04-08T00:00:00".

Definition recorded_database : database :=
  Database [] [] [] [] [] [week_one] {[ "processed_files" := 1 ]}.

(** The overlapping file arrives; [failures] is the schedule of storage
    failures. *)
Definition recorded (failures : list bool) : state :=
  State recorded_database recorded_database {[ token := Some doc ]} ∅ failures []
        "2024-04-11T01:02:03".

(** Two teams and nothing else. *)
Definition two_teams : Json.document :=
  Json.Document (Json.teams doc) [] [] [] [].

(** A team, and a roster entry whose [fullName] is missing. *)
Definition nameless_player : Json.document :=
  Json.Document
    [ Json.Team (Some 147) (Some "Yankees") (Some "Yankee Stadium") (Some "Bronx") ]
    [ ("Yankees", [ Json.RosterEntry (Some 592450) None (Some "RF") ]) ]
    [] [] [].

Definition holding (data : option Json.document) (failures : list bool) : state :=
  State empty_database empty_database {[ token := data ]} ∅ failures []
        "2024-04-11T01:02:03".

(** A game whose home team the snapshot does not list, then one it does. *)
Definition stray_game : Json.game :=
  Json.Game (Some 745001) (Some "2024-04-06T17:05:00Z") None
    (Some 999) (Some 111) None None.

Definition known_game : Json.game :=
  Json.Game (Some 745000) (Some "2024-04-05T17:05:00Z") (Some "Yankee Stadium")
    (Some 147) (Some 111) (Some 5) (Some 3).

Definition resolved_teams : team_mappings :=
  TeamMappings {[ Some 147 := 1; Some 111 := 2 ]}
               {[ Some "Yankees" := 1; Some "Red Sox" := 2 ]}.

(** The store after the two teams were resolved. *)
Definition after_teams : state :=
  (with_conn (process_teams (Json.teams doc) (TeamMappings ∅ ∅)) start).2.

(** The store after a whole run over [start]. *)
Definition loaded : state := (main start).2.

Definition judge : Player.row :=
  Player.Row 1 (Some 592450) "Aaron Judge" (Some 1) (Some "RF").

(** A file that is not JSON, next to the snapshot. *)
Definition notes : string := "notes.json".

Definition with_notes : state :=
  State empty_database empty_database {[ notes := None; token := Some doc ]} ∅ [] []
        "2024-04-11T01:02:03".

(** The same snapshot delivered a second time, after [loaded]. *)
Definition redelivered : state :=
  set_dirs {[ token := Some doc ]} (historical_dir loaded) loaded.

End Sample.

(** * Verification *)

(** ** The statistic deriver *)

(** *** Quotients of integers do not overflow *)

Lemma digits2_pos_size p : digits2_pos p = Pos.size p.
Proof. induction p; simpl; congruence. Qed.

Lemma Zdigits2_nonneg m : 0 ≤ Zdigits2 m.
Proof. destruct m; simpl; lia. Qed.

Lemma Zdigits2_lt m : 0 ≤ m → m < 2 ^ Zdigits2 m.
Proof.
  destruct m as [|p|p]; simpl; [lia| |lia]. intros _.
  rewrite digits2_pos_size. pose proof (Pos.size_gt p) as H.
  apply Pos2Z.pos_lt_pos in H. by rewrite Pos2Z.inj_pow in H.
Qed.

Lemma Zdigits2_le m k : 0 ≤ k → 0 ≤ m < 2 ^ k → Zdigits2 m ≤ k.
Proof.
  intros Hk [Hm Hlt]. destruct m as [|p|p]; simpl; [lia| |lia].
  rewrite digits2_pos_size. pose proof (Pos.size_le p) as H.
  apply Pos2Z.pos_le_pos in H. rewrite Pos2Z.inj_pow in H.
  assert (2 ^ Z.pos (Pos.size p) < 2 ^ (k + 1)).
  { rewrite Z.pow_add_r, Z.pow_1_r by lia. lia. }
  apply Z.pow_lt_mono_r_iff in H0; lia.
Qed.

Lemma shr_1_m mrs : 0 ≤ shr_m mrs → shr_m (shr_1 mrs) = shr_m mrs / 2.
Proof.
  rewrite <- Z.div2_div.
  destruct mrs as [m r s]. simpl. destruct m as [|[p|p|]|p]; simpl; try reflexivity; lia.
Qed.

Lemma pow2_xO p : 2 ^ Z.pos p~0 = 2 ^ Z.pos p * 2 ^ Z.pos p.
Proof. rewrite <- Z.pow_add_r by lia. f_equal. lia. Qed.

Lemma pow2_xI p : 2 ^ Z.pos p~1 = 2 * (2 ^ Z.pos p * 2 ^ Z.pos p).
Proof.
  rewrite <- Z.pow_add_r by lia.
  replace (Z.pos p~1) with (1 + (Z.pos p + Z.pos p)) by lia.
  rewrite Z.pow_add_r by lia. reflexivity.
Qed.

Lemma iter_pos_shr_1 p : ∀ mrs,
  0 ≤ shr_m mrs →
  shr_m (SpecFloat.iter_pos shr_1 p mrs) = shr_m mrs / 2 ^ Z.pos p.
Proof.
  assert (Hpos : ∀ q, 0 < 2 ^ Z.pos q) by (intros; apply Z.pow_pos_nonneg; lia).
  induction p as [p IH|p IH|]; intros mrs Hm; simpl.
  - assert (H1 : 0 ≤ shr_m (shr_1 mrs)).
    { rewrite shr_1_m by done. apply Z.div_pos; lia. }
    assert (H2 : 0 ≤ shr_m (SpecFloat.iter_pos shr_1 p (shr_1 mrs))).
    { rewrite IH by done. apply Z.div_pos; [lia|apply Hpos]. }
    rewrite IH, IH, shr_1_m by done.
    pose proof (Hpos p).
    rewrite !Z.div_div by lia. by rewrite pow2_xI.
  - assert (H2 : 0 ≤ shr_m (SpecFloat.iter_pos shr_1 p mrs)).
    { rewrite IH by done. apply Z.div_pos; [lia|apply Hpos]. }
    rewrite IH, IH by done. pose proof (Hpos p).
    rewrite Z.div_div by lia. by rewrite pow2_xO.
  - rewrite shr_1_m by done. reflexivity.
Qed.

Lemma fexp_64 e : fexp 53 1024 e = fexp64 e.
Proof. reflexivity. Qed.

(** What one normalisation step does to mantissa and exponent. *)
Lemma shr_fexp_spec m e l :
  0 ≤ m →
  let '(mrs, e') := shr_fexp 53 1024 m e l in
  e' = Z.max e (fexp64 (Zdigits2 m + e)) ∧
  shr_m mrs = m / 2 ^ (e' - e).
Proof.
  intros Hm. unfold shr_fexp, shr. rewrite fexp_64.
  assert (Hrec : shr_m (shr_record_of_loc m l) = m) by (by destruct l as [|[]]).
  destruct (fexp64 (Zdigits2 m + e) - e) as [|p|p] eqn:Hn.
  - split; [lia|]. rewrite Hrec. replace (e - e) with 0 by lia. by rewrite Z.div_1_r.
  - split; [lia|]. rewrite iter_pos_shr_1 by lia. rewrite Hrec.
    f_equal. f_equal. lia.
  - split; [lia|]. rewrite Hrec. replace (e - e) with 0 by lia. by rewrite Z.div_1_r.
Qed.

Lemma round_nearest_even_bounds m l :
  m ≤ round_nearest_even m l ≤ m + 1.
Proof.
  unfold round_nearest_even. destruct l as [|[]]; try lia. destruct (Z.even m); lia.
Qed.

(** A result of [binary_round_aux] is finite when the number it rounds
    is below [2^1023]. *)
Lemma binary_round_aux_finite sx m e l s' :
  0 ≤ m → e ≤ 971 → Zdigits2 m + e ≤ 1023 →
  binary_round_aux 53 1024 sx m e l ≠ S754_infinity s'.
Proof.
  intros Hm He Hd. unfold binary_round_aux.
  pose proof (shr_fexp_spec m e l Hm) as H1.
  destruct (shr_fexp 53 1024 m e l) as [mrs1 e1]. destruct H1 as [He1 Hm1].
  set (m1 := shr_m mrs1) in *.
  assert (Hm1pos : 0 ≤ m1).
  { rewrite Hm1. apply Z.div_pos; [lia|]. apply Z.pow_pos_nonneg; unfold fexp64 in *; lia. }
  set (mr := round_nearest_even m1 (loc_of_shr_record mrs1)).
  pose proof (round_nearest_even_bounds m1 (loc_of_shr_record mrs1)) as Hr. fold mr in Hr.
  assert (Hmr : 0 ≤ mr) by lia.
  pose proof (shr_fexp_spec mr e1 loc_Exact Hmr) as H2.
  destruct (shr_fexp 53 1024 mr e1 loc_Exact) as [mrs2 e2]. destruct H2 as [He2 _].
  destruct (shr_m mrs2); [done| |done].
  change (1024 - 53) with 971.
  assert (Hbound : e2 ≤ 971); [|by apply Z.leb_le in Hbound as ->].
  (* the mantissa after the first step *)
  pose proof (Zdigits2_lt m Hm) as Hlt.
  pose proof (Zdigits2_nonneg m) as Hdn.
  set (d := Zdigits2 m) in *.
  assert (Hshift : 0 ≤ e1 - e) by (unfold fexp64 in *; lia).
  assert (Hm1lt : m1 < 2 ^ Z.max 0 (d - (e1 - e))).
  { rewrite Hm1. apply Z.div_lt_upper_bound; [apply Z.pow_pos_nonneg; lia|].
    rewrite <- Z.pow_add_r by lia.
    eapply Z.lt_le_trans; [exact Hlt|]. apply Z.pow_le_mono_r; lia. }
  assert (Hdr : Zdigits2 mr ≤ Z.max 0 (d - (e1 - e)) + 1).
  { apply Zdigits2_le; [lia|]. split; [lia|].
    rewrite Z.pow_add_r, Z.pow_1_r by lia.
    assert (0 < 2 ^ Z.max 0 (d - (e1 - e))) by (apply Z.pow_pos_nonneg; lia). lia. }
  unfold fexp64 in *. lia.
Qed.

Lemma SFdiv_core_binary_int pa pb :
  let '(q, e', _) := SFdiv_core_binary 53 1024 (Z.pos pa) 0 (Z.pos pb) 0 in
  0 ≤ q ∧ e' ≤ 0 ∧ Zdigits2 q + e' ≤ Zdigits2 (Z.pos pa).
Proof.
  unfold SFdiv_core_binary.
  set (d1 := Zdigits2 (Z.pos pa)). set (d2 := Zdigits2 (Z.pos pb)).
  rewrite fexp_64.
  set (e' := IntDef.Z.min (fexp64 (d1 + 0 - (d2 + 0))) (0 - 0)).
  assert (He' : e' ≤ 0) by (subst e'; apply Z.le_min_r).
  set (m' := match 0 - 0 - e' with
             | 0 => Z.pos pa
             | Z.pos _ => IntDef.Z.shiftl (Z.pos pa) (0 - 0 - e')
             | Z.neg _ => 0
             end).
  assert (Hm' : m' = Z.pos pa * 2 ^ (- e')).
  { subst m'. destruct (0 - 0 - e') as [|p|p] eqn:Hs; [| |lia].
    - replace (- e') with 0 by lia. lia.
    - rewrite <- Hs. change IntDef.Z.shiftl with Z.shiftl.
      rewrite Z.shiftl_mul_pow2 by lia.
      by replace (0 - 0 - e') with (- e') by lia. }
  pose proof (Z.pow_pos_nonneg 2 (- e') ltac:(lia) ltac:(lia)) as Hpow.
  change IntDef.Z.div_eucl with Z.div_eucl.
  pose proof (Z.div_eucl_eq m' (Z.pos pb) ltac:(lia)) as Heq.
  pose proof (Z.mod_pos_bound m' (Z.pos pb) ltac:(lia)) as Hmod.
  unfold Z.modulo in Hmod.
  destruct (Z.div_eucl m' (Z.pos pb)) as [q r].
  assert (Hq0 : 0 ≤ q) by nia.
  assert (Hqm : q ≤ m') by nia.
  split; [done|]. split; [done|].
  pose proof (Zdigits2_lt (Z.pos pa) ltac:(lia)) as Hlt. fold d1 in Hlt.
  pose proof (Zdigits2_nonneg (Z.pos pa)) as Hd1. fold d1 in Hd1.
  assert (Zdigits2 q ≤ d1 + - e'); [|lia].
  apply Zdigits2_le; [lia|]. split; [done|].
  rewrite Z.pow_add_r by lia. nia.
Qed.

Lemma SFdiv_int_finite sa pa sb pb s' :
  Z.pos pa < 2 ^ 1023 →
  SFdiv 53 1024 (S754_finite sa pa 0) (S754_finite sb pb 0) ≠ S754_infinity s'.
Proof.
  intros Ha. unfold SFdiv.
  pose proof (SFdiv_core_binary_int pa pb) as H.
  destruct (SFdiv_core_binary 53 1024 (Z.pos pa) 0 (Z.pos pb) 0) as [[q e'] l].
  destruct H as (Hq & He & Hd).
  apply binary_round_aux_finite; [done|lia|].
  assert (Zdigits2 (Z.pos pa) ≤ 1023) by (apply Zdigits2_le; lia). lia.
Qed.

Lemma int_true_divide_total a b :
  Z.abs a < 2 ^ 1023 → b ≠ 0 → ∃ q, PyFloat.int_true_divide a b = Ok q.
Proof.
  intros Ha Hb. unfold PyFloat.int_true_divide.
  destruct (Z.eqb_spec b 0) as [|_]; [done|].
  destruct (Z.eqb_spec a 0) as [|Hna]; [by eexists|].
  destruct a as [|pa|pa], b as [|pb|pb]; try done.
  all: unfold PyFloat.of_int, PyFloat.prec, PyFloat.emax.
  all: match goal with
       | |- context [SFdiv 53 1024 (S754_finite ?sa ?ma 0) (S754_finite ?sb ?mb 0)] =>
           pose proof (λ s', SFdiv_int_finite sa ma sb mb s' ltac:(lia)) as Hfin;
           destruct (SFdiv 53 1024 (S754_finite sa ma 0) (S754_finite sb mb 0)) eqn:E
       end; try by eexists.
  all: by destruct (Hfin s).
Qed.

Lemma guarded_rate_total num den :
  0 ≤ num < 2 ^ 1023 →
  ∃ q, (if den >? 0 then PyFloat.round3 <$> PyFloat.int_true_divide num den
        else Ok PyFloat.zero) = Ok q.
Proof.
  intros Hnum. destruct (Z.gtb_spec den 0) as [Hpos|_]; [|by eexists].
  destruct (int_true_divide_total num den) as [q ->]; [lia|lia|by eexists].
Qed.

Lemma derive_rates_total AB H BB HBP SF TB :
  0 ≤ H → 0 ≤ BB → 0 ≤ HBP → 0 ≤ TB →
  H < 2 ^ 63 → BB < 2 ^ 63 → HBP < 2 ^ 63 → TB < 2 ^ 63 →
  ∃ r, derive_rates AB H BB HBP SF TB = Ok r.
Proof.
  intros. unfold derive_rates.
  assert (Hbig : 2 ^ 63 * 4 < 2 ^ 1023) by (vm_compute; reflexivity).
  destruct (guarded_rate_total H AB) as [a ->]; [lia|].
  destruct (guarded_rate_total (H + BB + HBP) (AB + BB + HBP + SF)) as [o Ho]; [lia|].
  destruct (guarded_rate_total TB AB) as [g ->]; [lia|].
  simpl. rewrite Ho. simpl. by eexists.
Qed.

Lemma int_true_divide_raises a b e :
  PyFloat.int_true_divide a b = Raise e →
  (b = 0 ∧ e = ZeroDivisionError) ∨ (b ≠ 0 ∧ e = OverflowError).
Proof.
  unfold PyFloat.int_true_divide.
  destruct (Z.eqb_spec b 0) as [->|Hb]; [intros [= <-]; auto|].
  destruct (a =? 0); [discriminate|].
  destruct (SFdiv _ _ _ _); intros [= <-]; auto.
Qed.

Lemma guarded_rate_raises num den e :
  (if den >? 0 then PyFloat.round3 <$> PyFloat.int_true_divide num den
   else Ok PyFloat.zero) = Raise e → e = OverflowError.
Proof.
  destruct (Z.gtb_spec den 0) as [Hpos|_]; [|discriminate].
  destruct (PyFloat.int_true_divide num den) as [q|e'] eqn:Hq; [discriminate|].
  intros [= <-]. apply int_true_divide_raises in Hq as [[-> _]|[_ ->]]; [lia|done].
Qed.

Lemma derive_rates_raises AB H BB HBP SF TB e :
  derive_rates AB H BB HBP SF TB = Raise e → e = OverflowError.
Proof.
  unfold derive_rates.
  destruct (if AB >? 0 then PyFloat.round3 <$> PyFloat.int_true_divide H AB
            else Ok PyFloat.zero) as [a|e1] eqn:E1; simpl;
    [|intros [= <-]; by eapply guarded_rate_raises].
  destruct (if AB + BB + HBP + SF >? 0 then _ else _) as [o|e2] eqn:E2; simpl;
    [|intros [= <-]; by eapply guarded_rate_raises].
  destruct (if AB >? 0 then PyFloat.round3 <$> PyFloat.int_true_divide TB AB
            else Ok PyFloat.zero) as [g|e3] eqn:E3; simpl;
    [discriminate|intros [= <-]; by eapply guarded_rate_raises].
Qed.

Lemma guard_agrees den :
  0 ≤ den → (den >? 0) = negb (den =? 0).
Proof.
  intros ?. destruct (Z.gtb_spec den 0), (Z.eqb_spec den 0); simpl; auto; lia.
Qed.


(** ** The ingestion ledger: the overlap predicate *)

Lemma sql_le_spec a b : sql_le a b = true ↔ text_le a b.
Proof. unfold sql_le, text_le. destruct (String.compare a b); split; congruence. Qed.

Lemma sql_ge_spec a b : sql_ge a b = true ↔ text_le b a.
Proof.
  unfold sql_ge, text_le. rewrite (String.compare_antisym b a).
  destruct (String.compare a b); simpl; split; congruence.
Qed.

Lemma sql_ge_le a b : sql_ge a b = sql_le b a.
Proof.
  apply eq_true_iff_eq. by rewrite sql_ge_spec, sql_le_spec.
Qed.

Lemma find_is_Some {A : Type} (f : A → bool) (l : list A) :
  List.find f l ≠ None ↔ ∃ x, x ∈ l ∧ f x = true.
Proof.
  induction l as [|a l IH]; simpl.
  - split; [done|]. intros (x & Hx & _). by apply elem_of_nil in Hx.
  - destruct (f a) eqn:Ha.
    + split; [|done]. intros _. exists a. split; [left|done].
    + rewrite IH. split.
      * intros (x & Hx & Hf). exists x. split; [by right|done].
      * intros (x & Hx & Hf). apply elem_of_cons in Hx as [->|Hx]; [congruence|eauto].
Qed.

Lemma select_overlapping_spec new_start new_end db :
  select_overlapping new_start new_end db ≠ None ↔
  ∃ r, r ∈ processed_files db ∧
       overlaps new_start new_end
         (ProcessedFile.start_date r) (ProcessedFile.end_date r) = true.
Proof.
  unfold select_overlapping. rewrite <- find_is_Some.
  destruct (List.find _ _); naive_solver.
Qed.

(** *** Dates as text *)

#[local] Arguments String.append !_ _ / : simpl nomatch.

Lemma two_digits_compare a b :
  0 ≤ a < 100 → 0 ≤ b < 100 →
  String.compare (two_digits a) (two_digits b) = (a ?= b).
Proof.
  intros Ha Hb.
  assert (Hall : forallb (λ i, forallb (λ j,
            bool_decide (String.compare (two_digits i) (two_digits j) = (i ?= j)))
            (seqZ 0 100)) (seqZ 0 100) = true) by (vm_compute; reflexivity).
  assert (Hin : ∀ n, 0 ≤ n < 100 → In n (seqZ 0 100)).
  { intros n Hn. apply list_elem_of_In, elem_of_seqZ. lia. }
  rewrite forallb_forall in Hall.
  specialize (Hall a (Hin a Ha)). rewrite forallb_forall in Hall.
  specialize (Hall b (Hin b Hb)). by apply bool_decide_eq_true in Hall.
Qed.

Lemma compare_append a1 a2 b1 b2 :
  String.length a1 = String.length a2 →
  String.compare (a1 +:+ b1) (a2 +:+ b2) =
    match String.compare a1 a2 with
    | Eq => String.compare b1 b2
    | c => c
    end.
Proof.
  revert a2. induction a1 as [|c1 a1 IH]; intros [|c2 a2] Hlen; try done.
  injection Hlen as Hlen. simpl.
  destruct (Ascii.compare c1 c2); [by apply IH|done|done].
Qed.

Lemma year_compare y1 y2 :
  0 ≤ y1 → 0 ≤ y2 →
  (y1 ?= y2) = match y1 / 100 ?= y2 / 100 with
               | Eq => y1 mod 100 ?= y2 mod 100
               | c => c
               end.
Proof.
  intros H1 H2.
  pose proof (Z.div_mod y1 100 ltac:(lia)). pose proof (Z.div_mod y2 100 ltac:(lia)).
  pose proof (Z.mod_pos_bound y1 100 ltac:(lia)).
  pose proof (Z.mod_pos_bound y2 100 ltac:(lia)).
  destruct (Z.compare_spec (y1 / 100) (y2 / 100)).
  - destruct (Z.compare_spec (y1 mod 100) (y2 mod 100));
      [apply Z.compare_eq_iff|apply Z.compare_lt_iff|apply Z.compare_gt_iff]; lia.
  - apply Z.compare_lt_iff. lia.
  - apply Z.compare_gt_iff. lia.
Qed.

(** On ISO dates the byte order of the text is the order of the
    calendar. *)
Lemma isoformat_compare d1 d2 :
  valid_date d1 → valid_date d2 →
  String.compare (isoformat d1) (isoformat d2) = date_compare d1 d2.
Proof.
  destruct d1 as [[y1 m1] a1], d2 as [[y2 m2] a2].
  intros (Hy1 & Hm1 & Ha1) (Hy2 & Hm2 & Ha2).
  unfold isoformat, date_compare.
  assert (H100 : ∀ y, 0 ≤ y < 10000 → 0 ≤ y / 100 < 100 ∧ 0 ≤ y mod 100 < 100).
  { intros y Hy. split; [|apply Z.mod_pos_bound; lia].
    split; [apply Z.div_pos; lia|apply Z.div_lt_upper_bound; lia]. }
  destruct (H100 y1 Hy1), (H100 y2 Hy2).
  rewrite !compare_append by done.
  rewrite !two_digits_compare by lia.
  rewrite (year_compare y1 y2) by lia.
  by destruct (y1 / 100 ?= y2 / 100).
Qed.

Lemma text_le_isoformat d1 d2 :
  valid_date d1 → valid_date d2 →
  text_le (isoformat d1) (isoformat d2) ↔ date_le d1 d2.
Proof.
  intros H1 H2. unfold text_le, date_le. by rewrite isoformat_compare.
Qed.

(** C5: the predicate of the overlap query is true exactly when
    [s1 <= e2] and [s2 <= e1], in the order SQLite has on TEXT, and is
    symmetric in the two ranges; on [YYYY-MM-DD] dates that order is the
    calendar's, so the predicate is the overlap of the two date ranges;
    and the query finds a row exactly when some recorded range overlaps. *)
Theorem overlaps_rule_symmetric :
  (∀ s1 e1 s2 e2 : string,
     (overlaps s1 e1 s2 e2 = true ↔ text_le s1 e2 ∧ text_le s2 e1) ∧
     overlaps s1 e1 s2 e2 = overlaps s2 e2 s1 e1)
  ∧ (∀ s1 e1 s2 e2 : Z * Z * Z,
       valid_date s1 → valid_date e1 → valid_date s2 → valid_date e2 →
       overlaps (isoformat s1) (isoformat e1) (isoformat s2) (isoformat e2) = true
       ↔ date_le s1 e2 ∧ date_le s2 e1)
  ∧ (∀ s1 e1 db,
       select_overlapping s1 e1 db ≠ None ↔
       ∃ r, r ∈ processed_files db ∧
            text_le s1 (ProcessedFile.end_date r) ∧
            text_le (ProcessedFile.start_date r) e1).
Proof.
  assert (Hrule : ∀ a b c d,
    overlaps a b c d = true ↔ text_le a d ∧ text_le c b).
  { intros. unfold overlaps.
    by rewrite andb_true_iff, sql_le_spec, sql_ge_spec. }
  split; [|split].
  - intros s1 e1 s2 e2. split; [apply Hrule|].
    unfold overlaps. rewrite !sql_ge_le. apply andb_comm.
  - intros s1 e1 s2 e2 Hs1 He1 Hs2 He2.
    by rewrite Hrule, !text_le_isoformat.
  - intros s1 e1 db. rewrite select_overlapping_spec.
    by setoid_rewrite Hrule.
Qed.

(** ** Reasoning about runs of the pipeline *)

Section Preserves.
Context (R : state → state → Prop).
Context (R_refl : ∀ s, R s s).
Context (R_trans : ∀ s1 s2 s3, R s1 s2 → R s2 s3 → R s1 s3).

Lemma preserves_ret {A} (a : A) : preserves R (mret a).
Proof. intros s. apply R_refl. Qed.

Lemma preserves_raise {A} e : preserves R (@raise A e).
Proof. intros s. apply R_refl. Qed.

Lemma preserves_gets {A} (f : state → A) : preserves R (gets f).
Proof. intros s. apply R_refl. Qed.

Lemma preserves_lift {A} (r : result A) : preserves R (lift r).
Proof. intros s. apply R_refl. Qed.

Lemma preserves_bind {A B} (c : M A) (f : A → M B) :
  preserves R c → (∀ a, preserves R (f a)) → preserves R (c ≫= f).
Proof.
  intros Hc Hf s. unfold mbind, M_bind. specialize (Hc s).
  destruct (c s) as [[a|e] s'] eqn:E; simpl in *; [|done].
  eapply R_trans; [exact Hc|apply Hf].
Qed.

Lemma preserves_try_except {A} (c : M A) (h : exn → M A) :
  preserves R c → (∀ e, preserves R (h e)) → preserves R (try_except c h).
Proof.
  intros Hc Hh s. unfold try_except. specialize (Hc s).
  destruct (c s) as [[a|e] s'] eqn:E; simpl in *; [done|].
  eapply R_trans; [exact Hc|apply Hh].
Qed.

Lemma preserves_try_except_sqlite {A} (c h : M A) :
  preserves R c → preserves R h → preserves R (try_except_sqlite c h).
Proof.
  intros Hc Hh. apply preserves_try_except; [done|].
  intros []; auto using preserves_raise.
Qed.

Lemma preserves_try_finally {A} (c : M A) (f : M unit) :
  preserves R c → preserves R f → preserves R (try_finally c f).
Proof.
  intros Hc Hf s. unfold try_finally. specialize (Hc s).
  destruct (c s) as [r s'] eqn:E. specialize (Hf s').
  destruct (f s') as [[[]|e] s''] eqn:E'; simpl in *; eauto.
Qed.

Lemma preserves_modify (f : state → state) :
  (∀ s, R s (f s)) → preserves R (modify f).
Proof. intros Hf s. apply Hf. Qed.

Lemma preserves_if {A} (b : bool) (c d : M A) :
  preserves R c → preserves R d → preserves R (if b then c else d).
Proof. by destruct b. Qed.

(** One step through the structure of a computation. *)
Ltac preserves_step :=
  first
    [ assumption
    | match goal with H : _ |- preserves _ _ => apply H end
    | lazymatch goal with
      | |- preserves _ (mret _) => apply preserves_ret
      | |- preserves _ (raise _) => apply preserves_raise
      | |- preserves _ (gets _) => apply preserves_gets
      | |- preserves _ (lift _) => apply preserves_lift
      | |- preserves _ (mbind _ _) => apply preserves_bind; [|intros ?]
      | |- preserves _ (try_except_sqlite _ _) => apply preserves_try_except_sqlite
      | |- preserves _ (try_except _ _) => apply preserves_try_except; [|intros ?]
      | |- preserves _ (try_finally _ _) => apply preserves_try_finally
      | |- preserves _ (modify _) => apply preserves_modify; intros ?
      | |- preserves _ (if _ then _ else _) => apply preserves_if
      | |- preserves _ (match ?x with Some _ => _ | None => _ end) => destruct x
      | |- preserves _ (match ?x with (_, _) => _ end) => destruct x
      | |- preserves _ (match ?x with [] => _ | _ :: _ => _ end) => destruct x
      end ].
Ltac preserves_auto := repeat preserves_step; eauto.

(** *** The storage layer and the functions of the module *)
Context (R_log : ∀ l m s, R s (add_log l m s)).
Context (R_faults : ∀ f s, R s (set_faults f s)).
Context (R_reset : ∀ s, R s (set_txn (db_file s) s)).
Context (R_commit : ∀ s, R s (set_db_file (txn s) s)).

Lemma preserves_logging l m : preserves R (logging l m).
Proof. unfold logging. preserves_auto. Qed.

Lemma preserves_storage_fault : preserves R storage_fault.
Proof. intros s. unfold storage_fault. destruct (faults s); simpl; auto. Qed.

Lemma preserves_connect : preserves R connect.
Proof. unfold connect. pose proof preserves_storage_fault. preserves_auto. Qed.

Lemma preserves_commit : preserves R commit.
Proof. unfold commit. pose proof preserves_storage_fault. preserves_auto. Qed.

Lemma preserves_rollback : preserves R rollback.
Proof. unfold rollback. preserves_auto. Qed.

Lemma preserves_close : preserves R close.
Proof. unfold close. preserves_auto. Qed.

Lemma preserves_execute_query {A} (q : database → A) :
  preserves R (execute_query q).
Proof. unfold execute_query. pose proof preserves_storage_fault. preserves_auto. Qed.

Lemma preserves_execute_write stmt :
  (∀ s db', stmt (txn s) = Some db' → R s (set_txn db' s)) →
  preserves R (execute_write stmt).
Proof.
  intros Hstmt. unfold execute_write.
  apply preserves_bind; [apply preserves_storage_fault|intros []].
  { apply preserves_raise. }
  intros s. unfold mbind, M_bind, gets; simpl.
  destruct (stmt (txn s)) eqn:E; simpl; auto.
Qed.

Lemma preserves_with_conn {A} (body : M A) :
  preserves R body → preserves R (with_conn body).
Proof.
  intros Hb s. unfold with_conn. specialize (Hb s).
  destruct (body s) as [[a|e] s'] eqn:E; simpl in *.
  - eapply R_trans; [exact Hb|].
    pose proof preserves_commit as Hc.
    assert (Hp : preserves R (commit ;; mret a)) by preserves_auto.
    apply Hp.
  - eapply R_trans; [exact Hb|].
    pose proof preserves_rollback as Hr.
    assert (Hp : preserves R (rollback ;; @raise A e)) by preserves_auto.
    apply Hp.
Qed.

Context (R_team : ∀ a n v c s,
           R s (set_txn (insert_or_ignore_team a n v c (txn s)) s)).
Context (R_player : ∀ a n t p s,
           R s (set_txn (insert_or_ignore_player a n t p (txn s)) s)).
Context (R_game : ∀ a d l h w hs ws s,
           R s (set_txn (insert_or_ignore_game a d l h w hs ws (txn s)) s)).
Context (R_stats : ∀ d s, R s (set_txn (executemany d (txn s)) s)).

Lemma preserves_get_or_create_team a n v c :
  preserves R (get_or_create_team a n v c).
Proof.
  unfold get_or_create_team.
  pose proof preserves_commit. pose proof (preserves_logging).
  pose proof (preserves_execute_query (select_team_id a)).
  assert (preserves R (execute_write (λ db, Some (insert_or_ignore_team a n v c db)))).
  { apply preserves_execute_write. by intros s db' [= <-]. }
  preserves_auto.
Qed.

Lemma preserves_get_or_create_player a n t p :
  preserves R (get_or_create_player a n t p).
Proof.
  unfold get_or_create_player.
  pose proof preserves_commit. pose proof (preserves_logging).
  pose proof (preserves_execute_query (select_player_id a)).
  assert (preserves R (execute_write (λ db, Some (insert_or_ignore_player a n t p db)))).
  { apply preserves_execute_write. by intros s db' [= <-]. }
  preserves_auto.
Qed.

Lemma preserves_get_or_create_game a d l h w hs ws :
  preserves R (get_or_create_game a d l h w hs ws).
Proof.
  unfold get_or_create_game.
  pose proof preserves_commit. pose proof (preserves_logging).
  pose proof (preserves_execute_query (select_game_id a)).
  assert (preserves R
            (execute_write (λ db, Some (insert_or_ignore_game a d l h w hs ws db)))).
  { apply preserves_execute_write. by intros s db' [= <-]. }
  preserves_auto.
Qed.

Lemma preserves_bulk_insert_stats d : preserves R (bulk_insert_stats d).
Proof.
  unfold bulk_insert_stats.
  pose proof preserves_commit. pose proof (preserves_logging).
  assert (preserves R (execute_write (λ db, Some (executemany d db)))).
  { apply preserves_execute_write. by intros s db' [= <-]. }
  preserves_auto.
Qed.

Lemma preserves_process_teams teams tm : preserves R (process_teams teams tm).
Proof.
  revert tm. induction teams as [|team teams IH]; intros tm; simpl.
  - apply preserves_ret.
  - apply preserves_bind; [apply preserves_get_or_create_team|intros ?; apply IH].
Qed.

Lemma preserves_process_roster roster t pm :
  preserves R (process_roster roster t pm).
Proof.
  revert pm. induction roster as [|player roster IH]; intros pm; simpl.
  - apply preserves_ret.
  - apply preserves_bind; [apply preserves_get_or_create_player|intros ?; apply IH].
Qed.

Lemma preserves_process_rosters rosters tm pm :
  preserves R (process_rosters rosters tm pm).
Proof.
  revert pm. induction rosters as [|[team_key roster] rosters IH]; intros pm; simpl.
  - apply preserves_ret.
  - destruct (if isdigit team_key then _ else _).
    + apply preserves_bind; [apply preserves_process_roster|intros ?; apply IH].
    + apply preserves_bind; [apply preserves_logging|intros ?; apply IH].
Qed.

Lemma preserves_process_games games tm gm :
  preserves R (process_games games tm gm).
Proof.
  revert gm. induction games as [|game games IH]; intros gm; simpl.
  - apply preserves_ret.
  - destruct (team_mapping_by_api tm !! Json.home_team_id game);
      [destruct (team_mapping_by_api tm !! Json.away_team_id game)|].
    + apply preserves_bind; [apply preserves_get_or_create_game|intros ?; apply IH].
    + apply preserves_bind; [apply preserves_logging|intros ?; apply IH].
    + apply preserves_bind; [apply preserves_logging|intros ?; apply IH].
Qed.

Lemma preserves_resolve_reference_data data :
  preserves R (resolve_reference_data data).
Proof.
  unfold resolve_reference_data. apply preserves_with_conn.
  pose proof preserves_process_teams. pose proof preserves_process_rosters.
  pose proof preserves_process_games. preserves_auto.
Qed.

Lemma preserves_load_stats data gm pm :
  preserves R (load_batter_stats data gm pm) ∧
  preserves R (load_pitcher_stats data gm pm).
Proof.
  unfold load_batter_stats, load_pitcher_stats.
  pose proof preserves_bulk_insert_stats.
  split; preserves_auto.
Qed.

Lemma preserves_create_connection : preserves R create_connection.
Proof.
  unfold create_connection.
  pose proof preserves_connect. pose proof preserves_logging. preserves_auto.
Qed.

Lemma preserves_json_load p : preserves R (json_load p).
Proof.
  intros s. unfold json_load.
  destruct (listing p.1 s !! p.2) as [[?|]|]; simpl; auto.
Qed.

Lemma preserves_transform_and_load p : preserves R (transform_and_load p).
Proof.
  unfold transform_and_load.
  pose proof preserves_json_load. pose proof preserves_create_connection.
  pose proof preserves_resolve_reference_data. pose proof preserves_logging.
  pose proof preserves_close.
  pose proof (λ d g p, proj1 (preserves_load_stats d g p)).
  pose proof (λ d g p, proj2 (preserves_load_stats d g p)).
  preserves_auto.
Qed.

(** *** The ledger and the orchestrator *)
Context (R_record : ∀ f a b t s db',
           insert_processed_file f a b t (txn s) = Some db' → R s (set_txn db' s)).
Context (R_dirs : ∀ r h s, R s (set_dirs r h s)).

Lemma preserves_file_overlaps_processed a b :
  preserves R (file_overlaps_processed a b).
Proof.
  unfold file_overlaps_processed.
  pose proof (preserves_execute_query (select_overlapping a b)).
  pose proof preserves_logging. preserves_auto.
Qed.

Lemma preserves_record_file_processed f a b :
  preserves R (record_file_processed f a b).
Proof.
  unfold record_file_processed.
  pose proof preserves_commit. pose proof preserves_logging.
  assert (∀ t, preserves R (execute_write (insert_processed_file f a b t))).
  { intros t. apply preserves_execute_write. intros s db'. apply R_record. }
  preserves_auto.
Qed.

Lemma preserves_shutil_move src dst : preserves R (shutil_move src dst).
Proof.
  intros s. unfold shutil_move.
  destruct (listing src.1 s !! src.2); simpl; [|auto].
  destruct src.1, dst.1; simpl; eauto.
Qed.

Lemma preserves_create_tables : preserves R create_tables.
Proof.
  unfold create_tables.
  pose proof preserves_commit. pose proof preserves_logging.
  pose proof preserves_rollback.
  assert (preserves R (execute_write Some)).
  { apply preserves_execute_write. intros s db' [= <-]. by destruct s. }
  preserves_auto.
Qed.

Lemma preserves_range_check f a b : preserves R (range_check f a b).
Proof.
  unfold range_check.
  pose proof preserves_file_overlaps_processed. pose proof preserves_logging.
  preserves_auto.
Qed.

Lemma preserves_load_and_archive f a b : preserves R (load_and_archive f a b).
Proof.
  unfold load_and_archive.
  pose proof preserves_transform_and_load. pose proof preserves_logging.
  pose proof preserves_record_file_processed. pose proof preserves_shutil_move.
  preserves_auto.
Qed.

Lemma preserves_process_file f : preserves R (process_file f).
Proof.
  unfold process_file.
  pose proof preserves_range_check. pose proof preserves_load_and_archive.
  destruct (endswith f ".json"); [|apply preserves_ret].
  destruct (extract_date_range f). preserves_auto.
Qed.

Lemma preserves_main_loop fs : preserves R (main_loop fs).
Proof.
  induction fs as [|f fs IH]; simpl; [apply preserves_ret|].
  apply preserves_bind; [apply preserves_process_file|by intros ?].
Qed.

Lemma preserves_main : preserves R main.
Proof.
  unfold main, os_listdir.
  pose proof preserves_create_connection. pose proof preserves_create_tables.
  pose proof preserves_main_loop. pose proof preserves_close.
  preserves_auto.
Qed.
End Preserves.

(** *** Relations on states built from a relation on databases *)

Section Stable.
Context (Q : database → database → Prop).
Context (Q_refl : ∀ db, Q db db).
Context (Q_trans : ∀ d1 d2 d3, Q d1 d2 → Q d2 d3 → Q d1 d3).

Lemma stable_refl s : stable Q s s.
Proof. intros H. auto. Qed.

Lemma stable_trans s1 s2 s3 : stable Q s1 s2 → stable Q s2 s3 → stable Q s1 s3.
Proof.
  intros H12 H23 H1. destruct (H12 H1) as [Ha Hb].
  destruct (H23 Hb) as [Hc Hd]. eauto.
Qed.

Lemma stable_log l m s : stable Q s (add_log l m s).
Proof. intros H. auto. Qed.

Lemma stable_faults f s : stable Q s (set_faults f s).
Proof. intros H. auto. Qed.

Lemma stable_dirs r h s : stable Q s (set_dirs r h s).
Proof. intros H. auto. Qed.

Lemma stable_reset s : stable Q s (set_txn (db_file s) s).
Proof. intros H. simpl. auto. Qed.

Lemma stable_commit s : stable Q s (set_db_file (txn s) s).
Proof. intros H. simpl. auto. Qed.

Lemma stable_write db' s : Q (txn s) db' → stable Q s (set_txn db' s).
Proof. intros H' H. simpl. eauto. Qed.
End Stable.

(** ** The reference tables only grow *)

Lemma reference_rows_kept_refl db : reference_rows_kept db db.
Proof. by repeat split. Qed.

Lemma reference_rows_kept_trans d1 d2 d3 :
  reference_rows_kept d1 d2 → reference_rows_kept d2 d3 → reference_rows_kept d1 d3.
Proof.
  intros (?&?&?) (?&?&?). repeat split; by etrans.
Qed.

Lemma insert_batter_stats_frame data db :
  let db' := insert_batter_stats data db in
  teams db' = teams db ∧ players db' = players db ∧ games db' = games db ∧
  processed_files db' = processed_files db.
Proof.
  revert db. induction data as [|v data IH]; intros db; simpl; [done|].
  destruct (IH (set_batter_stats (batter_stats db ++ [BatterStat.Row (seq_of "batter_stats" db + 1) v])
                  (bump_seq "batter_stats" db))) as (->&->&->&->).
  done.
Qed.

Lemma insert_pitcher_stats_frame data db :
  let db' := insert_pitcher_stats data db in
  teams db' = teams db ∧ players db' = players db ∧ games db' = games db ∧
  processed_files db' = processed_files db.
Proof.
  revert db. induction data as [|v data IH]; intros db; simpl; [done|].
  destruct (IH (set_pitcher_stats (pitcher_stats db ++ [PitcherStat.Row (seq_of "pitcher_stats" db + 1) v])
                  (bump_seq "pitcher_stats" db))) as (->&->&->&->).
  done.
Qed.

Lemma executemany_frame d db :
  let db' := executemany d db in
  teams db' = teams db ∧ players db' = players db ∧ games db' = games db ∧
  processed_files db' = processed_files db.
Proof.
  destruct d; [apply insert_batter_stats_frame|apply insert_pitcher_stats_frame].
Qed.

Lemma insert_or_ignore_team_kept a n v c db :
  reference_rows_kept db (insert_or_ignore_team a n v c db).
Proof.
  unfold insert_or_ignore_team. destruct n; [|by repeat split].
  simpl. destruct (existsb _ _); repeat split; simpl; try done.
  by apply prefix_app_r.
Qed.

Lemma insert_or_ignore_player_kept a n t p db :
  reference_rows_kept db (insert_or_ignore_player a n t p db).
Proof.
  unfold insert_or_ignore_player. destruct n; [|by repeat split].
  simpl. destruct (existsb _ _); repeat split; simpl; try done.
  by apply prefix_app_r.
Qed.

Lemma insert_or_ignore_game_kept a d l h w hs ws db :
  reference_rows_kept db (insert_or_ignore_game a d l h w hs ws db).
Proof.
  unfold insert_or_ignore_game.
  simpl. destruct (existsb _ _); repeat split; simpl; try done.
  by apply prefix_app_r.
Qed.

Lemma executemany_kept d db : reference_rows_kept db (executemany d db).
Proof.
  destruct (executemany_frame d db) as (Ht & Hp & Hg & _).
  unfold reference_rows_kept. by rewrite Ht, Hp, Hg.
Qed.

Lemma insert_processed_file_kept f a b t db db' :
  insert_processed_file f a b t db = Some db' → reference_rows_kept db db'.
Proof.
  unfold insert_processed_file. destruct (existsb _ _); [done|].
  intros [= <-]. by repeat split.
Qed.

Lemma main_stable_reference_rows :
  preserves (stable reference_rows_kept) main.
Proof.
  pose proof reference_rows_kept_refl as Hr.
  pose proof reference_rows_kept_trans as Ht.
  apply preserves_main.
  all: try (intros; apply stable_write; eauto using insert_or_ignore_team_kept,
     insert_or_ignore_player_kept, insert_or_ignore_game_kept, executemany_kept,
     insert_processed_file_kept; fail).
  all: eauto using stable_refl, stable_trans, stable_log, stable_faults,
               stable_reset, stable_commit, stable_dirs.
Qed.

Lemma existsb_elem_of {A : Type} (f : A → bool) (l : list A) x :
  x ∈ l → f x = true → existsb f l = true.
Proof.
  intros Hx Hf. apply existsb_exists. exists x. split; [|done].
  by apply list_elem_of_In.
Qed.

Lemma insert_or_ignore_player_known e n t p db :
  existsb (λ r, sql_eq (Player.api_player_id r) (Some e)) (players db) = true →
  players (insert_or_ignore_player (Some e) n t p db) = players db.
Proof.
  intros H. unfold insert_or_ignore_player. destruct n; [|done].
  simpl. by rewrite H.
Qed.

(** *** Runs, step by step *)

(** How a sequence runs. *)
Lemma bind_run {A B : Type} (c : M A) (f : A → M B) s :
  (c ≫= f) s = match c s with
               | (Ok a, s') => f a s'
               | (Raise e, s') => (Raise e, s')
               end.
Proof. reflexivity. Qed.

Lemma storage_fault_frame s b s0 :
  storage_fault s = (Ok b, s0) →
  db_file s0 = db_file s ∧ txn s0 = txn s ∧ raw_dir s0 = raw_dir s ∧
  historical_dir s0 = historical_dir s ∧ log s0 = log s ∧ clock s0 = clock s.
Proof.
  unfold storage_fault. destruct (faults s); intros [= <- <-]; done.
Qed.

Lemma storage_fault_total s : ∃ b s0, storage_fault s = (Ok b, s0).
Proof. unfold storage_fault. destruct (faults s); eauto. Qed.

Lemma create_connection_run s :
  create_connection s =
    match storage_fault s with
    | (Ok true, s0) => (Raise SqliteError, add_log ERROR ErrorConnecting s0)
    | (_, s0) => (Ok (), add_log INFO ConnectionEstablished (set_txn (db_file s0) s0))
    end.
Proof.
  unfold create_connection, try_except_sqlite, try_except, connect.
  rewrite !bind_run.
  destruct (storage_fault_total s) as (b & s0 & ->). by destruct b.
Qed.

Lemma main_from_fresh_connection s :
  db_file (main s).2 = db_file (main (set_txn (db_file s) s)).2.
Proof.
  unfold main. rewrite !bind_run, !create_connection_run.
  unfold storage_fault.
  destruct s as [d t r h [|[] fs] l c]; reflexivity.
Qed.

(** C9: rows of teams, players and games are append-only.  Over a whole
    run of [main], whatever fails on the way, the rows that were durable
    before are an initial segment of the rows durable after, field for
    field; and resolving a known player with any other name, team or
    position leaves the players table as it was. *)
Theorem reference_data_append_only :
  (∀ s, reference_rows_kept (db_file s) (db_file (main s).2))
  ∧ (∀ s e n t p r,
       txn s = db_file s →
       r ∈ players (db_file s) →
       Player.api_player_id r = Some e →
       let s' := (get_or_create_player (Some e) n t p s).2 in
       players (db_file s') = players (db_file s) ∧
       players (txn s') = players (db_file s) ∧
       r ∈ players (db_file s')).
Proof.
  split.
  - intros s. rewrite main_from_fresh_connection.
    destruct (main_stable_reference_rows (set_txn (db_file s) s)) as [H _]; [|exact H].
    apply reference_rows_kept_refl.
  - intros s e n t p r Htxn Hr He.
    assert (Hk : players (insert_or_ignore_player (Some e) n t p (db_file s))
                 = players (db_file s)).
    { apply insert_or_ignore_player_known.
      apply (existsb_elem_of _ _ r); [done|].
      rewrite He. simpl. apply Z.eqb_refl. }
    assert (Hgoal : let s' := (get_or_create_player (Some e) n t p s).2 in
              players (db_file s') = players (db_file s) ∧
              players (txn s') = players (db_file s)).
    { unfold get_or_create_player, try_except_sqlite, try_except, execute_write,
        commit, execute_query, storage_fault, logging, modify, gets, raise,
        mbind, M_bind, mret, M_ret.
      destruct s as [d tx rd hd fl lg ck]. simpl in *. subst tx.
      destruct fl as [|[] [|[] [|[] fl]]]; simpl; try done.
      all: destruct (select_player_id (Some e) _); simpl; done. }
    simpl in *. destruct Hgoal as [H1 H2]. rewrite H1. done.
Qed.

(** ** A failing unit *)

Lemma same_dirs_refl s : same_dirs s s.
Proof. done. Qed.

Lemma same_dirs_trans s1 s2 s3 : same_dirs s1 s2 → same_dirs s2 s3 → same_dirs s1 s3.
Proof. intros [? ?] [? ?]. split; congruence. Qed.

Lemma transform_and_load_same_dirs p : preserves same_dirs (transform_and_load p).
Proof.
  apply preserves_transform_and_load;
    eauto using same_dirs_refl, same_dirs_trans; by intros.
Qed.

Lemma insert_or_ignore_ledger_kept db :
  (∀ a n v c, ledger_kept db (insert_or_ignore_team a n v c db)) ∧
  (∀ a n t p, ledger_kept db (insert_or_ignore_player a n t p db)) ∧
  (∀ a d l h w hs ws, ledger_kept db (insert_or_ignore_game a d l h w hs ws db)) ∧
  (∀ d, ledger_kept db (executemany d db)).
Proof.
  unfold ledger_kept. repeat split; intros.
  - unfold insert_or_ignore_team. destruct n; [|done].
    simpl. by destruct (existsb _ _).
  - unfold insert_or_ignore_player. destruct n; [|done].
    simpl. by destruct (existsb _ _).
  - unfold insert_or_ignore_game. simpl. by destruct (existsb _ _).
  - apply executemany_frame.
Qed.

Lemma transform_and_load_stable_ledger p :
  preserves (stable ledger_kept) (transform_and_load p).
Proof.
  assert (Hr : ∀ db, ledger_kept db db) by done.
  assert (Ht : ∀ d1 d2 d3, ledger_kept d1 d2 → ledger_kept d2 d3 → ledger_kept d1 d3).
  { unfold ledger_kept. congruence. }
  apply preserves_transform_and_load.
  all: try (intros; apply stable_write;
            first [assumption | apply insert_or_ignore_ledger_kept]).
  all: eauto using stable_refl, stable_trans, stable_log, stable_faults,
               stable_reset, stable_commit.
Qed.

Lemma transform_and_load_fresh p s :
  db_file (transform_and_load p s).2 =
  db_file (transform_and_load p (set_txn (db_file s) s)).2.
Proof.
  unfold transform_and_load. rewrite !bind_run. unfold json_load.
  replace (listing p.1 (set_txn (db_file s) s)) with (listing p.1 s)
    by (by destruct p.1).
  destruct (listing p.1 s !! p.2) as [[data|]|]; [|done..].
  rewrite !bind_run, !create_connection_run. unfold storage_fault.
  destruct s as [d t r h [|[] fs] l c]; reflexivity.
Qed.

(** Loading a file never touches the ledger, and never the directories. *)
Lemma transform_and_load_frame p s :
  let s' := (transform_and_load p s).2 in
  processed_files (db_file s') = processed_files (db_file s) ∧ same_dirs s s'.
Proof.
  split; [|apply transform_and_load_same_dirs].
  rewrite transform_and_load_fresh.
  by destruct (transform_and_load_stable_ledger p (set_txn (db_file s) s)) as [H _].
Qed.

(** A write to the ledger that raises has written nothing durable. *)
Lemma record_file_processed_raises f a b s e s' :
  record_file_processed f a b s = (Raise e, s') →
  db_file s' = db_file s ∧ same_dirs s s'.
Proof.
  unfold record_file_processed, try_except_sqlite, try_except, execute_write,
    commit, storage_fault, logging, modify, gets, raise,
    mbind, M_bind, mret, M_ret.
  destruct s as [d tx rd hd fl lg ck]; simpl.
  destruct fl as [|[] fl]; simpl.
  - destruct (insert_processed_file f a b ck tx); simpl; [done|].
    by intros [= <- <-].
  - by intros [= <- <-].
  - destruct (insert_processed_file f a b ck tx); simpl.
    + destruct fl as [|[] fl]; simpl; [done| |done]. by intros [= <- <-].
    + by intros [= <- <-].
Qed.

(** The check of the range reads the ledger and writes a log line. *)
Lemma range_check_frame f a b s :
  let s' := (range_check f a b s).2 in
  db_file s' = db_file s ∧ txn s' = txn s ∧ same_dirs s s'.
Proof.
  apply (preserves_range_check
           (λ s s', db_file s' = db_file s ∧ txn s' = txn s ∧ same_dirs s s')).
  - done.
  - intros s1 s2 s3 (?&?&?) (?&?&?). repeat split; try congruence.
    all: eapply same_dirs_trans; eauto.
  - done.
  - done.
Qed.

(** The orchestrator catches everything a unit can raise. *)
Lemma load_and_archive_run f a b s :
  load_and_archive f a b s =
    match (transform_and_load (os_path_join RAW_DIR f) ;;
           match both a b with
           | Some (start_date, end_date) => record_file_processed f start_date end_date
           | None => mret ()
           end ;;
           shutil_move (os_path_join RAW_DIR f) (os_path_join HISTORICAL_DIR f) ;;
           logging INFO (MovedFile f)) (add_log INFO (ProcessingFile f) s) with
    | (Ok a, s') => (Ok a, s')
    | (Raise e, s') => (Ok (), add_log ERROR (FailedToProcess f e) s')
    end.
Proof. reflexivity. Qed.

Lemma file_overlaps_processed_run a b s :
  file_overlaps_processed a b s =
    match storage_fault s with
    | (Ok true, s0) => (Ok false, add_log ERROR ErrorCheckingOverlap s0)
    | (_, s0) => (Ok (bool_decide (select_overlapping a b (txn s0) ≠ None)), s0)
    end.
Proof.
  unfold file_overlaps_processed, try_except_sqlite, try_except, execute_query.
  rewrite !bind_run.
  destruct (storage_fault_total s) as (fl & s0 & ->). by destruct fl.
Qed.

Lemma range_check_run f a b s :
  range_check f a b s =
    match both a b with
    | Some (sd, ed) =>
        match storage_fault s with
        | (Ok true, s0) => (Ok false, add_log ERROR ErrorCheckingOverlap s0)
        | (_, s0) =>
            if bool_decide (select_overlapping sd ed (txn s0) ≠ None)
            then (Ok true, add_log INFO (SkippingOverlap sd ed f) s0)
            else (Ok false, s0)
        end
    | None => (Ok false, add_log WARNING (FilenameDoesNotMatch f) s)
    end.
Proof.
  unfold range_check. destruct (both a b) as [[sd ed]|]; [|done].
  rewrite bind_run, file_overlaps_processed_run.
  destruct (storage_fault_total s) as (fl & s0 & ->).
  destruct fl; [done|]. by destruct (bool_decide _).
Qed.

Lemma range_check_returns f a b s : ∃ skip, (range_check f a b s).1 = Ok skip.
Proof.
  rewrite range_check_run. destruct (both a b) as [[sd ed]|]; [|by eexists].
  destruct (storage_fault_total s) as (fl & s0 & ->).
  destruct fl; [by eexists|]. destruct (bool_decide _); by eexists.
Qed.

Lemma load_and_archive_returns f a b s : (load_and_archive f a b s).1 = Ok ().
Proof.
  rewrite load_and_archive_run.
  match goal with
  | |- context [match ?x with (_, _) => _ end] => by destruct x as [[[]|] ?]
  end.
Qed.

Lemma process_file_returns f s : (process_file f s).1 = Ok ().
Proof.
  unfold process_file. destruct (endswith f ".json"); [|done].
  destruct (extract_date_range f) as [a b].
  rewrite bind_run.
  destruct (range_check_returns f a b s) as [skip Hskip].
  destruct (range_check f a b s) as [r s0]. simpl in Hskip. subst r.
  destruct skip; [done|apply load_and_archive_returns].
Qed.

Lemma main_loop_step f rest s :
  main_loop (f :: rest) s = main_loop rest (process_file f s).2.
Proof.
  simpl. rewrite bind_run. pose proof (process_file_returns f s) as H.
  destruct (process_file f s) as [r s']. simpl in *. by subst r.
Qed.


(** ** The source token *)

#[local] Arguments is_date_char : simpl never.

Lemma strip_prefix_spec p s r : strip_prefix p s = Some r ↔ s = p +:+ r.
Proof.
  revert s. induction p as [|a p IH]; intros s; simpl.
  - split; congruence.
  - destruct s as [|b s]; [split; discriminate|].
    destruct (Ascii.eqb_spec a b) as [->|Hne].
    + rewrite IH. split; congruence.
    + split; [discriminate|]. intros [= ? ?]. congruence.
Qed.

Lemma take_date_chars_app g r :
  all_date_chars g = true →
  (∀ c r', r = String c r' → is_date_char c = false) →
  take_date_chars (g +:+ r) = (g, r).
Proof.
  intros Hg Hr. induction g as [|c g IH]; simpl in *.
  - destruct r as [|c r']; [done|]. simpl. by rewrite (Hr c r').
  - apply andb_true_iff in Hg as [-> Hg]. by rewrite IH.
Qed.

Lemma take_date_chars_spec s g r :
  take_date_chars s = (g, r) →
  s = g +:+ r ∧ all_date_chars g = true ∧
  (∀ c r', r = String c r' → is_date_char c = false).
Proof.
  revert g r. induction s as [|c s IH]; intros g r; simpl.
  - intros [= <- <-]. by repeat split.
  - destruct (is_date_char c) eqn:Hc.
    + destruct (take_date_chars s) as [g' r'].
      intros [= <- <-]. destruct (IH g' r' eq_refl) as (-> & Hg & Hr).
      simpl. rewrite Hc. by repeat split.
    + intros [= <- <-]. repeat split. intros c' r' [= <- <-]. done.
Qed.

Lemma match_dotstar_spec lit s :
  match_dotstar lit s = true ↔
  ∃ mid tail, s = mid +:+ lit +:+ tail ∧ no_newline mid = true.
Proof.
  split.
  - induction s as [|c s IH]; simpl.
    + destruct (strip_prefix lit "") as [tail|] eqn:Hp; [|done].
      intros _. apply strip_prefix_spec in Hp. by exists "", tail.
    + destruct (strip_prefix lit (String c s)) as [tail|] eqn:Hp.
      * intros _. apply strip_prefix_spec in Hp. by exists "", tail.
      * intros [Hc Hs]%andb_true_iff.
        destruct (IH Hs) as (mid & tail & -> & Hmid).
        exists (String c mid), tail. simpl. by rewrite Hc, Hmid.
  - intros (mid & tail & -> & Hmid).
    induction mid as [|c mid IH]; simpl in *.
    + assert (Hp : strip_prefix lit (lit +:+ tail) = Some tail)
        by by apply strip_prefix_spec.
      destruct lit; simpl in *; [by destruct tail|by rewrite Hp].
    + apply andb_true_iff in Hmid as [Hc Hmid].
      destruct (strip_prefix lit _); [done|].
      by rewrite Hc, IH.
Qed.

Lemma extract_date_range_cases filename :
  extract_date_range filename = (None, None) ∨
  ∃ a b, extract_date_range filename = (Some a, Some b) ∧
         both (Some a) (Some b) = Some (a, b).
Proof.
  unfold extract_date_range.
  destruct (strip_prefix _ _) as [rest|]; [|by left].
  destruct (take_date_chars rest) as [[|c1 g1] [|u1 rest1]]; try by left.
  destruct u1 as [[] [] [] [] [] [] [] []]; try by left.
  destruct (take_date_chars rest1) as [[|c2 g2] [|u2 rest2]]; try by left.
  destruct u2 as [[] [] [] [] [] [] [] []]; try by left.
  destruct (match_dotstar _ _); [|by left].
  right. by eexists _, _.
Qed.

(** The matcher accepts exactly the tokens of the pattern, and returns
    their two groups. *)
Lemma extract_date_range_spec filename a b :
  extract_date_range filename = (Some a, Some b) ↔ token_matches filename a b.
Proof.
  unfold extract_date_range, token_matches. split.
  - destruct (strip_prefix _ _) as [rest|] eqn:Hp; [|done].
    apply strip_prefix_spec in Hp as ->.
    destruct (take_date_chars rest) as [g1 r1] eqn:H1.
    apply take_date_chars_spec in H1 as (-> & Hg1 & _).
    destruct g1 as [|c1 g1]; [done|]. destruct r1 as [|u1 rest1]; [done|].
    destruct u1 as [[] [] [] [] [] [] [] []]; try done.
    destruct (take_date_chars rest1) as [g2 r2] eqn:H2.
    apply take_date_chars_spec in H2 as (-> & Hg2 & _).
    destruct g2 as [|c2 g2]; [done|]. destruct r2 as [|u2 rest2]; [done|].
    destruct u2 as [[] [] [] [] [] [] [] []]; try done.
    destruct (match_dotstar ".json" rest2) eqn:Hm; [|done].
    apply match_dotstar_spec in Hm as (mid & tail & -> & Hmid).
    intros [= <- <-]. exists mid, tail. by repeat split.
  - intros (mid & tail & -> & Ha & Hda & Hb & Hdb & Hmid).
    assert (Hp : strip_prefix "mlb_raw_"
                   ("mlb_raw_" +:+ a +:+ "_" +:+ b +:+ "_" +:+ mid +:+ ".json" +:+ tail)
                 = Some (a +:+ "_" +:+ b +:+ "_" +:+ mid +:+ ".json" +:+ tail))
      by by apply strip_prefix_spec.
    rewrite Hp.
    rewrite take_date_chars_app; [|done|by intros c r' [= <- _]].
    destruct a as [|c1 g1]; [done|]. cbn [String.append].
    rewrite take_date_chars_app; [|done|by intros c r' [= <- _]].
    destruct b as [|c2 g2]; [done|]. cbn [String.append].
    assert (Hm : match_dotstar ".json" (mid +:+ ".json" +:+ tail) = true).
    { apply match_dotstar_spec. by exists mid, tail. }
    cbn [String.append] in Hm. by rewrite Hm.
Qed.

Lemma extract_date_range_None filename :
  extract_date_range filename = (None, None) ↔
  ∀ a b, ¬ token_matches filename a b.
Proof.
  split.
  - intros Hn a b Hm. apply extract_date_range_spec in Hm. congruence.
  - intros Hn. destruct (extract_date_range_cases filename) as [|(a & b & Hab & _)];
      [done|].
    apply extract_date_range_spec in Hab. by destruct (Hn a b).
Qed.

(** ** What the range check decides *)

Lemma token_matches_both filename a b :
  token_matches filename a b → both (Some a) (Some b) = Some (a, b).
Proof.
  intros (_ & _ & _ & Ha & _ & Hb & _). by destruct a, b.
Qed.


(** C10: when the overlap query itself fails, [file_overlaps_processed]
    answers [False] whatever the ledger holds, and the file is loaded,
    recorded and archived like one that overlaps nothing. *)
Theorem overlap_check_fails_open
    (filename start_date end_date : string) (s s0 : state) :
  endswith filename ".json" = true →
  token_matches filename start_date end_date →
  storage_fails s s0 →
  file_overlaps_processed start_date end_date s =
    (Ok false, add_log ERROR ErrorCheckingOverlap s0) ∧
  process_file filename s =
    attempt filename (Some (start_date, end_date))
            (add_log ERROR ErrorCheckingOverlap s0).
Proof.
  intros Hjson Hm Hfail. unfold storage_fails in Hfail.
  split.
  - by rewrite file_overlaps_processed_run, Hfail.
  - unfold process_file.
    pose proof (token_matches_both _ _ _ Hm) as Hboth.
    apply extract_date_range_spec in Hm.
    rewrite Hjson, Hm, bind_run, range_check_run, Hboth, Hfail.
    rewrite load_and_archive_run, Hboth. done.
Qed.

(** C4, as the code has it: when the overlap query succeeds and finds a
    recorded range overlapping the declared one, the file is skipped: the
    loop body returns with the database (durable and as the connection
    sees it) and both directories exactly as they were; only a log line
    is added. *)
Theorem overlapping_unit_skipped
    (filename start_date end_date : string) (s s0 : state)
    (r : ProcessedFile.row) :
  endswith filename ".json" = true →
  token_matches filename start_date end_date →
  storage_ok s s0 →
  r ∈ processed_files (txn s) →
  overlaps start_date end_date
    (ProcessedFile.start_date r) (ProcessedFile.end_date r) = true →
  let s' := add_log INFO (SkippingOverlap start_date end_date filename) s0 in
  process_file filename s = (Ok (), s') ∧
  db_file s' = db_file s ∧ txn s' = txn s ∧
  raw_dir s' = raw_dir s ∧ historical_dir s' = historical_dir s.
Proof.
  intros Hjson Hm Hok Hr Hov s'. unfold storage_ok in Hok.
  destruct (storage_fault_frame _ _ _ Hok) as (Hdb & Htxn & Hraw & Hhist & _).
  split; [|by subst s'].
  unfold process_file.
  pose proof (token_matches_both _ _ _ Hm) as Hboth.
  apply extract_date_range_spec in Hm.
  rewrite Hjson, Hm, bind_run, range_check_run, Hboth, Hok.
  rewrite bool_decide_eq_true_2; [done|].
  apply select_overlapping_spec. exists r. by rewrite Htxn.
Qed.

(** ** A game without its teams *)

(** C7: a game whose home or away team is not in the team mapping costs
    one warning and nothing else: the loop goes on with the remaining
    games from the same database and the same mappings, so no row was
    written for it and the games after it are resolved as usual. *)
Theorem unresolved_game_skipped
    (game : Json.game) (games : list Json.game)
    (tm : team_mappings) (game_mapping : gmap (option Z) Z) (s : state) :
  team_mapping_by_api tm !! Json.home_team_id game = None ∨
  team_mapping_by_api tm !! Json.away_team_id game = None →
  let s' := add_log WARNING (MissingTeamMapping (Json.game_id game)) s in
  process_games (game :: games) tm game_mapping s =
    process_games games tm game_mapping s' ∧
  db_file s' = db_file s ∧ txn s' = txn s.
Proof.
  intros Hmissing s'. split; [|done].
  simpl. destruct Hmissing as [-> | ->]; [done|].
  by destruct (team_mapping_by_api tm !! Json.home_team_id game).
Qed.

(** ** Entity resolution is idempotent *)

Section Upsert.
Context {row : Type} (key : row → option Z).

Lemma existsb_false_filter (p : row → bool) rows :
  existsb p rows = false → List.filter p rows = [].
Proof.
  induction rows as [|r rows IH]; simpl; [done|].
  destruct (p r); simpl; [done|exact IH].
Qed.

Lemma existsb_true_find (p : row → bool) rows :
  existsb p rows = true → ∃ r, List.find p rows = Some r.
Proof.
  induction rows as [|r rows IH]; simpl; [done|].
  destruct (p r); simpl; eauto.
Qed.

Lemma find_Some_existsb (p : row → bool) rows r :
  List.find p rows = Some r → existsb p rows = true.
Proof.
  induction rows as [|r' rows IH]; simpl; [done|].
  destruct (p r'); simpl; [done|exact IH].
Qed.

Lemma find_app_new (p : row → bool) rows r :
  existsb p rows = false → p r = true → List.find p (rows ++ [r]) = Some r.
Proof.
  intros Hn Hr. induction rows as [|r' rows IH]; simpl in *.
  - by rewrite Hr.
  - destruct (p r'); [done|auto].
Qed.

Lemma filter_app_new (p : row → bool) rows r :
  existsb p rows = false → p r = true → List.filter p (rows ++ [r]) = [r].
Proof.
  intros Hn Hr. rewrite List.filter_app, (existsb_false_filter _ _ Hn).
  simpl. by rewrite Hr.
Qed.

Lemma existsb_true_filter (p : row → bool) rows :
  existsb p rows = true → (1 ≤ length (List.filter p rows))%nat.
Proof.
  induction rows as [|r rows IH]; simpl; [done|].
  destruct (p r); simpl; [lia|exact IH].
Qed.
End Upsert.

Lemma sql_eq_refl e : sql_eq (Some e) (Some e) = true.
Proof. apply Z.eqb_refl. Qed.

(** Unfold the monad and the storage layer down to plain functions. *)
Ltac unfold_run :=
  unfold try_except_sqlite, try_except, execute_write, commit, execute_query,
    storage_fault, logging, modify, gets, raise, mbind, M_bind, mret, M_ret.

(** A resolver on a connection whose storage does not fail. *)
Lemma get_or_create_team_run a n v c s :
  faults s = [] →
  get_or_create_team a n v c s =
    let db := insert_or_ignore_team a n v c (txn s) in
    (match select_team_id a db with
     | Some team_id => Ok team_id
     | None => Raise RetrievalException
     end, set_db_file db (set_txn db s)).
Proof.
  intros Hf. unfold get_or_create_team. unfold_run.
  destruct s as [d tx rd hd fl lg ck]. simpl in *. subst fl.
  simpl. by destruct (select_team_id _ _).
Qed.

Lemma get_or_create_player_run a n t p s :
  faults s = [] →
  get_or_create_player a n t p s =
    let db := insert_or_ignore_player a n t p (txn s) in
    (match select_player_id a db with
     | Some player_id => Ok player_id
     | None => Raise RetrievalException
     end, set_db_file db (set_txn db s)).
Proof.
  intros Hf. unfold get_or_create_player. unfold_run.
  destruct s as [d tx rd hd fl lg ck]. simpl in *. subst fl.
  simpl. by destruct (select_player_id _ _).
Qed.

Lemma get_or_create_game_run a d l h w hs ws s :
  faults s = [] →
  get_or_create_game a d l h w hs ws s =
    let db := insert_or_ignore_game a d l h w hs ws (txn s) in
    (match select_game_id a db with
     | Some game_id => Ok game_id
     | None => Raise RetrievalException
     end, set_db_file db (set_txn db s)).
Proof.
  intros Hf. unfold get_or_create_game. unfold_run.
  destruct s as [dbf tx rd hd fl lg ck]. simpl in *. subst fl.
  simpl. by destruct (select_game_id _ _).
Qed.

(** The first insertion for [e] leaves one row keyed by [e] that the
    lookup finds; any later one changes no row. *)
Lemma insert_or_ignore_team_first e n v c db :
  (length (rows_with_key Team.api_team_id e (teams db)) ≤ 1)%nat →
  is_Some n ∨ (1 ≤ length (rows_with_key Team.api_team_id e (teams db)))%nat →
  let db' := insert_or_ignore_team (Some e) n v c db in
  is_Some (select_team_id (Some e) db') ∧
  length (rows_with_key Team.api_team_id e (teams db')) = 1%nat.
Proof.
  intros Hle Hn. unfold insert_or_ignore_team, select_team_id, rows_with_key in *.
  destruct (existsb (λ r, sql_eq (Team.api_team_id r) (Some e)) (teams db)) eqn:Hex.
  - destruct (existsb_true_find _ _ Hex) as [r Hr].
    pose proof (existsb_true_filter _ _ Hex).
    destruct n; simpl; rewrite ?Hex; simpl; rewrite Hr; split; (by eexists) || lia.
  - rewrite (existsb_false_filter _ _ Hex) in Hn. simpl in Hn.
    destruct Hn as [[n0 ->]|?]; [|lia]. simpl. rewrite Hex. simpl.
    rewrite find_app_new, filter_app_new by (done || apply sql_eq_refl).
    split; [by eexists|done].
Qed.

Lemma insert_or_ignore_team_again e n v c db :
  is_Some (select_team_id (Some e) db) →
  let db' := insert_or_ignore_team (Some e) n v c db in
  teams db' = teams db.
Proof.
  intros [id Hid]. unfold insert_or_ignore_team, select_team_id in *.
  destruct (List.find _ _) as [r|] eqn:Hfind; [|done].
  apply find_Some_existsb in Hfind. destruct n; [|done]. simpl. by rewrite Hfind.
Qed.

Lemma insert_or_ignore_player_first e n t p db :
  (length (rows_with_key Player.api_player_id e (players db)) ≤ 1)%nat →
  is_Some n ∨ (1 ≤ length (rows_with_key Player.api_player_id e (players db)))%nat →
  let db' := insert_or_ignore_player (Some e) n t p db in
  is_Some (select_player_id (Some e) db') ∧
  length (rows_with_key Player.api_player_id e (players db')) = 1%nat.
Proof.
  intros Hle Hn. unfold insert_or_ignore_player, select_player_id, rows_with_key in *.
  destruct (existsb (λ r, sql_eq (Player.api_player_id r) (Some e)) (players db)) eqn:Hex.
  - destruct (existsb_true_find _ _ Hex) as [r Hr].
    pose proof (existsb_true_filter _ _ Hex).
    destruct n; simpl; rewrite ?Hex; simpl; rewrite Hr; split; (by eexists) || lia.
  - rewrite (existsb_false_filter _ _ Hex) in Hn. simpl in Hn.
    destruct Hn as [[n0 ->]|?]; [|lia]. simpl. rewrite Hex. simpl.
    rewrite find_app_new, filter_app_new by (done || apply sql_eq_refl).
    split; [by eexists|done].
Qed.

Lemma insert_or_ignore_player_again e n t p db :
  is_Some (select_player_id (Some e) db) →
  let db' := insert_or_ignore_player (Some e) n t p db in
  players db' = players db.
Proof.
  intros [id Hid]. unfold insert_or_ignore_player, select_player_id in *.
  destruct (List.find _ _) as [r|] eqn:Hfind; [|done].
  apply find_Some_existsb in Hfind. destruct n; [|done]. simpl. by rewrite Hfind.
Qed.

Lemma insert_or_ignore_game_first e d l h w hs ws db :
  (length (rows_with_key Game.api_game_id e (games db)) ≤ 1)%nat →
  let db' := insert_or_ignore_game (Some e) d l h w hs ws db in
  is_Some (select_game_id (Some e) db') ∧
  length (rows_with_key Game.api_game_id e (games db')) = 1%nat.
Proof.
  intros Hle. unfold insert_or_ignore_game, select_game_id, rows_with_key in *.
  simpl. destruct (existsb _ (games db)) eqn:Hex; simpl.
  - destruct (existsb_true_find _ _ Hex) as [r ->].
    pose proof (existsb_true_filter _ _ Hex). split; [by eexists|lia].
  - rewrite find_app_new, filter_app_new by (done || apply sql_eq_refl).
    split; [by eexists|done].
Qed.

Lemma insert_or_ignore_game_again e d l h w hs ws db :
  is_Some (select_game_id (Some e) db) →
  let db' := insert_or_ignore_game (Some e) d l h w hs ws db in
  games db' = games db.
Proof.
  intros [id Hid]. unfold insert_or_ignore_game, select_game_id in *.
  destruct (List.find _ _) as [r|] eqn:Hfind; [|done].
  apply find_Some_existsb in Hfind. simpl. by rewrite Hfind.
Qed.

(** *** The UNIQUE constraints are an invariant of the pipeline *)

Lemma filter_app_other {row : Type} (p : row → bool) rows r :
  p r = false → List.filter p (rows ++ [r]) = List.filter p rows.
Proof.
  intros Hr. rewrite List.filter_app. simpl. rewrite Hr. apply app_nil_r.
Qed.

Lemma rows_with_key_app_new {row : Type} (key : row → option Z) rows r a e :
  key r = a →
  existsb (λ r, sql_eq (key r) a) rows = false →
  (length (rows_with_key key e rows) ≤ 1)%nat →
  (length (rows_with_key key e (rows ++ [r])) ≤ 1)%nat.
Proof.
  intros Hk Hnew Hle. unfold rows_with_key in *.
  destruct (sql_eq (key r) (Some e)) eqn:Heq.
  - rewrite filter_app_new; [done| |done].
    rewrite Hk in Heq. destruct a as [a|]; [|done].
    apply Z.eqb_eq in Heq as ->. exact Hnew.
  - by rewrite filter_app_other.
Qed.

Lemma insert_or_ignore_team_unique a n v c db :
  unique_keys db → unique_keys (insert_or_ignore_team a n v c db).
Proof.
  intros Hu e. destruct (Hu e) as (Ht & Hp & Hg).
  unfold insert_or_ignore_team. destruct n; simpl; [|done].
  destruct (existsb _ (teams db)) eqn:Hex; simpl; [done|].
  split; [|done]. by eapply rows_with_key_app_new.
Qed.

Lemma insert_or_ignore_player_unique a n t p db :
  unique_keys db → unique_keys (insert_or_ignore_player a n t p db).
Proof.
  intros Hu e. destruct (Hu e) as (Ht & Hp & Hg).
  unfold insert_or_ignore_player. destruct n; simpl; [|done].
  destruct (existsb _ (players db)) eqn:Hex; simpl; [done|].
  split; [done|]. split; [|done]. by eapply rows_with_key_app_new.
Qed.

Lemma insert_or_ignore_game_unique a d l h w hs ws db :
  unique_keys db → unique_keys (insert_or_ignore_game a d l h w hs ws db).
Proof.
  intros Hu e. destruct (Hu e) as (Ht & Hp & Hg).
  unfold insert_or_ignore_game. simpl.
  destruct (existsb _ (games db)) eqn:Hex; simpl; [done|].
  split; [done|]. split; [done|]. by eapply rows_with_key_app_new.
Qed.

Lemma executemany_unique d db :
  unique_keys db → unique_keys (executemany d db).
Proof.
  intros Hu e. destruct (executemany_frame d db) as (Ht & Hp & Hg & _).
  cbv zeta in *. rewrite Ht, Hp, Hg. apply Hu.
Qed.

Lemma insert_processed_file_unique f a b t db db' :
  insert_processed_file f a b t db = Some db' → unique_keys db → unique_keys db'.
Proof.
  unfold insert_processed_file. destruct (existsb _ _); [done|].
  by intros [= <-].
Qed.

(** Along any run of [main], whatever fails, a store that respects the
    UNIQUE constraints keeps respecting them. *)
Lemma main_keeps_unique_keys :
  preserves (λ s s', unique_keys (db_file s) ∧ unique_keys (txn s) →
                     unique_keys (db_file s') ∧ unique_keys (txn s')) main.
Proof.
  apply preserves_main; try done.
  - intros s1 s2 s3 H12 H23 H1. auto.
  - simpl. by intros s [? ?].
  - simpl. by intros s [? ?].
  - intros a n v c s [? ?]. split; [done|].
    by apply insert_or_ignore_team_unique.
  - intros a n t p s [? ?]. split; [done|].
    by apply insert_or_ignore_player_unique.
  - intros a d l h w hs ws s [? ?]. split; [done|].
    by apply insert_or_ignore_game_unique.
  - intros d s [? ?]. split; [done|].
    by apply executemany_unique.
  - intros f a b t s db' Hins [? Htxn]. split; [done|].
    by eapply insert_processed_file_unique.
Qed.


(** ** Resolution of the reference data is not one transaction *)

(** C3 fails on the code.  Every resolver commits its own insert, so the
    [with conn:] block has nothing left to roll back: when the second
    team's INSERT raises (the fifth storage operation of the run), the
    first team is already durable; and when a roster entry without a
    name makes the lookup raise, the team resolved before it stays. *)
Theorem resolution_not_atomic :
  let storage_error :=
    transform_and_load (os_path_join RAW_DIR Sample.token)
      (Sample.holding (Some Sample.two_teams) [false; false; false; false; true]) in
  let missing_name :=
    transform_and_load (os_path_join RAW_DIR Sample.token)
      (Sample.holding (Some Sample.nameless_player) []) in
  storage_error.1 = Raise SqliteError ∧
  teams (db_file storage_error.2) =
    [Team.Row 1 (Some 147) "Yankees" (Some "Yankee Stadium") (Some "Bronx")] ∧
  missing_name.1 = Raise RetrievalException ∧
  teams (db_file missing_name.2) =
    [Team.Row 1 (Some 147) "Yankees" (Some "Yankee Stadium") (Some "Bronx")] ∧
  players (db_file missing_name.2) = [].
Proof. vm_compute. by repeat split. Qed.

(** ** Overlap rejection when the ledger cannot be read *)

(** C4 as stated fails: the ledger holds 2024-04-01..2024-04-07, the
    file declares 2024-04-05..2024-04-10, the two overlap, and the
    overlap query raises.  The file is loaded, recorded and archived. *)
Lemma overlap_rejection_counterexample :
  let s := Sample.recorded [true] in
  let s' := (process_file Sample.token s).2 in
  endswith Sample.token ".json" = true ∧
  extract_date_range Sample.token = (Some "2024-04-05", Some "2024-04-10") ∧
  processed_files (db_file s) = [Sample.week_one] ∧
  overlaps "2024-04-05" "2024-04-10" "2024-04-01" "2024-04-07" = true ∧
  length (teams (db_file s')) = 2%nat ∧
  length (players (db_file s')) = 2%nat ∧
  length (games (db_file s')) = 1%nat ∧
  length (batter_stats (db_file s')) = 1%nat ∧
  length (pitcher_stats (db_file s')) = 1%nat ∧
  ProcessedFile.file_name <$> processed_files (db_file s') =
    [ProcessedFile.file_name Sample.week_one; Sample.token] ∧
  raw_dir s' !! Sample.token = None ∧
  historical_dir s' !! Sample.token = Some (Some Sample.doc).
Proof. vm_compute. by repeat split. Qed.

(** ** The theorems at the sample run *)

(** The matcher on the names that [re.match] was tried on. *)
Example extract_date_range_examples :
  extract_date_range "mlb_raw_2024-04-01_2024-04-07_x.json"
    = (Some "2024-04-01", Some "2024-04-07") ∧
  extract_date_range "mlb_raw_2024-04-01_2024-04-07_.json"
    = (Some "2024-04-01", Some "2024-04-07") ∧
  extract_date_range "mlb_raw_2024-04-01_2024-04-07.json" = (None, None) ∧
  extract_date_range "mlb_raw___1.json" = (None, None) ∧
  extract_date_range "mlb_raw_-_-_.jsonx" = (Some "-", Some "-") ∧
  extract_date_range ("mlb_raw_1_2_" +:+ String newline ".json") = (None, None) ∧
  extract_date_range "xmlb_raw_1_2_a.json" = (None, None) ∧
  extract_date_range "mlb_raw_1_2_a.json.json" = (Some "1", Some "2") ∧
  extract_date_range "mlb_raw_1_2_ajson" = (None, None).
Proof. by repeat split. Qed.

(** The normal case of the specification: AB=4, H=2, BB=1, TB=3 gives
    0.5, 0.6, 0.75 and 1.35, as binary64 numbers. *)
Example derive_rates_normal_case :
  derive_rates 4 2 1 0 0 3 =
    Ok (Rates (S754_finite false 4503599627370496 (-53))
              (S754_finite false 5404319552844595 (-53))
              (S754_finite false 6755399441055744 (-53))
              (S754_finite false 6079859496950170 (-52))).
Proof. reflexivity. Qed.

(** The end-to-end scenario: one snapshot with two teams, two players,
    a game, a batting line and a pitching line is loaded, recorded and
    archived; delivered again under the same name, it is skipped and the
    database stays as it is. *)
Example end_to_end_scenario :
  let db := db_file Sample.loaded in
  (length (teams db), length (players db), length (games db),
   length (batter_stats db), length (pitcher_stats db),
   length (processed_files db)) = (2, 2, 1, 1, 1, 1)%nat ∧
  raw_dir Sample.loaded = ∅ ∧
  historical_dir Sample.loaded !! Sample.token = Some (Some Sample.doc) ∧
  (main Sample.redelivered).1 = Ok () ∧
  db_file (main Sample.redelivered).2 = db ∧
  raw_dir (main Sample.redelivered).2 !! Sample.token = Some (Some Sample.doc).
Proof.
  cbv zeta. repeat (split; [vm_compute; reflexivity|]). vm_compute; reflexivity.
Qed.


Lemma overlaps_rule_symmetric_witness :
  (valid_date (2024, 4, 5) ∧ valid_date (2024, 4, 10) ∧
   valid_date (2024, 4, 1) ∧ valid_date (2024, 4, 7)) ∧
  (overlaps "2024-04-05" "2024-04-10" "2024-04-01" "2024-04-07" = true
   ↔ date_le (2024, 4, 5) (2024, 4, 7) ∧ date_le (2024, 4, 1) (2024, 4, 10)).
Proof.
  assert (H : ∀ y m d, 0 ≤ y < 10000 → 1 ≤ m ≤ 12 → 1 ≤ d ≤ 31 → valid_date (y, m, d))
    by (intros; unfold valid_date; lia).
  split.
  - unfold valid_date; lia.
  - apply (proj1 (proj2 overlaps_rule_symmetric)
             (2024, 4, 5) (2024, 4, 10) (2024, 4, 1) (2024, 4, 7));
      apply H; lia.
Defined.



Lemma overlapping_unit_skipped_witness :
  let s := Sample.recorded [] in
  let s' := add_log INFO
              (SkippingOverlap "2024-04-05" "2024-04-10" Sample.token) s in
  (endswith Sample.token ".json" = true ∧
   token_matches Sample.token "2024-04-05" "2024-04-10" ∧
   storage_ok s s ∧
   Sample.week_one ∈ processed_files (txn s) ∧
   overlaps "2024-04-05" "2024-04-10" "2024-04-01" "2024-04-07" = true) ∧
  process_file Sample.token s = (Ok (), s') ∧
  db_file s' = db_file s ∧ txn s' = txn s ∧
  raw_dir s' = raw_dir s ∧ historical_dir s' = historical_dir s.
Proof.
  assert (Hm : token_matches Sample.token "2024-04-05" "2024-04-10")
    by (apply extract_date_range_spec; reflexivity).
  assert (Hr : Sample.week_one ∈ processed_files (txn (Sample.recorded [])))
    by (apply list_elem_of_In; left; reflexivity).
  split; [by repeat split|].
  exact (overlapping_unit_skipped Sample.token "2024-04-05" "2024-04-10"
           (Sample.recorded []) (Sample.recorded []) Sample.week_one
           eq_refl Hm eq_refl Hr eq_refl).
Defined.


Lemma unresolved_game_skipped_witness :
  let tm := Sample.resolved_teams in
  let s := Sample.after_teams in
  let s' := add_log WARNING (MissingTeamMapping (Some 745001)) s in
  (team_mapping_by_api tm !! Json.home_team_id Sample.stray_game = None ∨
   team_mapping_by_api tm !! Json.away_team_id Sample.stray_game = None) ∧
  process_games [Sample.stray_game; Sample.known_game] tm ∅ s =
    process_games [Sample.known_game] tm ∅ s' ∧
  db_file s' = db_file s ∧ txn s' = txn s.
Proof.
  assert (H : team_mapping_by_api Sample.resolved_teams
                !! Json.home_team_id Sample.stray_game = None) by reflexivity.
  split; [by left|].
  exact (unresolved_game_skipped Sample.stray_game [Sample.known_game]
           Sample.resolved_teams ∅ Sample.after_teams (or_introl H)).
Defined.


Lemma reference_data_append_only_witness :
  let s := Sample.loaded in
  let s' := (get_or_create_player (Some 592450) (Some "A. Judge") (Some 2)
               (Some "DH") s).2 in
  (txn s = db_file s ∧
   Sample.judge ∈ players (db_file s) ∧
   Player.api_player_id Sample.judge = Some 592450) ∧
  players (db_file s') = players (db_file s) ∧
  players (txn s') = players (db_file s) ∧
  Sample.judge ∈ players (db_file s').
Proof.
  assert (Ht : txn Sample.loaded = db_file Sample.loaded) by (vm_compute; reflexivity).
  assert (Hr : Sample.judge ∈ players (db_file Sample.loaded))
    by (apply list_elem_of_In; vm_compute; left; reflexivity).
  split; [exact (conj Ht (conj Hr eq_refl))|].
  exact (proj2 reference_data_append_only Sample.loaded 592450 (Some "A. Judge")
           (Some 2) (Some "DH") Sample.judge Ht Hr eq_refl).
Defined.

Lemma overlap_check_fails_open_witness :
  let s := Sample.recorded [true] in
  let s0 := Sample.recorded [] in
  (endswith Sample.token ".json" = true ∧
   token_matches Sample.token "2024-04-05" "2024-04-10" ∧
   storage_fails s s0) ∧
  file_overlaps_processed "2024-04-05" "2024-04-10" s =
    (Ok false, add_log ERROR ErrorCheckingOverlap s0) ∧
  process_file Sample.token s =
    attempt Sample.token (Some ("2024-04-05", "2024-04-10"))
            (add_log ERROR ErrorCheckingOverlap s0).
Proof.
  assert (Hm : token_matches Sample.token "2024-04-05" "2024-04-10")
    by (apply extract_date_range_spec; reflexivity).
  split; [by repeat split|].
  exact (overlap_check_fails_open Sample.token "2024-04-05" "2024-04-10"
           (Sample.recorded [true]) (Sample.recorded []) eq_refl Hm eq_refl).
Defined.

(** * Further properties of the code *)

(** ** Source tokens *)


Lemma length_append (x y : string) :
  String.length (x +:+ y) = (String.length x + String.length y)%nat.
Proof. induction x as [|c x IH]; simpl; [done|by rewrite IH]. Qed.

Lemma substring_all (y : string) : substring 0 (String.length y) y = y.
Proof. induction y as [|c y IH]; simpl; [done|by rewrite IH]. Qed.

Lemma substring_append (x y : string) :
  substring (String.length x) (String.length y) (x +:+ y) = y.
Proof. induction x as [|c x IH]; simpl; [apply substring_all|exact IH]. Qed.

Lemma endswith_append (x suffix : string) : endswith (x +:+ suffix) suffix = true.
Proof.
  unfold endswith. rewrite length_append.
  replace (String.length x + String.length suffix - String.length suffix)%nat
    with (String.length x) by lia.
  rewrite substring_append, String.eqb_refl, andb_true_r.
  apply Nat.leb_le. lia.
Qed.

Lemma append_assoc (x y z : string) : (x +:+ y) +:+ z = x +:+ (y +:+ z).
Proof. induction x as [|c x IH]; simpl; [done|by rewrite IH]. Qed.

(** X2: a snapshot written by the extractor is found and parsed back by
    the loader: whenever the two date arguments are non-empty strings of
    digits and hyphens and the timestamp holds no newline, the file name
    passes the [.json] filter of [main] and [extract_date_range] returns
    the two dates it was built from. *)
Theorem extractor_filename_parsed_back (start_date end_date timestamp : string) :
  start_date ≠ "" → all_date_chars start_date = true →
  end_date ≠ "" → all_date_chars end_date = true →
  no_newline timestamp = true →
  endswith (Extract.filename start_date end_date timestamp) ".json" = true ∧
  extract_date_range (Extract.filename start_date end_date timestamp)
    = (Some start_date, Some end_date).
Proof.
  intros Hs Hds He Hde Hts. split.
  - unfold Extract.filename.
    rewrite <- !append_assoc. apply endswith_append.
  - apply extract_date_range_spec. exists timestamp, "".
    by repeat split.
Qed.

Lemma extractor_filename_parsed_back_witness :
  ("2024-04-05" ≠ "" ∧ all_date_chars "2024-04-05" = true ∧
   "2024-04-10" ≠ "" ∧ all_date_chars "2024-04-10" = true ∧
   no_newline "20240411_010203" = true) ∧
  endswith (Extract.filename "2024-04-05" "2024-04-10" "20240411_010203") ".json"
    = true ∧
  extract_date_range (Extract.filename "2024-04-05" "2024-04-10" "20240411_010203")
    = (Some "2024-04-05", Some "2024-04-10").
Proof.
  assert (H1 : "2024-04-05" ≠ "") by discriminate.
  assert (H2 : "2024-04-10" ≠ "") by discriminate.
  split; [exact (conj H1 (conj eq_refl (conj H2 (conj eq_refl eq_refl))))|].
  exact (extractor_filename_parsed_back "2024-04-05" "2024-04-10" "20240411_010203"
           H1 eq_refl H2 eq_refl eq_refl).
Defined.

(** ** The ledger *)

Lemma insert_processed_file_Some f a b t db db' :
  insert_processed_file f a b t db = Some db' →
  processed_files db' =
    (processed_files db ++
       [ProcessedFile.Row (seq_of "processed_files" db + 1) f a b t])%list ∧
  teams db' = teams db ∧ players db' = players db ∧ games db' = games db ∧
  batter_stats db' = batter_stats db ∧ pitcher_stats db' = pitcher_stats db.
Proof.
  unfold insert_processed_file. destruct (existsb _ _); [done|].
  by intros [= <-].
Qed.

(** A write to the ledger that returns has made its row durable. *)
Lemma record_file_processed_returns f a b s s1 :
  record_file_processed f a b s = (Ok (), s1) →
  ∃ db', insert_processed_file f a b (clock s) (txn s) = Some db' ∧
         db_file s1 = db' ∧ txn s1 = db' ∧ same_dirs s s1 ∧ clock s1 = clock s.
Proof.
  unfold record_file_processed. unfold_run.
  destruct s as [d tx rd hd fl lg ck]; simpl.
  destruct fl as [|[] fl]; simpl.
  - destruct (insert_processed_file f a b ck tx) as [db'|]; simpl; [|done].
    intros [= <-]. by exists db'.
  - done.
  - destruct (insert_processed_file f a b ck tx) as [db'|]; simpl; [|done].
    destruct fl as [|[] fl]; simpl; [|done|].
    all: intros [= <-]; by exists db'.
Qed.

(** X3: a range that [record_file_processed] has written is durable,
    the orchestrator's connection has nothing pending, and from then on
    [file_overlaps_processed] answers [True] for every range that
    overlaps it, whenever its query succeeds; for the recorded range
    itself that is the case exactly when its start is not after its
    end. *)
Theorem recorded_range_rejects_overlaps
    (filename start_date end_date : string) (s s1 : state) :
  record_file_processed filename start_date end_date s = (Ok (), s1) →
  (∃ id, processed_files (db_file s1) =
           (processed_files (txn s) ++
              [ProcessedFile.Row id filename start_date end_date (clock s)])%list)
  ∧ txn s1 = db_file s1
  ∧ (∀ new_start new_end s2,
       storage_ok s1 s2 →
       text_le new_start end_date → text_le start_date new_end →
       file_overlaps_processed new_start new_end s1 = (Ok true, s2))
  ∧ (∀ s2, storage_ok s1 s2 →
       (∀ r, r ∈ processed_files (txn s) →
             overlaps start_date end_date
               (ProcessedFile.start_date r) (ProcessedFile.end_date r) = false) →
       file_overlaps_processed start_date end_date s1 =
         (Ok (bool_decide (text_le start_date end_date)), s2)).
Proof.
  intros Hrec.
  destruct (record_file_processed_returns _ _ _ _ _ Hrec)
    as (db' & Hins & Hdb & Htx & _ & _).
  destruct (insert_processed_file_Some _ _ _ _ _ _ Hins) as (Hpf & _).
  split; [eexists; by rewrite Hdb, Hpf|].
  split; [congruence|].
  assert (Hfind : ∀ a' b' s2, storage_ok s1 s2 →
            file_overlaps_processed a' b' s1 =
              (Ok (bool_decide (select_overlapping a' b' db' ≠ None)), s2)).
  { intros a' b' s2 Hok. rewrite file_overlaps_processed_run.
    unfold storage_ok in Hok. rewrite Hok.
    destruct (storage_fault_frame _ _ _ Hok) as (_ & -> & _). by rewrite Htx. }
  split.
  - intros a' b' s2 Hok Hle1 Hle2. rewrite (Hfind _ _ _ Hok).
    rewrite bool_decide_eq_true_2; [done|].
    apply select_overlapping_spec. eexists. rewrite Hpf.
    split; [apply elem_of_app; right; apply list_elem_of_singleton; reflexivity|].
    simpl. unfold overlaps. apply andb_true_iff.
    split; [by apply sql_le_spec|by apply sql_ge_spec].
  - intros s2 Hok Hnone. rewrite (Hfind _ _ _ Hok). do 2 f_equal.
    apply bool_decide_ext. rewrite select_overlapping_spec, Hpf. split.
    + intros (r & [Hr|Hr]%elem_of_app & Hov).
      * by rewrite (Hnone r Hr) in Hov.
      * apply list_elem_of_singleton in Hr as ->. simpl in Hov.
        unfold overlaps in Hov. apply andb_true_iff in Hov as [Hov _].
        by apply sql_le_spec.
    + intros Hle. eexists.
      split; [apply elem_of_app; right; apply list_elem_of_singleton; reflexivity|].
      simpl. unfold overlaps. apply andb_true_iff.
      split; [by apply sql_le_spec|by apply sql_ge_spec].
Qed.

Lemma existsb_file_name f rows :
  existsb (λ r, String.eqb (ProcessedFile.file_name r) f) rows = true ↔
  ∃ r, r ∈ rows ∧ ProcessedFile.file_name r = f.
Proof.
  rewrite existsb_exists. split; intros (r & Hr & Hf); exists r.
  - split; [by apply list_elem_of_In|by apply String.eqb_eq].
  - split; [by apply list_elem_of_In|by apply String.eqb_eq].
Qed.

(** X4: [file_name] is UNIQUE in the ledger.  Recording a name the
    connection already sees always raises [sqlite3.Error], whatever the
    dates and whether or not the storage fails, and changes neither the
    durable database, nor the connection's view, nor the directories. *)
Theorem record_known_name_raises
    (filename start_date end_date : string) (s : state) (r : ProcessedFile.row) :
  r ∈ processed_files (txn s) →
  ProcessedFile.file_name r = filename →
  let s' := (record_file_processed filename start_date end_date s).2 in
  (record_file_processed filename start_date end_date s).1 = Raise SqliteError ∧
  db_file s' = db_file s ∧ txn s' = txn s ∧ same_dirs s s'.
Proof.
  intros Hr Hname.
  assert (Hins : insert_processed_file filename start_date end_date (clock s) (txn s)
                 = None).
  { unfold insert_processed_file.
    rewrite (proj2 (existsb_file_name filename (processed_files (txn s)))); [done|].
    by exists r. }
  unfold record_file_processed. unfold_run.
  destruct s as [d tx rd hd fl lg ck]; simpl in *.
  destruct fl as [|[] fl]; simpl; rewrite ?Hins; simpl; done.
Qed.

(** ** The batch loader *)

Lemma insert_batter_stats_rows data : ∀ db,
  BatterStat.cols <$> batter_stats (insert_batter_stats data db) =
    ((BatterStat.cols <$> batter_stats db) ++ data)%list ∧
  pitcher_stats (insert_batter_stats data db) = pitcher_stats db.
Proof.
  induction data as [|v data IH]; intros db; simpl.
  - by rewrite app_nil_r.
  - destruct (IH (set_batter_stats (batter_stats db ++ [BatterStat.Row
                    (seq_of "batter_stats" db + 1) v]) (bump_seq "batter_stats" db)))
      as [-> ->].
    simpl. by rewrite fmap_app, <- app_assoc.
Qed.

Lemma insert_pitcher_stats_rows data : ∀ db,
  PitcherStat.cols <$> pitcher_stats (insert_pitcher_stats data db) =
    ((PitcherStat.cols <$> pitcher_stats db) ++ data)%list ∧
  batter_stats (insert_pitcher_stats data db) = batter_stats db.
Proof.
  induction data as [|v data IH]; intros db; simpl.
  - by rewrite app_nil_r.
  - destruct (IH (set_pitcher_stats (pitcher_stats db ++ [PitcherStat.Row
                    (seq_of "pitcher_stats" db + 1) v]) (bump_seq "pitcher_stats" db)))
      as [-> ->].
    simpl. by rewrite fmap_app, <- app_assoc.
Qed.

(** What a batch insert does on a connection without pending work. *)
Lemma bulk_insert_stats_run d s :
  txn s = db_file s →
  let r := bulk_insert_stats d s in
  txn r.2 = db_file r.2 ∧ same_dirs s r.2 ∧
  ((r.1 = Ok () ∧ db_file r.2 = executemany d (db_file s)) ∨
   (r.1 = Raise SqliteError ∧ db_file r.2 = db_file s)).
Proof.
  unfold bulk_insert_stats. unfold_run.
  destruct s as [db tx rd hd fl lg ck]; simpl. intros ->.
  destruct fl as [|[] [|[] fl]]; simpl; repeat split; auto.
Qed.


(** ** Entities without an external id *)

Lemma find_sql_eq_None {row : Type} (key : row → option Z) (rows : list row) :
  List.find (λ r, sql_eq (key r) None) rows = None.
Proof.
  induction rows as [|r rows IH]; [done|]. simpl.
  by destruct (key r).
Qed.

Lemma existsb_sql_eq_None {row : Type} (key : row → option Z) (rows : list row) :
  existsb (λ r, sql_eq (key r) None) rows = false.
Proof.
  induction rows as [|r rows IH]; [done|]. simpl.
  by destruct (key r).
Qed.

Lemma select_None db :
  select_team_id None db = None ∧ select_player_id None db = None ∧
  select_game_id None db = None.
Proof.
  unfold select_team_id, select_player_id, select_game_id.
  by rewrite !find_sql_eq_None.
Qed.

(** With [None] for the external id a resolver never returns. *)
Lemma resolvers_need_id :
  (∀ n v c s id, (get_or_create_team None n v c s).1 ≠ Ok id) ∧
  (∀ n t p s id, (get_or_create_player None n t p s).1 ≠ Ok id) ∧
  (∀ d l h w hs ws s id, (get_or_create_game None d l h w hs ws s).1 ≠ Ok id).
Proof.
  split; [|split].
  - intros n v c s id. unfold get_or_create_team. unfold_run.
    destruct s as [db tx rd hd fl lg ck]; simpl.
    destruct fl as [|[] [|[] [|[] fl]]]; simpl;
      rewrite ?(proj1 (select_None _)); done.
  - intros n t p s id. unfold get_or_create_player. unfold_run.
    destruct s as [db tx rd hd fl lg ck]; simpl.
    destruct fl as [|[] [|[] [|[] fl]]]; simpl;
      rewrite ?(proj1 (proj2 (select_None _))); done.
  - intros d l h w hs ws s id. unfold get_or_create_game. unfold_run.
    destruct s as [db tx rd hd fl lg ck]; simpl.
    destruct fl as [|[] [|[] [|[] fl]]]; simpl;
      rewrite ?(proj2 (proj2 (select_None _))); done.
Qed.


(** ** The orchestrator *)

Lemma main_loop_returns fs : ∀ s, (main_loop fs s).1 = Ok ().
Proof.
  induction fs as [|f fs IH]; intros s; [done|].
  rewrite main_loop_step. apply IH.
Qed.

Lemma create_tables_run s :
  txn s = db_file s →
  let r := create_tables s in
  db_file r.2 = db_file s ∧ txn r.2 = db_file s ∧ same_dirs s r.2 ∧
  (r.1 = Ok () ∨ r.1 = Raise SqliteError).
Proof.
  unfold create_tables, rollback. unfold_run.
  destruct s as [db tx rd hd fl lg ck]; simpl. intros ->.
  destruct fl as [|[] [|[] [|[] fl]]]; simpl; repeat split; auto.
Qed.


(** ** One file of the intake directory *)

Lemma seq_run {A B : Type} (c : M A) (d : M B) s r s' :
  (c ;; d) s = (Ok r, s') → ∃ a sm, c s = (Ok a, sm) ∧ d sm = (Ok r, s').
Proof.
  rewrite bind_run. destruct (c s) as [[a|e] sm]; [|done]. by exists a, sm.
Qed.

(** A load leaves the connection without pending work, and returns only
    for a file of the directory that holds a document. *)
Lemma transform_and_load_settled p s :
  let r := transform_and_load p s in
  (txn s = db_file s → txn r.2 = db_file r.2) ∧
  (r.1 = Ok () →
   txn r.2 = db_file r.2 ∧ ∃ data, listing p.1 s !! p.2 = Some (Some data)).
Proof.
  unfold transform_and_load. rewrite bind_run. unfold json_load.
  destruct (listing p.1 s !! p.2) as [[data|]|]; [|done..].
  rewrite bind_run, create_connection_run.
  destruct (storage_fault_total s) as (b & s0 & Hs0). rewrite Hs0.
  destruct (storage_fault_frame _ _ _ Hs0) as (Hdb & Htx & _).
  destruct b; simpl; [split; [congruence|done]|].
  unfold try_finally, close, modify.
  match goal with
  | |- context [match ?x with (_, _) => _ end] => destruct x as [r' s'']
  end.
  simpl. split; [done|]. intros _. split; [done|by exists data].
Qed.

Lemma record_file_processed_settled f a b s :
  txn s = db_file s →
  txn (record_file_processed f a b s).2 = db_file (record_file_processed f a b s).2.
Proof.
  unfold record_file_processed. unfold_run.
  destruct s as [d tx rd hd fl lg ck]; simpl. intros ->.
  destruct fl as [|[] fl]; simpl; [|done|].
  all: destruct (insert_processed_file f a b ck d) as [db'|]; simpl; [|done].
  - done.
  - by destruct fl as [|[] fl].
Qed.

Lemma main_keeps_clock : preserves (λ s s', clock s' = clock s) main.
Proof. apply preserves_main; try done; intros; simpl in *; congruence. Qed.

Lemma transform_and_load_keeps_clock p :
  preserves (λ s s', clock s' = clock s) (transform_and_load p).
Proof. apply preserves_transform_and_load; try done; intros; simpl in *; congruence. Qed.

Lemma range_check_keeps_clock f a b :
  preserves (λ s s', clock s' = clock s) (range_check f a b).
Proof. apply preserves_range_check; try done; intros; simpl in *; congruence. Qed.

Lemma record_file_processed_same_dirs f a b :
  preserves same_dirs (record_file_processed f a b).
Proof.
  apply preserves_record_file_processed;
    eauto using same_dirs_refl, same_dirs_trans; by intros.
Qed.

(** A unit that loads and is recorded is archived. *)
Lemma loaded_unit_archived_run
    (filename : string) (start_date end_date : option string) (s s0 s1 : state) :
  endswith filename ".json" = true →
  extract_date_range filename = (start_date, end_date) →
  range_check filename start_date end_date s = (Ok false, s0) →
  (transform_and_load (os_path_join RAW_DIR filename) ;;
   match both start_date end_date with
   | Some (start_date, end_date) =>
       record_file_processed filename start_date end_date
   | None => mret ()
   end) (add_log INFO (ProcessingFile filename) s0) = (Ok (), s1) →
  ∃ data,
    raw_dir s !! filename = Some (Some data) ∧
    let s' := add_log INFO (MovedFile filename)
                (set_dirs (delete filename (raw_dir s))
                          (<[filename := Some data]> (historical_dir s)) s1) in
    process_file filename s = (Ok (), s') ∧
    raw_dir s' !! filename = None ∧
    historical_dir s' !! filename = Some (Some data) ∧
    match both start_date end_date with
    | Some (a, b) =>
        ∃ id, processed_files (db_file s') =
                (processed_files (db_file s) ++
                   [ProcessedFile.Row id filename a b (clock s)])%list
    | None => processed_files (db_file s') = processed_files (db_file s)
    end.
Proof.
  intros Hjson Hdates Hrange Hload.
  pose proof (range_check_frame filename start_date end_date s) as Hrc.
  pose proof (range_check_keeps_clock filename start_date end_date s) as Hck0.
  rewrite Hrange in Hrc, Hck0. simpl in Hrc, Hck0.
  destruct Hrc as (Hdb0 & _ & Hraw0 & Hhist0).
  destruct (seq_run _ _ _ _ _ Hload) as ([] & sm & Ht & Hrec).
  set (sp := add_log INFO (ProcessingFile filename) s0) in *.
  pose proof (transform_and_load_settled (os_path_join RAW_DIR filename) sp) as Hset.
  pose proof (transform_and_load_frame (os_path_join RAW_DIR filename) sp) as Hfr.
  pose proof (transform_and_load_keeps_clock (os_path_join RAW_DIR filename) sp) as Hck.
  rewrite Ht in Hset, Hfr, Hck. simpl in Hset, Hfr, Hck.
  destruct Hset as [_ Hset]. destruct (Hset eq_refl) as (Htxm & data & Hdata).
  destruct Hfr as (Hpfm & Hrawm & Hhistm).
  subst sp. simpl in Hpfm, Hrawm, Hhistm, Hck, Hdata.
  assert (Hs1 : raw_dir s1 = raw_dir s ∧ historical_dir s1 = historical_dir s ∧
            match both start_date end_date with
            | Some (a, b) =>
                ∃ id, processed_files (db_file s1) =
                        (processed_files (db_file s) ++
                           [ProcessedFile.Row id filename a b (clock s)])%list
            | None => processed_files (db_file s1) = processed_files (db_file s)
            end).
  { destruct (both start_date end_date) as [[a b]|].
    - destruct (record_file_processed_returns _ _ _ _ _ Hrec)
        as (db' & Hins & Hdb & _ & [Hr Hh] & _).
      destruct (insert_processed_file_Some _ _ _ _ _ _ Hins) as (Hpf & _).
      split; [congruence|]. split; [congruence|].
      eexists. by rewrite Hdb, Hpf, Htxm, Hpfm, Hck, Hdb0, Hck0.
    - injection Hrec as <-. split; [congruence|]. split; congruence. }
  destruct Hs1 as (Hraw1 & Hhist1 & Hpf1).
  exists data. split; [congruence|].
  split.
  { unfold process_file. rewrite Hjson, Hdates, bind_run, Hrange.
    rewrite load_and_archive_run, bind_run, Ht.
    rewrite bind_run, Hrec, bind_run.
    unfold shutil_move, os_path_join. simpl.
    rewrite Hraw1. rewrite Hraw0 in Hdata. rewrite Hdata.
    unfold logging, modify. simpl. by rewrite Hhist1. }
  split; [simpl; apply lookup_delete_eq|].
  split; [simpl; apply lookup_insert_eq|].
  exact Hpf1.
Qed.

(** X8: a unit that loads, and whose range is recorded when its name
    gives one, is archived.  For a [.json] file that passed the range
    check, if [transform_and_load] and the write to the ledger return,
    then the file was in the intake directory with a document, the move
    cannot fail, [process_file] ends with the file out of the intake
    directory and in the archive with the same content, and the durable
    ledger has gained exactly the row of the file, with the two dates of
    its name, or nothing when the name gives no dates. *)
Theorem loaded_unit_archived
    (filename : string) (start_date end_date : option string) (s s0 s1 : state) :
  endswith filename ".json" = true →
  extract_date_range filename = (start_date, end_date) →
  range_check filename start_date end_date s = (Ok false, s0) →
  (transform_and_load (os_path_join RAW_DIR filename) ;;
   match both start_date end_date with
   | Some (start_date, end_date) =>
       record_file_processed filename start_date end_date
   | None => mret ()
   end) (add_log INFO (ProcessingFile filename) s0) = (Ok (), s1) →
  ∃ data,
    raw_dir s !! filename = Some (Some data) ∧
    let s' := add_log INFO (MovedFile filename)
                (set_dirs (delete filename (raw_dir s))
                          (<[filename := Some data]> (historical_dir s)) s1) in
    process_file filename s = (Ok (), s') ∧
    raw_dir s' !! filename = None ∧
    historical_dir s' !! filename = Some (Some data) ∧
    match both start_date end_date with
    | Some (a, b) =>
        ∃ id, processed_files (db_file s') =
                (processed_files (db_file s) ++
                   [ProcessedFile.Row id filename a b (clock s)])%list
    | None => processed_files (db_file s') = processed_files (db_file s)
    end.
Proof. apply loaded_unit_archived_run. Qed.

(** ** The two directories *)

Lemma preserves_weaken {A : Type} (R R' : state → state → Prop) (c : M A) :
  (∀ s s', R s s' → R' s s') → preserves R c → preserves R' c.
Proof. intros HR Hc s. apply HR, Hc. Qed.

Lemma files_conserved_refl s : files_conserved s s.
Proof. intros f. destruct (raw_dir s !! f); auto. Qed.

Lemma files_conserved_trans s1 s2 s3 :
  files_conserved s1 s2 → files_conserved s2 s3 → files_conserved s1 s3.
Proof.
  intros H12 H23 f. specialize (H12 f). specialize (H23 f).
  destruct (raw_dir s1 !! f) as [c|].
  - destruct H12 as [H12|[H12 H12']]; rewrite H12 in H23; [done|].
    right. destruct H23 as [-> ->]. done.
  - destruct H12 as [H12 H12']. rewrite H12 in H23.
    destruct H23 as [-> ->]. done.
Qed.

Lemma same_dirs_conserved s s' : same_dirs s s' → files_conserved s s'.
Proof.
  intros [Hr Hh] f. rewrite Hr, Hh. destruct (raw_dir s !! f); auto.
Qed.

(** The move of the orchestrator: from the intake directory to the
    archive, under the same name. *)
Lemma shutil_move_conserved f :
  preserves files_conserved
    (shutil_move (os_path_join RAW_DIR f) (os_path_join HISTORICAL_DIR f)).
Proof.
  intros s. unfold shutil_move, os_path_join. simpl.
  destruct (raw_dir s !! f) as [c|] eqn:Hf; simpl; [|apply files_conserved_refl].
  intros g. simpl. destruct (decide (g = f)) as [->|Hne].
  - rewrite Hf, lookup_delete_eq, lookup_insert_eq. by right.
  - rewrite lookup_delete_ne, lookup_insert_ne by done.
    destruct (raw_dir s !! g); auto.
Qed.

Lemma load_and_archive_conserved f a b :
  preserves files_conserved (load_and_archive f a b).
Proof.
  pose proof files_conserved_trans as Ht.
  assert (Hlog : ∀ l m, preserves files_conserved (logging l m)).
  { intros l m s. by apply same_dirs_conserved. }
  unfold load_and_archive.
  apply preserves_bind; [done|apply Hlog|intros _].
  apply preserves_try_except; [done| |intros e; apply Hlog].
  apply preserves_bind; [done| |intros _].
  { apply (preserves_weaken same_dirs); [apply same_dirs_conserved|].
    apply transform_and_load_same_dirs. }
  apply preserves_bind; [done| |intros _].
  { destruct (both a b) as [[sd ed]|].
    - apply (preserves_weaken same_dirs); [apply same_dirs_conserved|].
      apply record_file_processed_same_dirs.
    - intros s. apply files_conserved_refl. }
  apply preserves_bind; [done|apply shutil_move_conserved|intros _; apply Hlog].
Qed.

Lemma process_file_conserved f : preserves files_conserved (process_file f).
Proof.
  unfold process_file.
  destruct (endswith f ".json"); [|intros s; apply files_conserved_refl].
  destruct (extract_date_range f) as [a b].
  apply preserves_bind; [apply files_conserved_trans| |intros [|]].
  - intros s. apply same_dirs_conserved, range_check_frame.
  - intros s. apply files_conserved_refl.
  - apply load_and_archive_conserved.
Qed.

Lemma main_loop_conserved fs : preserves files_conserved (main_loop fs).
Proof.
  induction fs as [|f fs IH]; [intros s; apply files_conserved_refl|].
  simpl. apply preserves_bind; [apply files_conserved_trans| |done].
  apply process_file_conserved.
Qed.

(** X9: [main] loses no intake file, whatever fails.  After any run a
    file that was in the intake directory is still there with its
    content, or is in the archive with its content; no file appears in
    the intake directory; and the archive is changed only under the
    names of the files that were moved. *)
Theorem main_conserves_files (s : state) : files_conserved s (main s).2.
Proof.
  revert s. change (preserves files_conserved main).
  pose proof files_conserved_trans as Ht.
  assert (Hsame : ∀ A (c : M A), preserves same_dirs c → preserves files_conserved c).
  { intros A c. apply preserves_weaken, same_dirs_conserved. }
  unfold main.
  apply preserves_bind; [done| |intros _].
  { apply Hsame, preserves_create_connection;
      eauto using same_dirs_refl, same_dirs_trans; by intros. }
  apply preserves_bind; [done| |intros _].
  { apply Hsame, preserves_create_tables;
      eauto using same_dirs_refl, same_dirs_trans; by intros. }
  apply preserves_bind; [done| |intros fs].
  { intros s. apply files_conserved_refl. }
  apply preserves_bind; [done|apply main_loop_conserved|intros _].
  intros s. by apply same_dirs_conserved.
Qed.

(** ** The ranges of the ledger *)

Lemma overlaps_sym s1 e1 s2 e2 : overlaps s1 e1 s2 e2 = overlaps s2 e2 s1 e1.
Proof. unfold overlaps. rewrite !sql_ge_le. apply andb_comm. Qed.

Lemma ranges_disjoint_snoc rows r :
  ranges_disjoint rows →
  (∀ r', r' ∈ rows →
         overlaps (ProcessedFile.start_date r) (ProcessedFile.end_date r)
           (ProcessedFile.start_date r') (ProcessedFile.end_date r') = false) →
  ranges_disjoint (rows ++ [r]).
Proof.
  intros Hrows Hnew i j r1 r2 Hij H1 H2.
  apply lookup_app_Some in H1 as [H1|[Hi H1]];
    apply lookup_app_Some in H2 as [H2|[Hj H2]].
  - by apply (Hrows i j).
  - apply list_lookup_singleton_Some in H2 as [_ <-].
    rewrite overlaps_sym. apply Hnew. by eapply list_elem_of_lookup_2.
  - apply list_lookup_singleton_Some in H1 as [_ <-].
    apply Hnew. by eapply list_elem_of_lookup_2.
  - apply list_lookup_singleton_Some in H1 as [Hi' _].
    apply list_lookup_singleton_Some in H2 as [Hj' _]. lia.
Qed.

(** The log only grows. *)
Lemma process_file_log_grows f :
  preserves (λ s s', log s `prefix_of` log s') (process_file f).
Proof.
  apply preserves_process_file; try done.
  - intros s1 s2 s3. apply transitivity.
  - intros l m s. by apply prefix_app_r.
Qed.

Lemma load_and_archive_log_grows f a b :
  preserves (λ s s', log s `prefix_of` log s') (load_and_archive f a b).
Proof.
  apply preserves_load_and_archive; try done.
  - intros s1 s2 s3. apply transitivity.
  - intros l m s. by apply prefix_app_r.
Qed.

Lemma overlap_check_failed_grows s s' :
  log s `prefix_of` log s' → overlap_check_failed s → overlap_check_failed s'.
Proof.
  unfold overlap_check_failed. intros [k ->] H. apply elem_of_app. by left.
Qed.

(** Archiving touches neither the database nor the connection. *)
Lemma archive_keeps_database f l m :
  preserves (λ s s', db_file s' = db_file s ∧ txn s' = txn s)
    (shutil_move (os_path_join RAW_DIR f) (os_path_join HISTORICAL_DIR f) ;;
     logging l m).
Proof.
  assert (Ht : ∀ s1 s2 s3 : state,
            db_file s2 = db_file s1 ∧ txn s2 = txn s1 →
            db_file s3 = db_file s2 ∧ txn s3 = txn s2 →
            db_file s3 = db_file s1 ∧ txn s3 = txn s1).
  { intros s1 s2 s3 [? ?] [? ?]. split; congruence. }
  apply preserves_bind; [done| |intros _].
  - by apply preserves_shutil_move.
  - by apply preserves_logging.
Qed.

(** What one attempt does to the ledger. *)
Lemma load_and_archive_ledger f a b s :
  txn s = db_file s →
  let s' := (load_and_archive f a b s).2 in
  txn s' = db_file s' ∧
  (processed_files (db_file s') = processed_files (db_file s) ∨
   ∃ sd ed id t,
     both a b = Some (sd, ed) ∧
     processed_files (db_file s') =
       (processed_files (db_file s) ++ [ProcessedFile.Row id f sd ed t])%list).
Proof.
  intros Htx. cbv zeta. rewrite load_and_archive_run.
  set (sp := add_log INFO (ProcessingFile f) s).
  assert (Htxp : txn sp = db_file sp) by done.
  pose proof (transform_and_load_settled (os_path_join RAW_DIR f) sp) as [Hset _].
  pose proof (transform_and_load_frame (os_path_join RAW_DIR f) sp) as [Hpf _].
  specialize (Hset Htxp). rewrite bind_run.
  destruct (transform_and_load (os_path_join RAW_DIR f) sp) as [[[]|e] sm];
    simpl in Hset, Hpf; [|by split; [|left]].
  rewrite bind_run.
  destruct (both a b) as [[sd ed]|].
  - pose proof (record_file_processed_settled f sd ed sm Hset) as Hset1.
    destruct (record_file_processed f sd ed sm) as [[[]|e] s1] eqn:Hrec;
      simpl in Hset1.
    + destruct (record_file_processed_returns _ _ _ _ _ Hrec)
        as (db' & Hins & Hdb & _).
      destruct (insert_processed_file_Some _ _ _ _ _ _ Hins) as (Hpf1 & _).
      pose proof (archive_keeps_database f INFO (MovedFile f) s1) as [Hd Ht].
      destruct ((shutil_move _ _ ;; logging _ _) s1) as [[[]|e] s2];
        simpl in Hd, Ht |- *.
      all: split; [congruence|].
      all: right; exists sd, ed; do 2 eexists; split; [done|].
      all: by rewrite Hd, Hdb, Hpf1, Hset, Hpf.
    + apply record_file_processed_raises in Hrec as [Hdb _].
      simpl. split; [done|]. left. by rewrite Hdb.
  - simpl.
    pose proof (archive_keeps_database f INFO (MovedFile f) sm) as [Hd Ht].
    destruct ((shutil_move _ _ ;; logging _ _) sm) as [[[]|e] s2];
      simpl in Hd, Ht |- *.
    all: split; [congruence|]. all: left; congruence.
Qed.

(** What [process_file] does to the ledger: nothing, or one row for
    the file, after a check that found no overlapping row or failed. *)
Lemma process_file_ledger f s :
  txn s = db_file s →
  let s' := (process_file f s).2 in
  txn s' = db_file s' ∧
  (processed_files (db_file s') = processed_files (db_file s) ∨
   ∃ sd ed id t,
     extract_date_range f = (Some sd, Some ed) ∧
     processed_files (db_file s') =
       (processed_files (db_file s) ++ [ProcessedFile.Row id f sd ed t])%list ∧
     (overlap_check_failed s' ∨
      ∀ r, r ∈ processed_files (db_file s) →
           overlaps sd ed (ProcessedFile.start_date r) (ProcessedFile.end_date r)
             = false)).
Proof.
  intros Htx. cbv zeta. unfold process_file.
  destruct (endswith f ".json"); [|by split; [|left]].
  destruct (extract_date_range_cases f) as [Hex|(a & b & Hex & Hboth)]; rewrite Hex.
  - rewrite bind_run, range_check_run. simpl.
    set (s0 := add_log WARNING (FilenameDoesNotMatch f) s).
    destruct (load_and_archive_ledger f None None s0 Htx) as [Hs [Hl|Hl]].
    + by split; [|left].
    + by destruct Hl as (? & ? & ? & ? & ? & _).
  - rewrite bind_run, range_check_run, Hboth.
    destruct (storage_fault_total s) as (b0 & s0 & Hs0). rewrite Hs0.
    destruct (storage_fault_frame _ _ _ Hs0) as (Hdb0 & Htx0 & _).
    assert (Hboth' : ∀ sd ed, both (Some a) (Some b) = Some (sd, ed) →
              sd = a ∧ ed = b).
    { intros sd ed. rewrite Hboth. by intros [= <- <-]. }
    destruct b0.
    + set (s1 := add_log ERROR ErrorCheckingOverlap s0).
      assert (Htx1 : txn s1 = db_file s1) by (simpl; congruence).
      destruct (load_and_archive_ledger f (Some a) (Some b) s1 Htx1) as [Hs Hl].
      split; [done|]. destruct Hl as [Hl|(sd & ed & id & t & Hb & Hl)].
      * left. by rewrite Hl, <- Hdb0.
      * right. destruct (Hboth' _ _ Hb) as [-> ->]. exists a, b, id, t.
        split; [done|]. split; [by rewrite Hl, <- Hdb0|]. left.
        eapply overlap_check_failed_grows; [apply load_and_archive_log_grows|].
        unfold overlap_check_failed. simpl. apply elem_of_app. right.
        by apply list_elem_of_singleton.
    + destruct (bool_decide _) eqn:Hfind.
      * simpl. split; [congruence|]. left. congruence.
      * apply bool_decide_eq_false in Hfind.
        assert (Htx1 : txn s0 = db_file s0) by congruence.
        destruct (load_and_archive_ledger f (Some a) (Some b) s0 Htx1) as [Hs Hl].
        split; [done|]. destruct Hl as [Hl|(sd & ed & id & t & Hb & Hl)].
        -- left. by rewrite Hl, <- Hdb0.
        -- right. destruct (Hboth' _ _ Hb) as [-> ->]. exists a, b, id, t.
           split; [done|]. split; [by rewrite Hl, <- Hdb0|]. right.
           intros r Hr.
           destruct (overlaps a b _ _) eqn:Hov; [|done].
           exfalso. apply Hfind. intros Hnone.
           apply (proj2 (select_overlapping_spec a b (txn s0))); [|done].
           exists r. split; [|done]. by rewrite Htx0, Htx.
Qed.

Lemma main_loop_keeps_ranges_disjoint fs : ∀ s,
  txn s = db_file s →
  ranges_disjoint (processed_files (db_file s)) ∨ overlap_check_failed s →
  let s' := (main_loop fs s).2 in
  ranges_disjoint (processed_files (db_file s')) ∨ overlap_check_failed s'.
Proof.
  induction fs as [|f fs IH]; intros s Htx Hinv; [done|].
  cbv zeta. rewrite main_loop_step.
  destruct (process_file_ledger f s Htx) as [Htx' Hl].
  apply IH; [done|].
  destruct Hinv as [Hdis|Hfail].
  - destruct Hl as [->|(sd & ed & id & t & _ & -> & [Hfail|Hnone])]; auto.
    left. by apply ranges_disjoint_snoc.
  - right. eapply overlap_check_failed_grows; [apply process_file_log_grows|done].
Qed.

(** X10: the overlap check keeps the recorded ranges pairwise disjoint.
    If no two rows of the durable ledger overlap before a run of [main]
    and the log of the run shows no failed overlap query, then no two
    rows of the ledger overlap after it, whatever else failed. *)
Theorem main_keeps_ranges_disjoint (s : state) :
  ranges_disjoint (processed_files (db_file s)) →
  ¬ overlap_check_failed (main s).2 →
  ranges_disjoint (processed_files (db_file (main s).2)).
Proof.
  intros Hdis Hlog.
  cut (ranges_disjoint (processed_files (db_file (main s).2)) ∨
       overlap_check_failed (main s).2); [by intros [?|?]|].
  clear Hlog. unfold main. rewrite bind_run, create_connection_run.
  destruct (storage_fault_total s) as (b & s0 & Hs0). rewrite Hs0.
  destruct (storage_fault_frame _ _ _ Hs0) as (Hdb & _).
  destruct b; [left; simpl; by rewrite Hdb|].
  set (s1 := add_log INFO ConnectionEstablished (set_txn (db_file s0) s0)).
  destruct (create_tables_run s1 eq_refl) as (Hdb1 & Htx1 & _ & _).
  rewrite bind_run.
  destruct (create_tables s1) as [[[]|e] s2]; simpl in Hdb1, Htx1;
    [|left; simpl; by rewrite Hdb1, Hdb].
  rewrite bind_run. unfold os_listdir, gets. simpl. rewrite bind_run.
  assert (Htx2 : txn s2 = db_file s2) by congruence.
  assert (Hinv : ranges_disjoint (processed_files (db_file s2)) ∨
                 overlap_check_failed s2).
  { left. by rewrite Hdb1, Hdb. }
  pose proof (main_loop_keeps_ranges_disjoint
                (map_to_list (raw_dir s2)).*1 s2 Htx2 Hinv) as Hloop.
  destruct (main_loop _ s2) as [[[]|e] s3]; exact Hloop.
Qed.

(** ** Referential integrity *)

Lemma has_team_mono id : monotone (λ db, has_team db id).
Proof.
  intros db db' (Ht & _ & _) (r & Hr & Hid). exists r.
  split; [by eapply elem_of_prefix|done].
Qed.

Lemma has_player_mono id : monotone (λ db, has_player db id).
Proof.
  intros db db' (_ & Hp & _) (r & Hr & Hid). exists r.
  split; [by eapply elem_of_prefix|done].
Qed.

Lemma has_game_mono id : monotone (λ db, has_game db id).
Proof.
  intros db db' (_ & _ & Hg) (r & Hr & Hid). exists r.
  split; [by eapply elem_of_prefix|done].
Qed.

Lemma team_row_mono k id : monotone (λ db, team_row db k id).
Proof.
  intros db db' (Ht & _ & _) (r & Hr & Hid). exists r.
  split; [by eapply elem_of_prefix|done].
Qed.

Lemma player_row_mono k id : monotone (λ db, player_row db k id).
Proof.
  intros db db' (_ & Hp & _) (r & Hr & Hid). exists r.
  split; [by eapply elem_of_prefix|done].
Qed.

Lemma game_row_mono k id : monotone (λ db, game_row db k id).
Proof.
  intros db db' (_ & _ & Hg) (r & Hr & Hid). exists r.
  split; [by eapply elem_of_prefix|done].
Qed.

Lemma team_row_has db k id : team_row db k id → has_team db id.
Proof. intros (r & ? & ? & _). by exists r. Qed.

Lemma player_row_has db k id : player_row db k id → has_player db id.
Proof. intros (r & ? & ? & _). by exists r. Qed.

Lemma game_row_has db k id : game_row db k id → has_game db id.
Proof. intros (r & ? & ? & _). by exists r. Qed.

Lemma map_Forall_mono `{Countable K} (P : database → K → Z → Prop) (m : gmap K Z) :
  (∀ k id, monotone (λ db, P db k id)) → monotone (λ db, map_Forall (P db) m).
Proof.
  intros HP db db' Hkept Hm k v Hk. eapply HP; [done|]. by eapply Hm.
Qed.

Lemma team_mappings_exist_mono tm : monotone (team_mappings_exist tm).
Proof.
  intros db db' Hkept [Ha Hn]. split.
  - eapply (map_Forall_mono team_row); eauto using team_row_mono.
  - eapply (map_Forall_mono (λ db _, has_team db)); eauto using has_team_mono.
Qed.

Lemma player_mapping_mono (pm : gmap (option Z) Z) :
  monotone (λ db, map_Forall (player_row db) pm).
Proof. apply (map_Forall_mono player_row), player_row_mono. Qed.

Lemma game_mapping_mono (gm : gmap (option Z) Z) :
  monotone (λ db, map_Forall (game_row db) gm).
Proof. apply (map_Forall_mono game_row), game_row_mono. Qed.

Lemma monotone_and F G : monotone F → monotone G → monotone (λ db, F db ∧ G db).
Proof. intros HF HG db db' Hk [? ?]. split; [by eapply HF|by eapply HG]. Qed.

Lemma monotone_True : monotone (λ _, True).
Proof. done. Qed.

(** More rows, each new one with its references in place. *)
Lemma foreign_keys_hold_grow db db' :
  reference_rows_kept db db' →
  (∀ r, r ∈ players db' →
        r ∈ players db ∨ ∀ t, Player.team_id r = Some t → has_team db' t) →
  (∀ r, r ∈ games db' →
        r ∈ games db ∨
        ∀ t, Game.home_team_id r = Some t ∨ Game.away_team_id r = Some t →
             has_team db' t) →
  (∀ r, r ∈ batter_stats db' →
        (∃ r0, r0 ∈ batter_stats db ∧ BatterStat.cols r0 = BatterStat.cols r) ∨
        (has_game db' (BatterStat.game_id (BatterStat.cols r)) ∧
         has_player db' (BatterStat.player_id (BatterStat.cols r)))) →
  (∀ r, r ∈ pitcher_stats db' →
        (∃ r0, r0 ∈ pitcher_stats db ∧ PitcherStat.cols r0 = PitcherStat.cols r) ∨
        (has_game db' (PitcherStat.game_id (PitcherStat.cols r)) ∧
         has_player db' (PitcherStat.player_id (PitcherStat.cols r)))) →
  foreign_keys_hold db → foreign_keys_hold db'.
Proof.
  intros Hk Hp Hg Hb Hpi (Fp & Fg & Fb & Fpi).
  split; [|split; [|split]].
  - intros r t Hr Ht. destruct (Hp r Hr) as [Hold|Hnew]; [|by apply Hnew].
    eapply has_team_mono; [done|]. by eapply Fp.
  - intros r t Hr Ht. destruct (Hg r Hr) as [Hold|Hnew]; [|by apply Hnew].
    eapply has_team_mono; [done|]. by eapply Fg.
  - intros r Hr. destruct (Hb r Hr) as [(r0 & Hr0 & <-)|Hnew]; [|done].
    destruct (Fb r0 Hr0). split.
    + by eapply has_game_mono.
    + by eapply has_player_mono.
  - intros r Hr. destruct (Hpi r Hr) as [(r0 & Hr0 & <-)|Hnew]; [|done].
    destruct (Fpi r0 Hr0). split.
    + by eapply has_game_mono.
    + by eapply has_player_mono.
Qed.

Lemma insert_or_ignore_team_keys a n v c db :
  foreign_keys_hold db → foreign_keys_hold (insert_or_ignore_team a n v c db).
Proof.
  apply foreign_keys_hold_grow; [apply insert_or_ignore_team_kept|..].
  all: unfold insert_or_ignore_team; destruct n; simpl;
    [destruct (existsb _ _); simpl|]; intros r Hr; eauto.
Qed.

Lemma insert_or_ignore_player_keys a n t p db :
  (∀ id, t = Some id → has_team db id) →
  foreign_keys_hold db → foreign_keys_hold (insert_or_ignore_player a n t p db).
Proof.
  intros Ht.
  apply foreign_keys_hold_grow; [apply insert_or_ignore_player_kept|..].
  all: unfold insert_or_ignore_player; destruct n; simpl;
    [destruct (existsb _ _); simpl|]; intros r Hr; eauto.
  apply elem_of_app in Hr as [Hr|Hr]; [by left|right].
  apply list_elem_of_singleton in Hr as ->. exact Ht.
Qed.

Lemma insert_or_ignore_game_keys a d l h w hs ws db :
  (∀ id, h = Some id ∨ w = Some id → has_team db id) →
  foreign_keys_hold db →
  foreign_keys_hold (insert_or_ignore_game a d l h w hs ws db).
Proof.
  intros Ht.
  apply foreign_keys_hold_grow; [apply insert_or_ignore_game_kept|..].
  all: unfold insert_or_ignore_game; simpl;
    destruct (existsb _ _); simpl; intros r Hr; eauto.
  apply elem_of_app in Hr as [Hr|Hr]; [by left|right].
  apply list_elem_of_singleton in Hr as ->. exact Ht.
Qed.

Lemma executemany_keys d db :
  stat_ids_exist d db →
  foreign_keys_hold db → foreign_keys_hold (executemany d db).
Proof.
  intros Hd.
  pose proof (executemany_frame d db) as (Ht & Hp & Hg & _).
  assert (Hhas : ∀ id, (has_game db id → has_game (executemany d db) id) ∧
                       (has_player db id → has_player (executemany d db) id)).
  { intros id. unfold has_game, has_player. by rewrite Hp, Hg. }
  apply foreign_keys_hold_grow; [apply executemany_kept|..].
  - intros r. rewrite Hp. by left.
  - intros r. rewrite Hg. by left.
  - intros r Hr. destruct d as [data|data]; simpl in *.
    + destruct (insert_batter_stats_rows data db) as [Hrows _].
      apply (list_elem_of_fmap_2 BatterStat.cols) in Hr.
      rewrite Hrows in Hr. apply elem_of_app in Hr as [Hr|Hr].
      * left. apply list_elem_of_fmap_1 in Hr as (r0 & ? & ?). by exists r0.
      * right. destruct (Hd _ Hr). split; by apply Hhas.
    + destruct (insert_pitcher_stats_rows data db) as [_ Hrows].
      rewrite Hrows in Hr. left. by exists r.
  - intros r Hr. destruct d as [data|data]; simpl in *.
    + destruct (insert_batter_stats_rows data db) as [_ Hrows].
      rewrite Hrows in Hr. left. by exists r.
    + destruct (insert_pitcher_stats_rows data db) as [Hrows _].
      apply (list_elem_of_fmap_2 PitcherStat.cols) in Hr.
      rewrite Hrows in Hr. apply elem_of_app in Hr as [Hr|Hr].
      * left. apply list_elem_of_fmap_1 in Hr as (r0 & ? & ?). by exists r0.
      * right. destruct (Hd _ Hr). split; by apply Hhas.
Qed.

Lemma sql_eq_true col param : sql_eq col param = true → col = param.
Proof.
  destruct col as [x|], param as [y|]; simpl; try done.
  by intros ->%Z.eqb_eq.
Qed.

Lemma select_team_id_row a db id : select_team_id a db = Some id → team_row db a id.
Proof.
  unfold select_team_id. destruct (List.find _ _) as [r|] eqn:Hf; [|done].
  intros [= <-]. exists r. destruct (find_some _ _ Hf) as [Hin Heq].
  split; [by apply list_elem_of_In|]. split; [done|by apply sql_eq_true].
Qed.

Lemma select_player_id_row a db id :
  select_player_id a db = Some id → player_row db a id.
Proof.
  unfold select_player_id. destruct (List.find _ _) as [r|] eqn:Hf; [|done].
  intros [= <-]. exists r. destruct (find_some _ _ Hf) as [Hin Heq].
  split; [by apply list_elem_of_In|]. split; [done|by apply sql_eq_true].
Qed.

Lemma select_game_id_row a db id : select_game_id a db = Some id → game_row db a id.
Proof.
  unfold select_game_id. destruct (List.find _ _) as [r|] eqn:Hf; [|done].
  intros [= <-]. exists r. destruct (find_some _ _ Hf) as [Hin Heq].
  split; [by apply list_elem_of_In|]. split; [done|by apply sql_eq_true].
Qed.

(** *** The rules *)

Lemma integrity_kept_refl s : txn s = db_file s → integrity_kept s s.
Proof. intros Htx. split; [done|]. split; [apply reference_rows_kept_refl|done]. Qed.

Lemma integrity_kept_trans s1 s2 s3 :
  integrity_kept s1 s2 → integrity_kept s2 s3 → integrity_kept s1 s3.
Proof.
  intros (_ & Hk12 & Hf12) (Htx & Hk23 & Hf23).
  split; [done|]. split; [by eapply reference_rows_kept_trans|auto].
Qed.

Lemma integrity_kept_same s s' :
  db_file s' = db_file s → txn s' = db_file s → integrity_kept s s'.
Proof.
  intros Hdb Htx. split; [congruence|]. rewrite Hdb.
  split; [apply reference_rows_kept_refl|done].
Qed.

Lemma integrity_kept_write s s' :
  txn s' = db_file s' →
  reference_rows_kept (db_file s) (db_file s') →
  (foreign_keys_hold (db_file s) → foreign_keys_hold (db_file s')) →
  integrity_kept s s'.
Proof. intros. by split; [|split]. Qed.

Lemma hoare_ret {A : Type} (a : A) Q : hoare (Q a) (mret a) Q.
Proof.
  intros s Htx HP. split; [by apply integrity_kept_refl|]. by intros ? [= <-].
Qed.

Lemma hoare_raise {A : Type} P e Q : hoare P (@raise A e) Q.
Proof. intros s Htx HP. split; [by apply integrity_kept_refl|done]. Qed.

Lemma hoare_conseq {A : Type} (P P' : database → Prop) (c : M A)
    (Q Q' : A → database → Prop) :
  (∀ db, P' db → P db) → (∀ a db, Q a db → Q' a db) →
  hoare P c Q → hoare P' c Q'.
Proof.
  intros HP HQ Hc s Htx HP'. destruct (Hc s Htx (HP _ HP')) as [Hk Hq].
  split; [done|]. intros a Ha. by apply HQ, Hq.
Qed.

Lemma hoare_frame {A : Type} F (P : database → Prop) (c : M A) Q :
  monotone F → hoare P c Q → hoare (λ db, P db ∧ F db) c (λ a db, Q a db ∧ F db).
Proof.
  intros HF Hc s Htx [HP HFs]. destruct (Hc s Htx HP) as [Hk Hq].
  split; [done|]. intros a Ha. split; [by apply Hq|].
  destruct Hk as (_ & Hk & _). by eapply HF.
Qed.

Lemma hoare_bind {A B : Type} P (c : M A) Q (f : A → M B) Q' :
  hoare P c Q → (∀ a, hoare (Q a) (f a) Q') → hoare P (c ≫= f) Q'.
Proof.
  intros Hc Hf s Htx HP. rewrite bind_run.
  destruct (Hc s Htx HP) as [Hk Hq].
  destruct (c s) as [[a|e] s1]; simpl in *; [|done].
  destruct Hk as (Htx1 & Hk).
  destruct (Hf a s1 Htx1 (Hq a eq_refl)) as [Hk' Hq'].
  split; [|done]. eapply integrity_kept_trans; [|exact Hk']. by split.
Qed.

(** A step that leaves the durable database and the connection alone. *)
Lemma hoare_same {A : Type} F (c : M A) :
  (∀ s, txn s = db_file s →
        db_file (c s).2 = db_file s ∧ txn (c s).2 = db_file s) →
  hoare F c (λ _, F).
Proof.
  intros Hc s Htx HF. destruct (Hc s Htx) as [Hdb Htx'].
  split; [by apply integrity_kept_same|]. intros _ _. by rewrite Hdb.
Qed.

Lemma hoare_logging F l m : hoare F (logging l m) (λ _, F).
Proof. by apply hoare_same. Qed.

Lemma hoare_try_except {A : Type} P (c : M A) (h : exn → M A) Q :
  hoare P c Q → (∀ e, hoare (λ _, True) (h e) Q) → hoare P (try_except c h) Q.
Proof.
  intros Hc Hh s Htx HP. unfold try_except.
  destruct (Hc s Htx HP) as [Hk Hq].
  destruct (c s) as [[a|e] s1]; simpl in *; [done|].
  destruct Hk as (Htx1 & Hk).
  destruct (Hh e s1 Htx1 I) as [Hk' Hq'].
  split; [|done]. eapply integrity_kept_trans; [|exact Hk']. by split.
Qed.

Lemma hoare_try_finally {A : Type} P (c : M A) (f : M unit) Q :
  hoare P c Q → hoare (λ _, True) f (λ _ _, True) →
  hoare P (try_finally c f) (λ _ _, True).
Proof.
  intros Hc Hf s Htx HP. unfold try_finally.
  destruct (Hc s Htx HP) as [Hk _].
  destruct (c s) as [r s1]; simpl in *.
  destruct Hk as (Htx1 & Hk).
  destruct (Hf s1 Htx1 I) as [Hk' _].
  assert (integrity_kept s (f s1).2).
  { eapply integrity_kept_trans; [|exact Hk']. by split. }
  by destruct (f s1) as [[[]|e] s2].
Qed.

Lemma hoare_with_conn {A : Type} P (body : M A) Q :
  hoare P body Q → hoare P (with_conn body) Q.
Proof.
  intros Hc s Htx HP. unfold with_conn, commit, rollback. unfold_run.
  destruct (Hc s Htx HP) as [Hk Hq].
  destruct (body s) as [[a|e] s1]; simpl in *.
  - destruct Hk as (Htx1 & Hk).
    destruct s1 as [d tx rd hd fl lg ck]; simpl in *. subst tx.
    destruct fl as [|[] fl]; simpl; (split; [by split|]); [|done|].
    all: intros a' [= <-]; by apply Hq.
  - destruct Hk as (Htx1 & Hk). by split; [split|].
Qed.

(** *** The resolvers and the batch loader *)

Lemma get_or_create_team_hoare a n v c :
  hoare (λ _, True) (get_or_create_team a n v c) (λ id db, team_row db a id).
Proof.
  intros s Htx _. unfold get_or_create_team. unfold_run.
  pose proof (insert_or_ignore_team_kept a n v c (db_file s)) as Hk.
  pose proof (insert_or_ignore_team_keys a n v c (db_file s)) as Hf.
  pose proof (select_team_id_row a (insert_or_ignore_team a n v c (db_file s))) as Hs.
  destruct s as [db tx rd hd fl lg ck]; simpl in *. subst tx.
  destruct fl as [|[] [|[] [|[] fl]]]; simpl.
  all: try (split; [by apply integrity_kept_refl|done]).
  all: try destruct (select_team_id _ _) as [id|]; simpl.
  all: split; [by apply integrity_kept_write|].
  all: try done.
  all: intros ? [= <-]; by apply Hs.
Qed.

Lemma get_or_create_player_hoare a n t p :
  hoare (λ db, ∀ id, t = Some id → has_team db id)
    (get_or_create_player a n t p) (λ id db, player_row db a id).
Proof.
  intros s Htx Ht. unfold get_or_create_player. unfold_run.
  pose proof (insert_or_ignore_player_kept a n t p (db_file s)) as Hk.
  pose proof (insert_or_ignore_player_keys a n t p (db_file s) Ht) as Hf.
  pose proof (select_player_id_row a (insert_or_ignore_player a n t p (db_file s)))
    as Hs.
  clear Ht.
  destruct s as [db tx rd hd fl lg ck]; simpl in *. subst tx.
  destruct fl as [|[] [|[] [|[] fl]]]; simpl.
  all: try (split; [by apply integrity_kept_refl|done]).
  all: try destruct (select_player_id _ _) as [id|]; simpl.
  all: split; [by apply integrity_kept_write|].
  all: try done.
  all: intros ? [= <-]; by apply Hs.
Qed.

Lemma get_or_create_game_hoare a d l h w hs ws :
  hoare (λ db, ∀ id, h = Some id ∨ w = Some id → has_team db id)
    (get_or_create_game a d l h w hs ws) (λ id db, game_row db a id).
Proof.
  intros s Htx Ht. unfold get_or_create_game. unfold_run.
  pose proof (insert_or_ignore_game_kept a d l h w hs ws (db_file s)) as Hk.
  pose proof (insert_or_ignore_game_keys a d l h w hs ws (db_file s) Ht) as Hf.
  pose proof (select_game_id_row a
                (insert_or_ignore_game a d l h w hs ws (db_file s))) as Hs.
  clear Ht.
  destruct s as [db tx rd hd fl lg ck]; simpl in *. subst tx.
  destruct fl as [|[] [|[] [|[] fl]]]; simpl.
  all: try (split; [by apply integrity_kept_refl|done]).
  all: try destruct (select_game_id _ _) as [id|]; simpl.
  all: split; [by apply integrity_kept_write|].
  all: try done.
  all: intros ? [= <-]; by apply Hs.
Qed.

Lemma bulk_insert_stats_hoare d :
  hoare (stat_ids_exist d) (bulk_insert_stats d) (λ _ _, True).
Proof.
  intros s Htx Hd. split; [|done].
  destruct (bulk_insert_stats_run d s Htx) as (Htx' & _ & [[_ Hdb]|[_ Hdb]]).
  - apply integrity_kept_write; [done|..]; rewrite Hdb.
    + apply executemany_kept.
    + by apply executemany_keys.
  - apply integrity_kept_same; congruence.
Qed.

(** *** The loops of [transform_and_load] *)

Lemma hoare_ret_weak {A : Type} (P : database → Prop) (a : A) Q :
  (∀ db, P db → Q a db) → hoare P (mret a) Q.
Proof. intros HP. eapply hoare_conseq; [exact HP| |apply (hoare_ret a Q)]. done. Qed.

Lemma process_teams_hoare teams : ∀ tm,
  hoare (team_mappings_exist tm) (process_teams teams tm) team_mappings_exist.
Proof.
  induction teams as [|team teams IH]; intros tm; [apply hoare_ret|].
  simpl. eapply hoare_bind.
  - eapply hoare_conseq;
      [| |apply (hoare_frame (team_mappings_exist tm)),
            (get_or_create_team_hoare (Json.id team) (Json.name team)
               (Json.venue_name team) (Json.locationName team))];
      [by intros db H|by intros id db H|apply team_mappings_exist_mono].
  - intros id. eapply hoare_conseq; [| |apply IH]; [|done].
    intros db [Hid [Ha Hn]]. split; simpl; apply map_Forall_insert_2; try done.
    by eapply team_row_has.
Qed.

Lemma process_roster_hoare roster t : ∀ pm,
  hoare (λ db, has_team db t ∧ map_Forall (player_row db) pm)
    (process_roster roster t pm)
    (λ pm' db, map_Forall (player_row db) pm').
Proof.
  induction roster as [|player roster IH]; intros pm.
  { apply hoare_ret_weak. by intros db [_ H]. }
  simpl. eapply hoare_bind.
  - eapply hoare_conseq;
      [| |apply (hoare_frame
                   (λ db, has_team db t ∧ map_Forall (player_row db) pm)),
            (get_or_create_player_hoare (Json.person_id player)
               (Json.person_fullName player) (Some t)
               (Some (default "NA" (Json.position_abbreviation player))))].
    + intros db [Ht Hpm]. split; [|done]. by intros id [= <-].
    + by intros id db H.
    + apply monotone_and; [apply has_team_mono|apply player_mapping_mono].
  - intros id. eapply hoare_conseq; [| |apply IH]; [|done].
    intros db (Hid & Ht & Hpm). split; [done|]. by apply map_Forall_insert_2.
Qed.

Lemma process_rosters_hoare rosters tm : ∀ pm,
  hoare (λ db, team_mappings_exist tm db ∧ map_Forall (player_row db) pm)
    (process_rosters rosters tm pm)
    (λ pm' db, team_mappings_exist tm db ∧ map_Forall (player_row db) pm').
Proof.
  induction rosters as [|[team_key roster] rosters IH]; intros pm;
    [by apply hoare_ret_weak|].
  simpl.
  destruct (if isdigit team_key then _ else _) as [t|] eqn:Hkey.
  - eapply hoare_bind; [|intros pm'; apply IH].
    eapply hoare_conseq;
      [| |apply (hoare_frame (team_mappings_exist tm)), (process_roster_hoare roster t pm)].
    + intros db [Htm Hpm]. split; [|done]. split; [|done].
      destruct Htm as [Ha Hn].
      destruct (isdigit team_key); [eapply team_row_has; by eapply Ha|by eapply Hn].
    + by intros pm' db [? ?].
    + apply team_mappings_exist_mono.
  - eapply hoare_bind; [apply hoare_logging|intros ?; apply IH].
Qed.

Lemma process_games_hoare games tm : ∀ gm,
  hoare (λ db, team_mappings_exist tm db ∧ map_Forall (game_row db) gm)
    (process_games games tm gm)
    (λ gm' db, map_Forall (game_row db) gm').
Proof.
  induction games as [|game games IH]; intros gm.
  { apply hoare_ret_weak. by intros db [_ H]. }
  simpl.
  destruct (team_mapping_by_api tm !! Json.home_team_id game) as [h|] eqn:Hh;
    [destruct (team_mapping_by_api tm !! Json.away_team_id game) as [w|] eqn:Hw|].
  - eapply hoare_bind.
    + eapply hoare_conseq;
        [| |apply (hoare_frame
                     (λ db, team_mappings_exist tm db ∧
                            map_Forall (game_row db) gm)),
              (get_or_create_game_hoare (Json.game_id game) (Json.game_date game)
                 (Json.location game) (Some h) (Some w)
                 (Json.home_team_score game) (Json.away_team_score game))].
      * intros db [Htm Hgm]. split; [|done]. destruct Htm as [Ha _].
        intros id [[= <-]|[= <-]]; eapply team_row_has; by eapply Ha.
      * by intros id db H.
      * apply monotone_and; [apply team_mappings_exist_mono|apply game_mapping_mono].
    + intros id. eapply hoare_conseq; [| |apply IH]; [|done].
      intros db (Hid & Htm & Hgm). split; [done|]. by apply map_Forall_insert_2.
  - eapply hoare_bind; [apply hoare_logging|intros ?; apply IH].
  - eapply hoare_bind; [apply hoare_logging|intros ?; apply IH].
Qed.

Lemma resolve_reference_data_hoare data :
  hoare (λ _, True) (resolve_reference_data data)
    (λ m db, map_Forall (player_row db) m.1 ∧ map_Forall (game_row db) m.2).
Proof.
  unfold resolve_reference_data. apply hoare_with_conn.
  eapply hoare_bind.
  { eapply hoare_conseq; [| |apply (process_teams_hoare _ (TeamMappings ∅ ∅))].
    - intros db _. split; apply map_Forall_empty.
    - by intros tm db H. }
  intros tm. eapply hoare_bind.
  { eapply hoare_conseq; [| |apply (process_rosters_hoare _ tm ∅)].
    - intros db H. split; [done|apply map_Forall_empty].
    - by intros pm db H. }
  intros pm. simpl. eapply hoare_bind.
  { eapply hoare_conseq;
      [| |apply (hoare_frame (λ db, map_Forall (player_row db) pm)),
            (process_games_hoare _ tm ∅)].
    - intros db [Htm Hpm]. split; [|exact Hpm]. split; [done|apply map_Forall_empty].
    - by intros gm db H.
    - apply player_mapping_mono. }
  intros gm. simpl.
  apply hoare_ret_weak. by intros db [? ?].
Qed.

(** The tuples of a batch carry identifiers handed out by the mappings. *)
Lemma batter_stats_data_ids stats gm pm : ∀ rows,
  batter_stats_data stats gm pm = Ok rows →
  ∀ v, v ∈ rows →
       (∃ k, gm !! k = Some (BatterStat.game_id v)) ∧
       (∃ k, pm !! k = Some (BatterStat.player_id v)).
Proof.
  induction stats as [|stat stats IH]; intros rows; simpl.
  { intros [= <-] v Hv. by apply elem_of_nil in Hv. }
  destruct (gm !! Json.b_game_id stat) as [g|] eqn:Hg; simpl; [|by apply IH].
  destruct (pm !! Json.b_player_id stat) as [p|] eqn:Hp; simpl;
    [|rewrite andb_false_r; by apply IH].
  destruct (negb (g =? 0) && negb (p =? 0)); [|by apply IH].
  unfold batter_row.
  destruct (derive_rates _ _ _ _ _ _) as [r|e]; simpl; [|done].
  destruct (batter_stats_data stats gm pm) as [rows'|e]; simpl; [|done].
  intros [= <-] v [->|Hv]%elem_of_cons; [|by eapply IH].
  simpl. split; eauto.
Qed.

Lemma pitcher_stats_data_ids stats gm pm :
  ∀ v, v ∈ pitcher_stats_data stats gm pm →
       (∃ k, gm !! k = Some (PitcherStat.game_id v)) ∧
       (∃ k, pm !! k = Some (PitcherStat.player_id v)).
Proof.
  induction stats as [|stat stats IH]; simpl.
  { intros v Hv. by apply elem_of_nil in Hv. }
  destruct (gm !! Json.p_game_id stat) as [g|] eqn:Hg; simpl; [|by apply IH].
  destruct (pm !! Json.p_player_id stat) as [p|] eqn:Hp; simpl;
    [|rewrite andb_false_r; by apply IH].
  destruct (negb (g =? 0) && negb (p =? 0)); [|by apply IH].
  intros v [->|Hv]%elem_of_cons; [|by eapply IH].
  simpl. split; eauto.
Qed.

Lemma load_batter_stats_hoare data gm pm :
  hoare (λ db, map_Forall (player_row db) pm ∧ map_Forall (game_row db) gm)
    (load_batter_stats data gm pm) (λ _ _, True).
Proof.
  unfold load_batter_stats.
  destruct (Json.batter_stats data) as [|stat stats].
  { by apply hoare_ret_weak. }
  intros s Htx [Hpm Hgm]. rewrite bind_run. unfold lift.
  destruct (batter_stats_data _ gm pm) as [rows|e] eqn:Hrows;
    [|by split; [apply integrity_kept_refl|]].
  apply bulk_insert_stats_hoare; [done|].
  intros v Hv.
  destruct (batter_stats_data_ids _ _ _ _ Hrows v Hv) as [[k Hk] [k' Hk']].
  split; [eapply game_row_has; by eapply Hgm|eapply player_row_has; by eapply Hpm].
Qed.

Lemma load_pitcher_stats_hoare data gm pm :
  hoare (λ db, map_Forall (player_row db) pm ∧ map_Forall (game_row db) gm)
    (load_pitcher_stats data gm pm) (λ _ _, True).
Proof.
  unfold load_pitcher_stats.
  destruct (Json.pitcher_stats data) as [|stat stats].
  { by apply hoare_ret_weak. }
  intros s Htx [Hpm Hgm].
  apply bulk_insert_stats_hoare; [done|].
  intros v Hv.
  destruct (pitcher_stats_data_ids _ _ _ v Hv) as [[k Hk] [k' Hk']].
  split; [eapply game_row_has; by eapply Hgm|eapply player_row_has; by eapply Hpm].
Qed.

Lemma create_connection_hoare F : hoare F create_connection (λ _, F).
Proof.
  apply hoare_same. intros s Htx. rewrite create_connection_run.
  destruct (storage_fault_total s) as (b & s0 & Hs0). rewrite Hs0.
  destruct (storage_fault_frame _ _ _ Hs0) as (Hdb & Htx0 & _).
  destruct b; simpl; split; congruence.
Qed.

Lemma transform_and_load_hoare p :
  hoare (λ _, True) (transform_and_load p) (λ _ _, True).
Proof.
  unfold transform_and_load.
  eapply hoare_bind.
  { apply (hoare_same (λ _, True)). intros s Htx. unfold json_load.
    by destruct (listing p.1 s !! p.2) as [[?|]|]. }
  intros data. eapply hoare_bind; [apply create_connection_hoare|intros ?].
  simpl. apply (hoare_try_finally _ _ _ (λ _ _, True)).
  - apply hoare_try_except.
    + eapply hoare_bind; [apply resolve_reference_data_hoare|].
      intros [pm gm]. simpl.
      eapply hoare_bind.
      { eapply hoare_conseq;
          [| |apply (hoare_frame
                       (λ db, map_Forall (player_row db) pm ∧
                              map_Forall (game_row db) gm)),
                (load_batter_stats_hoare data gm pm)].
        - by intros db H.
        - intros u db [_ H]. exact H.
        - apply monotone_and; [apply player_mapping_mono|apply game_mapping_mono]. }
      intros ?. eapply hoare_bind; [apply load_pitcher_stats_hoare|intros ?].
      apply hoare_logging.
    + intros e. eapply hoare_bind; [apply hoare_logging|intros ?; apply hoare_raise].
  - apply (hoare_same (λ _, True)). by intros s Htx.
Qed.

(** *** The orchestrator *)

Lemma foreign_keys_hold_ext db db' :
  teams db' = teams db → players db' = players db → games db' = games db →
  batter_stats db' = batter_stats db → pitcher_stats db' = pitcher_stats db →
  foreign_keys_hold db → foreign_keys_hold db'.
Proof.
  unfold foreign_keys_hold, has_team, has_player, has_game.
  by intros -> -> -> -> ->.
Qed.

Lemma record_file_processed_hoare f a b :
  hoare (λ _, True) (record_file_processed f a b) (λ _ _, True).
Proof.
  intros s Htx _. split; [|done].
  pose proof (record_file_processed_settled f a b s Htx) as Hset.
  destruct (record_file_processed f a b s) as [[[]|e] s1] eqn:Hrec; simpl in *.
  - destruct (record_file_processed_returns _ _ _ _ _ Hrec)
      as (db' & Hins & Hdb & _).
    apply integrity_kept_write; [done|..]; rewrite Hdb, <- Htx.
    + by eapply insert_processed_file_kept.
    + destruct (insert_processed_file_Some _ _ _ _ _ _ Hins) as (_&?&?&?&?&?).
      by apply foreign_keys_hold_ext.
  - apply record_file_processed_raises in Hrec as [Hdb _].
    apply integrity_kept_same; congruence.
Qed.

Lemma process_file_hoare f : hoare (λ _, True) (process_file f) (λ _ _, True).
Proof.
  unfold process_file.
  destruct (endswith f ".json"); [|by apply hoare_ret_weak].
  destruct (extract_date_range f) as [a b].
  eapply hoare_bind.
  { apply (hoare_same (λ _, True)). intros s Htx.
    destruct (range_check_frame f a b s) as (? & ? & _). split; congruence. }
  intros [|]; [by apply hoare_ret_weak|].
  unfold load_and_archive.
  eapply hoare_bind; [apply hoare_logging|intros ?].
  apply hoare_try_except; [|intros e; apply hoare_logging].
  eapply hoare_bind; [apply transform_and_load_hoare|intros ?].
  eapply hoare_bind.
  { destruct (both a b) as [[sd ed]|];
      [apply record_file_processed_hoare|by apply hoare_ret_weak]. }
  intros ?. apply (hoare_same (λ _, True)). intros s Htx.
  destruct (archive_keeps_database f INFO (MovedFile f) s). split; congruence.
Qed.

Lemma main_loop_hoare fs : hoare (λ _, True) (main_loop fs) (λ _ _, True).
Proof.
  induction fs as [|f fs IH]; [by apply hoare_ret_weak|].
  simpl. eapply hoare_bind; [apply process_file_hoare|by intros ?].
Qed.

(** X11: the pipeline keeps the foreign keys of the schema, although
    SQLite does not enforce them on the connection that loads the data.
    If in the durable database every player row names an existing team,
    every game row existing home and away teams, and every statistic row
    an existing game and an existing player, then the same holds after
    [transform_and_load] of any file, and after a whole run of [main],
    whatever fails on the way. *)
Theorem foreign_keys_kept :
  (∀ p s, foreign_keys_hold (db_file s) →
          foreign_keys_hold (db_file (transform_and_load p s).2)) ∧
  (∀ s, foreign_keys_hold (db_file s) → foreign_keys_hold (db_file (main s).2)).
Proof.
  split.
  - intros p s Hfk. rewrite transform_and_load_fresh.
    by apply (transform_and_load_hoare p (set_txn (db_file s) s)).
  - intros s Hfk. rewrite main_from_fresh_connection.
    assert (Hmain : hoare (λ _, True) main (λ _ _, True)).
    { unfold main.
      eapply hoare_bind; [apply create_connection_hoare|intros ?].
      eapply hoare_bind.
      { apply (hoare_same (λ _, True)). intros s0 Htx.
        destruct (create_tables_run s0 Htx) as (? & ? & _). by split. }
      intros ?. eapply hoare_bind.
      { apply (hoare_same (λ _, True)). by intros s0 Htx. }
      intros fs. simpl. eapply hoare_bind; [apply main_loop_hoare|intros ?].
      apply (hoare_same (λ _, True)). by intros s0 Htx. }
    by apply (Hmain (set_txn (db_file s) s)).
Qed.

(** ** The UNIQUE constraints *)

Lemma insert_processed_file_names f a b t db db' :
  insert_processed_file f a b t db = Some db' → names_unique db → names_unique db'.
Proof.
  unfold insert_processed_file, names_unique.
  destruct (existsb _ _) eqn:Hex; [done|]. intros [= <-]. simpl.
  rewrite fmap_app. simpl. intros Hnd. apply NoDup_app.
  split; [done|]. split; [|apply NoDup_singleton].
  intros x Hx ->%list_elem_of_singleton.
  apply list_elem_of_fmap_1 in Hx as (r & Hname & Hr).
  assert (existsb (λ r, String.eqb (ProcessedFile.file_name r) f)
            (processed_files db) = true); [|congruence].
  apply existsb_file_name. by exists r.
Qed.

Lemma main_stable_unique_constraints :
  preserves (λ s s', unique_constraints (db_file s) ∧ unique_constraints (txn s) →
                     unique_constraints (db_file s') ∧ unique_constraints (txn s'))
    main.
Proof.
  pose proof insert_or_ignore_ledger_kept as Hl. unfold ledger_kept in Hl.
  unfold unique_constraints, names_unique.
  apply preserves_main; try done.
  - intros s1 s2 s3 H12 H23 H1. auto.
  - simpl. by intros s [? ?].
  - simpl. by intros s [? ?].
  - intros a n v c s [? [? ?]]. split; [done|]. simpl.
    rewrite (proj1 (Hl _)). split; [by apply insert_or_ignore_team_unique|done].
  - intros a n t p s [? [? ?]]. split; [done|]. simpl.
    rewrite (proj1 (proj2 (Hl _))).
    split; [by apply insert_or_ignore_player_unique|done].
  - intros a d l h w hs ws s [? [? ?]]. split; [done|]. simpl.
    rewrite (proj1 (proj2 (proj2 (Hl _)))).
    split; [by apply insert_or_ignore_game_unique|done].
  - intros d s [? [? ?]]. split; [done|]. simpl.
    rewrite (proj2 (proj2 (proj2 (Hl _)))).
    split; [by apply executemany_unique|done].
  - intros f a b t s db' Hins [? [? ?]]. split; [done|]. simpl. split.
    + by eapply insert_processed_file_unique.
    + by eapply insert_processed_file_names.
Qed.

(** X12: the UNIQUE constraints of the schema are invariants of the
    pipeline.  If the durable database has at most one team, one player
    and one game per external id and no two ledger rows with the same
    file name, then so it has after any run of [main], whatever
    fails. *)
Theorem main_keeps_unique_constraints (s : state) :
  unique_constraints (db_file s) → unique_constraints (db_file (main s).2).
Proof.
  intros Hu. rewrite main_from_fresh_connection.
  by apply (main_stable_unique_constraints (set_txn (db_file s) s)).
Qed.

(** ** Rows are only added *)

Lemma fact_rows_kept_refl db : fact_rows_kept db db.
Proof. by repeat split. Qed.

Lemma fact_rows_kept_trans d1 d2 d3 :
  fact_rows_kept d1 d2 → fact_rows_kept d2 d3 → fact_rows_kept d1 d3.
Proof.
  intros (?&?&?) (?&?&?). repeat split; by etrans.
Qed.

Lemma insert_batter_stats_prefix data : ∀ db,
  batter_stats db `prefix_of` batter_stats (insert_batter_stats data db).
Proof.
  induction data as [|v data IH]; intros db; simpl; [done|].
  etrans; [|apply IH]. simpl. by apply prefix_app_r.
Qed.

Lemma insert_pitcher_stats_prefix data : ∀ db,
  pitcher_stats db `prefix_of` pitcher_stats (insert_pitcher_stats data db).
Proof.
  induction data as [|v data IH]; intros db; simpl; [done|].
  etrans; [|apply IH]. simpl. by apply prefix_app_r.
Qed.

Lemma inserts_keep_fact_rows db :
  (∀ a n v c, fact_rows_kept db (insert_or_ignore_team a n v c db)) ∧
  (∀ a n t p, fact_rows_kept db (insert_or_ignore_player a n t p db)) ∧
  (∀ a d l h w hs ws, fact_rows_kept db (insert_or_ignore_game a d l h w hs ws db)) ∧
  (∀ d, fact_rows_kept db (executemany d db)) ∧
  (∀ f a b t db', insert_processed_file f a b t db = Some db' →
                  fact_rows_kept db db').
Proof.
  split; [|split; [|split; [|split]]].
  - intros. unfold insert_or_ignore_team. destruct n; [|by repeat split].
    simpl. by destruct (existsb _ _); repeat split.
  - intros. unfold insert_or_ignore_player. destruct n; [|by repeat split].
    simpl. by destruct (existsb _ _); repeat split.
  - intros. unfold insert_or_ignore_game.
    simpl. by destruct (existsb _ _); repeat split.
  - intros d. destruct (executemany_frame d db) as (_ & _ & _ & Hpf).
    unfold fact_rows_kept. rewrite Hpf. destruct d as [data|data]; simpl.
    + rewrite (proj2 (insert_batter_stats_rows data db)).
      split; [apply insert_batter_stats_prefix|done].
    + rewrite (proj2 (insert_pitcher_stats_rows data db)).
      split; [done|]. split; [apply insert_pitcher_stats_prefix|done].
  - intros f a b t db' Hins.
    destruct (insert_processed_file_Some _ _ _ _ _ _ Hins) as (Hpf&_&_&_&Hb&Hp).
    unfold fact_rows_kept. rewrite Hpf, Hb, Hp.
    split; [done|]. split; [done|]. by apply prefix_app_r.
Qed.

(** X13: statistic rows and ledger rows are append-only.  Over a whole
    run of [main], whatever fails on the way, the batting rows, the
    pitching rows and the ledger rows that were durable before are an
    initial segment of the rows durable after, field for field: the
    pipeline never deletes or updates a row. *)
Theorem fact_rows_append_only (s : state) :
  fact_rows_kept (db_file s) (db_file (main s).2).
Proof.
  rewrite main_from_fresh_connection.
  assert (Hmain : preserves (stable fact_rows_kept) main).
  { pose proof fact_rows_kept_refl as Hr.
    pose proof fact_rows_kept_trans as Ht.
    apply preserves_main.
    all: try (intros; apply stable_write; eauto; apply inserts_keep_fact_rows; fail).
    all: try (intros; eapply stable_write; eauto;
              eapply inserts_keep_fact_rows; eauto; fail).
    all: eauto using stable_refl, stable_trans, stable_log, stable_faults,
                 stable_reset, stable_commit, stable_dirs. }
  destruct (Hmain (set_txn (db_file s) s)) as [H _]; [|exact H].
  apply fact_rows_kept_refl.
Qed.

(** ** The teams of a snapshot *)

Lemma process_teams_domain teams : ∀ tm0 s tm s',
  process_teams teams tm0 s = (Ok tm, s') →
  (∀ k, is_Some (team_mapping_by_api tm0 !! k) →
        is_Some (team_mapping_by_api tm !! k)) ∧
  (∀ k, is_Some (team_mapping_by_name tm0 !! k) →
        is_Some (team_mapping_by_name tm !! k)) ∧
  (∀ team, team ∈ teams →
     is_Some (Json.id team) ∧
     is_Some (team_mapping_by_api tm !! Json.id team) ∧
     is_Some (team_mapping_by_name tm !! Json.name team)).
Proof.
  induction teams as [|team teams IH]; intros tm0 s tm s'; simpl.
  { intros [= <- <-]. split; [done|]. split; [done|].
    intros team Hteam. by apply elem_of_nil in Hteam. }
  rewrite bind_run.
  destruct (get_or_create_team _ _ _ _ s) as [[id|e] s1] eqn:Hres; [|done].
  intros Hrest. destruct (IH _ _ _ _ Hrest) as (Ha & Hn & Hall).
  simpl in Ha, Hn.
  assert (Ha0 : is_Some (team_mapping_by_api tm !! Json.id team)).
  { apply Ha. rewrite lookup_insert_eq. by eexists. }
  assert (Hn0 : is_Some (team_mapping_by_name tm !! Json.name team)).
  { apply Hn. rewrite lookup_insert_eq. by eexists. }
  split; [|split].
  - intros k Hk. apply Ha. destruct (decide (Json.id team = k)) as [->|Hne].
    + rewrite lookup_insert_eq. by eexists.
    + by rewrite lookup_insert_ne.
  - intros k Hk. apply Hn. destruct (decide (Json.name team = k)) as [->|Hne].
    + rewrite lookup_insert_eq. by eexists.
    + by rewrite lookup_insert_ne.
  - intros team' [->|Hin]%elem_of_cons; [|by apply Hall].
    split; [|done].
    destruct (Json.id team) as [i|] eqn:Hid; [by eexists|].
    exfalso. eapply (proj1 resolvers_need_id). by rewrite Hres.
Qed.


(** ** The rows of the ledger *)

Lemma ledger_matches_tokens_snoc rows id f sd ed t :
  ledger_matches_tokens rows →
  extract_date_range f = (Some sd, Some ed) →
  ledger_matches_tokens (rows ++ [ProcessedFile.Row id f sd ed t]).
Proof.
  intros Hrows Hf r [Hr|Hr]%elem_of_app; [by apply Hrows|].
  by apply list_elem_of_singleton in Hr as ->.
Qed.

Lemma main_loop_keeps_ledger_matching fs : ∀ s,
  txn s = db_file s →
  ledger_matches_tokens (processed_files (db_file s)) →
  ledger_matches_tokens (processed_files (db_file (main_loop fs s).2)).
Proof.
  induction fs as [|f fs IH]; intros s Htx Hinv; [done|].
  rewrite main_loop_step.
  destruct (process_file_ledger f s Htx) as [Htx' Hl].
  apply IH; [done|].
  destruct Hl as [->|(sd & ed & id & t & Hex & -> & _)]; [done|].
  by apply ledger_matches_tokens_snoc.
Qed.

(** X15: the ledger says what the file names say.  If every row of the
    durable ledger carries the two dates that [extract_date_range] reads
    from its file name, then so does every row after a run of [main],
    whatever fails: a row is written only for a processed file, under
    its own name and with the range of its own name. *)
Theorem main_keeps_ledger_matching_tokens (s : state) :
  ledger_matches_tokens (processed_files (db_file s)) →
  ledger_matches_tokens (processed_files (db_file (main s).2)).
Proof.
  intros Hinv. unfold main. rewrite bind_run, create_connection_run.
  destruct (storage_fault_total s) as (b & s0 & Hs0). rewrite Hs0.
  destruct (storage_fault_frame _ _ _ Hs0) as (Hdb & _).
  destruct b; [simpl; by rewrite Hdb|].
  set (s1 := add_log INFO ConnectionEstablished (set_txn (db_file s0) s0)).
  destruct (create_tables_run s1 eq_refl) as (Hdb1 & Htx1 & _ & _).
  rewrite bind_run.
  destruct (create_tables s1) as [[[]|e] s2]; simpl in Hdb1, Htx1;
    [|simpl; by rewrite Hdb1, Hdb].
  rewrite bind_run. unfold os_listdir, gets. simpl. rewrite bind_run.
  assert (Htx2 : txn s2 = db_file s2) by congruence.
  assert (Hinv2 : ledger_matches_tokens (processed_files (db_file s2))).
  { by rewrite Hdb1, Hdb. }
  pose proof (main_loop_keeps_ledger_matching
                (map_to_list (raw_dir s2)).*1 s2 Htx2 Hinv2) as Hloop.
  destruct (main_loop _ s2) as [[[]|e] s3]; exact Hloop.
Qed.

(** ** Runs without storage failures *)

Lemma returns_ret {A : Type} (a : A) s : faults s = [] → returns (mret a) s.
Proof. intros Hf. by exists a, s. Qed.

Lemma returns_bind {A B : Type} (c : M A) (f : A → M B) s :
  returns c s →
  (∀ a s', c s = (Ok a, s') → faults s' = [] → returns (f a) s') →
  returns (c ≫= f) s.
Proof.
  intros (a & s' & Hc & Hf) Hk. unfold returns. rewrite bind_run, Hc.
  by apply Hk.
Qed.

Lemma returns_logging l m s : faults s = [] → returns (logging l m) s.
Proof. intros Hf. by exists (), (add_log l m s). Qed.

Lemma insert_or_ignore_team_found e n v c db :
  is_Some n → is_Some (select_team_id (Some e) (insert_or_ignore_team (Some e) n v c db)).
Proof.
  intros [name ->]. unfold select_team_id, insert_or_ignore_team. simpl.
  destruct (existsb _ (teams db)) eqn:Hex; simpl.
  - destruct (existsb_true_find _ _ Hex) as [r ->]. by eexists.
  - rewrite (find_app_new _ _ _ Hex); [by eexists|]. apply sql_eq_refl.
Qed.

Lemma insert_or_ignore_player_found e n t p db :
  is_Some n →
  is_Some (select_player_id (Some e) (insert_or_ignore_player (Some e) n t p db)).
Proof.
  intros [name ->]. unfold select_player_id, insert_or_ignore_player. simpl.
  destruct (existsb _ (players db)) eqn:Hex; simpl.
  - destruct (existsb_true_find _ _ Hex) as [r ->]. by eexists.
  - rewrite (find_app_new _ _ _ Hex); [by eexists|]. apply sql_eq_refl.
Qed.

Lemma insert_or_ignore_game_found e d l h w hs ws db :
  is_Some (select_game_id (Some e) (insert_or_ignore_game (Some e) d l h w hs ws db)).
Proof.
  unfold select_game_id, insert_or_ignore_game. simpl.
  destruct (existsb _ (games db)) eqn:Hex; simpl.
  - destruct (existsb_true_find _ _ Hex) as [r ->]. by eexists.
  - rewrite (find_app_new _ _ _ Hex); [by eexists|]. apply sql_eq_refl.
Qed.

Lemma get_or_create_team_returns a n v c s :
  faults s = [] → is_Some a → is_Some n → returns (get_or_create_team a n v c) s.
Proof.
  intros Hf [e ->] Hn. unfold returns. rewrite get_or_create_team_run by done.
  destruct (insert_or_ignore_team_found e n v c (txn s) Hn) as [id Hid].
  simpl. rewrite Hid. by do 2 eexists.
Qed.

Lemma get_or_create_player_returns a n t p s :
  faults s = [] → is_Some a → is_Some n → returns (get_or_create_player a n t p) s.
Proof.
  intros Hf [e ->] Hn. unfold returns. rewrite get_or_create_player_run by done.
  destruct (insert_or_ignore_player_found e n t p (txn s) Hn) as [id Hid].
  simpl. rewrite Hid. by do 2 eexists.
Qed.

Lemma get_or_create_game_returns a d l h w hs ws s :
  faults s = [] → is_Some a → returns (get_or_create_game a d l h w hs ws) s.
Proof.
  intros Hf [e ->]. unfold returns. rewrite get_or_create_game_run by done.
  destruct (insert_or_ignore_game_found e d l h w hs ws (txn s)) as [id Hid].
  simpl. rewrite Hid. by do 2 eexists.
Qed.

Lemma process_teams_returns teams : ∀ tm s,
  faults s = [] →
  Forall (λ team, is_Some (Json.id team) ∧ is_Some (Json.name team)) teams →
  returns (process_teams teams tm) s.
Proof.
  induction teams as [|team teams IH]; intros tm s Hf Hall; [by apply returns_ret|].
  apply Forall_cons in Hall as [[Hid Hname] Hall]. simpl.
  apply returns_bind; [by apply get_or_create_team_returns|].
  intros id s' _ Hf'. by apply IH.
Qed.

Lemma process_roster_returns roster t : ∀ pm s,
  faults s = [] →
  Forall (λ player, is_Some (Json.person_id player) ∧
                    is_Some (Json.person_fullName player)) roster →
  returns (process_roster roster t pm) s.
Proof.
  induction roster as [|player roster IH]; intros pm s Hf Hall;
    [by apply returns_ret|].
  apply Forall_cons in Hall as [[Hid Hname] Hall]. simpl.
  apply returns_bind; [by apply get_or_create_player_returns|].
  intros id s' _ Hf'. by apply IH.
Qed.

Lemma process_rosters_returns rosters tm : ∀ pm s,
  faults s = [] →
  Forall (λ entry : string * list Json.roster_entry,
            Forall (λ player, is_Some (Json.person_id player) ∧
                              is_Some (Json.person_fullName player)) entry.2)
         rosters →
  returns (process_rosters rosters tm pm) s.
Proof.
  induction rosters as [|[team_key roster] rosters IH]; intros pm s Hf Hall;
    [by apply returns_ret|].
  apply Forall_cons in Hall as [Hroster Hall]. simpl in *.
  destruct (if isdigit team_key then _ else _) as [t|].
  - apply returns_bind; [by apply process_roster_returns|].
    intros pm' s' _ Hf'. by apply IH.
  - apply returns_bind; [by apply returns_logging|].
    intros [] s' _ Hf'. by apply IH.
Qed.

Lemma process_games_returns games tm : ∀ gm s,
  faults s = [] →
  Forall (λ game, is_Some (Json.game_id game)) games →
  returns (process_games games tm gm) s.
Proof.
  induction games as [|game games IH]; intros gm s Hf Hall; [by apply returns_ret|].
  apply Forall_cons in Hall as [Hid Hall]. simpl.
  destruct (team_mapping_by_api tm !! Json.home_team_id game) as [h|];
    [destruct (team_mapping_by_api tm !! Json.away_team_id game) as [w|]|].
  - apply returns_bind; [by apply get_or_create_game_returns|].
    intros id s' _ Hf'. by apply IH.
  - apply returns_bind; [by apply returns_logging|].
    intros [] s' _ Hf'. by apply IH.
  - apply returns_bind; [by apply returns_logging|].
    intros [] s' _ Hf'. by apply IH.
Qed.

Lemma with_conn_returns {A : Type} (body : M A) s :
  returns body s → returns (with_conn body) s.
Proof.
  intros (a & s' & Hb & Hf). unfold returns, with_conn. rewrite Hb.
  unfold_run. rewrite Hf. simpl. by do 2 eexists.
Qed.

Lemma batter_stats_data_total stats gm pm :
  Forall (λ stat,
            0 ≤ default 0 (Json.hits stat) < 2 ^ 63 ∧
            0 ≤ default 0 (Json.walks stat) < 2 ^ 63 ∧
            0 ≤ default 0 (Json.hit_by_pitch stat) < 2 ^ 63 ∧
            0 ≤ default 0 (Json.total_bases stat) < 2 ^ 63) stats →
  ∃ rows, batter_stats_data stats gm pm = Ok rows.
Proof.
  induction stats as [|stat stats IH]; intros Hall; [by eexists|].
  apply Forall_cons in Hall as [(Hh & Hw & Hp & Ht) Hall].
  destruct (IH Hall) as [rows Hrows]. simpl. rewrite Hrows.
  destruct (truthy _ && truthy _); [|by eexists].
  unfold batter_row.
  destruct (derive_rates_total (default 0 (Json.at_bats stat))
              (default 0 (Json.hits stat)) (default 0 (Json.walks stat))
              (default 0 (Json.hit_by_pitch stat)) (default 0 (Json.sac_flies stat))
              (default 0 (Json.total_bases stat))) as [r ->]; try lia.
  simpl. by eexists.
Qed.

Lemma bulk_insert_stats_returns d s :
  faults s = [] → returns (bulk_insert_stats d) s.
Proof.
  intros Hf. unfold returns, bulk_insert_stats. unfold_run.
  destruct s as [db tx rd hd fl lg ck]. simpl in *. subst fl.
  simpl. by do 2 eexists.
Qed.

Lemma transform_and_load_returns p data s :
  faults s = [] →
  listing p.1 s !! p.2 = Some (Some data) →
  well_formed data →
  returns (transform_and_load p) s.
Proof.
  intros Hf Hdata (Hteams & Hrosters & Hgames & Hbat).
  unfold transform_and_load.
  apply returns_bind.
  { unfold returns, json_load. rewrite Hdata. by do 2 eexists. }
  intros data' s0 Hload Hf0.
  assert (data' = data ∧ s0 = s) as [-> ->].
  { unfold json_load in Hload. rewrite Hdata in Hload. by injection Hload. }
  apply returns_bind.
  { unfold returns. rewrite create_connection_run. unfold storage_fault.
    rewrite Hf. by do 2 eexists. }
  intros [] s1 _ Hf1.
  assert (Hbody : returns
            ('(player_mapping, game_mapping) ← resolve_reference_data data;
             load_batter_stats data game_mapping player_mapping ;;
             load_pitcher_stats data game_mapping player_mapping ;;
             logging INFO LoadedSuccessfully) s1).
  { apply returns_bind.
    { unfold resolve_reference_data. apply with_conn_returns.
      apply returns_bind; [by apply process_teams_returns|].
      intros tm s2 _ Hf2.
      apply returns_bind; [by apply process_rosters_returns|].
      intros pm s3 _ Hf3.
      apply returns_bind; [by apply process_games_returns|].
      intros gm s4 _ Hf4. by apply returns_ret. }
    intros [pm gm] s2 _ Hf2. simpl.
    apply returns_bind.
    { unfold load_batter_stats.
      destruct (Json.batter_stats data) as [|stat stats] eqn:Hstats;
        [by apply returns_ret|].
      destruct (batter_stats_data_total (stat :: stats) gm pm Hbat) as [rows Hrows].
      apply returns_bind.
      - unfold returns, lift. rewrite Hrows. by do 2 eexists.
      - intros rows' s3 _ Hf3. by apply bulk_insert_stats_returns. }
    intros [] s3 _ Hf3.
    apply returns_bind.
    { unfold load_pitcher_stats.
      destruct (Json.pitcher_stats data); [by apply returns_ret|].
      by apply bulk_insert_stats_returns. }
    intros [] s4 _ Hf4. by apply returns_logging. }
  destruct Hbody as ([] & s2 & Hbody & Hf2).
  unfold returns, try_finally, try_except. rewrite Hbody.
  unfold close, modify. simpl. by do 2 eexists.
Qed.

Lemma record_file_processed_run f a b s db' :
  faults s = [] →
  insert_processed_file f a b (clock s) (txn s) = Some db' →
  record_file_processed f a b s =
    (Ok (), add_log INFO (RecordedFile f) (set_db_file db' (set_txn db' s))).
Proof.
  intros Hf Hins. unfold record_file_processed. unfold_run.
  destruct s as [db tx rd hd fl lg ck]. simpl in *. subst fl.
  simpl. by rewrite Hins.
Qed.

Lemma insert_processed_file_new f a b t db :
  (∀ r, r ∈ processed_files db → ProcessedFile.file_name r ≠ f) →
  is_Some (insert_processed_file f a b t db).
Proof.
  intros Hnew. unfold insert_processed_file.
  destruct (existsb _ _) eqn:Hex; [|by eexists].
  apply existsb_file_name in Hex as (r & Hr & Hname). by destruct (Hnew r Hr).
Qed.

(** A well-formed snapshot in a run without storage failures. *)
Lemma well_formed_snapshot_run
    (filename start_date end_date : string) (data : Json.document) (s : state) :
  faults s = [] →
  txn s = db_file s →
  endswith filename ".json" = true →
  token_matches filename start_date end_date →
  raw_dir s !! filename = Some (Some data) →
  well_formed data →
  (∀ r, r ∈ processed_files (db_file s) →
        overlaps start_date end_date
          (ProcessedFile.start_date r) (ProcessedFile.end_date r) = false ∧
        ProcessedFile.file_name r ≠ filename) →
  returns (transform_and_load (os_path_join RAW_DIR filename)) s ∧
  let s' := (process_file filename s).2 in
  raw_dir s' = delete filename (raw_dir s) ∧
  historical_dir s' = <[filename := Some data]> (historical_dir s) ∧
  (∃ id, processed_files (db_file s') =
           (processed_files (db_file s) ++
              [ProcessedFile.Row id filename start_date end_date (clock s)])%list) ∧
  faults s' = [].
Proof.
  intros Hf Htx Hjson Htok Hdata Hwf Hfree.
  split; [by eapply transform_and_load_returns|].
  pose proof (proj2 (extract_date_range_spec _ _ _) Htok) as Hdates.
  pose proof (token_matches_both _ _ _ Htok) as Hboth.
  assert (Hrange : range_check filename (Some start_date) (Some end_date) s
                   = (Ok false, s)).
  { rewrite range_check_run, Hboth. unfold storage_fault. rewrite Hf.
    rewrite bool_decide_eq_false_2; [done|]. intros Hfound. apply Hfound.
    destruct (select_overlapping start_date end_date (txn s)) eqn:Hsel; [|done].
    exfalso.
    assert (Hsome : select_overlapping start_date end_date (txn s) ≠ None)
      by congruence.
    apply select_overlapping_spec in Hsome as (r & Hr & Hov).
    rewrite Htx in Hr. destruct (Hfree r Hr) as [Hno _]. congruence. }
  set (sp := add_log INFO (ProcessingFile filename) s).
  destruct (transform_and_load_returns (os_path_join RAW_DIR filename) data sp)
    as ([] & s1 & Hload & Hf1); [done..|].
  pose proof (transform_and_load_settled (os_path_join RAW_DIR filename) sp) as Hset.
  pose proof (transform_and_load_frame (os_path_join RAW_DIR filename) sp) as Hfr.
  rewrite Hload in Hset, Hfr. simpl in Hset, Hfr.
  destruct Hset as [_ Hset]. destruct (Hset eq_refl) as [Htx1 _].
  destruct Hfr as [Hpf1 _].
  destruct (insert_processed_file_new filename start_date end_date (clock s1) (txn s1))
    as [db' Hins].
  { intros r Hr. rewrite Htx1, Hpf1 in Hr. by apply Hfree. }
  pose proof (record_file_processed_run _ _ _ _ _ Hf1 Hins) as Hrec.
  set (s2 := add_log INFO (RecordedFile filename)
               (set_db_file db' (set_txn db' s1))) in Hrec.
  assert (Hunit : (transform_and_load (os_path_join RAW_DIR filename) ;;
                   match both (Some start_date) (Some end_date) with
                   | Some (sd, ed) => record_file_processed filename sd ed
                   | None => mret ()
                   end) sp = (Ok (), s2)).
  { rewrite bind_run, Hload, Hboth. exact Hrec. }
  destruct (loaded_unit_archived_run filename (Some start_date) (Some end_date)
              s s s2 Hjson Hdates Hrange Hunit)
    as (data' & Hdata' & Hrun & _ & _ & Hledger).
  assert (data' = data) as -> by congruence.
  cbv zeta in Hrun |- *. rewrite Hrun. rewrite Hboth in Hledger.
  split; [done|]. split; [done|]. split; [exact Hledger|]. exact Hf1.
Qed.


(** ** The identifiers of the statistic rows *)

Lemma batter_row_ids g p stat v :
  batter_row g p stat = Ok v → BatterStat.game_id v = g ∧ BatterStat.player_id v = p.
Proof.
  unfold batter_row. destruct (derive_rates _ _ _ _ _ _) as [r|e]; simpl; [|done].
  by intros [= <-].
Qed.

Lemma batter_stats_data_lines stats gm pm : ∀ rows,
  batter_stats_data stats gm pm = Ok rows →
  ∀ v, v ∈ rows →
       ∃ stat, stat ∈ stats ∧
               gm !! Json.b_game_id stat = Some (BatterStat.game_id v) ∧
               pm !! Json.b_player_id stat = Some (BatterStat.player_id v) ∧
               batter_row (BatterStat.game_id v) (BatterStat.player_id v) stat = Ok v.
Proof.
  induction stats as [|stat stats IH]; intros rows; simpl.
  { intros [= <-] v Hv. by apply elem_of_nil in Hv. }
  assert (Hrest : ∀ rows, batter_stats_data stats gm pm = Ok rows →
            ∀ v, v ∈ rows →
              ∃ stat', stat' ∈ stat :: stats ∧
                gm !! Json.b_game_id stat' = Some (BatterStat.game_id v) ∧
                pm !! Json.b_player_id stat' = Some (BatterStat.player_id v) ∧
                batter_row (BatterStat.game_id v) (BatterStat.player_id v) stat'
                  = Ok v).
  { intros rows' Hrows' v Hv. destruct (IH rows' Hrows' v Hv) as (st & Hst & H).
    exists st. split; [by apply elem_of_cons; right|done]. }
  destruct (gm !! Json.b_game_id stat) as [g|] eqn:Hg; simpl; [|by apply Hrest].
  destruct (pm !! Json.b_player_id stat) as [p|] eqn:Hp; simpl;
    [|rewrite andb_false_r; by apply Hrest].
  destruct (negb (g =? 0) && negb (p =? 0)); [|by apply Hrest].
  destruct (batter_row g p stat) as [row|e] eqn:Hrow; simpl; [|done].
  destruct (batter_stats_data stats gm pm) as [rows'|e]; simpl; [|done].
  intros [= <-] v [->|Hv]%elem_of_cons; [|by eapply Hrest].
  destruct (batter_row_ids _ _ _ _ Hrow) as [-> ->].
  exists stat. split; [by apply elem_of_cons; left|done].
Qed.

Lemma pitcher_stats_data_lines stats gm pm :
  ∀ v, v ∈ pitcher_stats_data stats gm pm →
       ∃ stat, stat ∈ stats ∧
               gm !! Json.p_game_id stat = Some (PitcherStat.game_id v) ∧
               pm !! Json.p_player_id stat = Some (PitcherStat.player_id v) ∧
               v = pitcher_row (PitcherStat.game_id v) (PitcherStat.player_id v) stat.
Proof.
  induction stats as [|stat stats IH]; simpl.
  { intros v Hv. by apply elem_of_nil in Hv. }
  assert (Hrest : ∀ v, v ∈ pitcher_stats_data stats gm pm →
            ∃ stat', stat' ∈ stat :: stats ∧
              gm !! Json.p_game_id stat' = Some (PitcherStat.game_id v) ∧
              pm !! Json.p_player_id stat' = Some (PitcherStat.player_id v) ∧
              v = pitcher_row (PitcherStat.game_id v) (PitcherStat.player_id v) stat').
  { intros v Hv. destruct (IH v Hv) as (st & Hst & H).
    exists st. split; [by apply elem_of_cons; right|done]. }
  destruct (gm !! Json.p_game_id stat) as [g|] eqn:Hg; simpl; [|by apply Hrest].
  destruct (pm !! Json.p_player_id stat) as [p|] eqn:Hp; simpl;
    [|rewrite andb_false_r; by apply Hrest].
  destruct (negb (g =? 0) && negb (p =? 0)); [|by apply Hrest].
  intros v [->|Hv]%elem_of_cons; [|by apply Hrest].
  exists stat. split; [by apply elem_of_cons; left|done].
Qed.

(** X17: the statistic rows point at the right games and players.
    When the reference block of [transform_and_load] returns its two
    mappings, whatever storage operations failed before, every
    identifier a mapping holds for an external id is the identifier of a
    durable row that carries this external id.  So every tuple the
    loader then builds comes from a line of the snapshot, and its
    [game_id] and [player_id] are those of the durable game and player
    rows with the external ids of that line. *)
Theorem statistic_rows_point_at_their_entities
    (data : Json.document) (s s' : state) (pm gm : gmap (option Z) Z) :
  txn s = db_file s →
  resolve_reference_data data s = (Ok (pm, gm), s') →
  (∀ k id, pm !! k = Some id → player_row (db_file s') k id) ∧
  (∀ k id, gm !! k = Some id → game_row (db_file s') k id) ∧
  (∀ rows v,
     batter_stats_data (Json.batter_stats data) gm pm = Ok rows → v ∈ rows →
     ∃ stat, stat ∈ Json.batter_stats data ∧
       game_row (db_file s') (Json.b_game_id stat) (BatterStat.game_id v) ∧
       player_row (db_file s') (Json.b_player_id stat) (BatterStat.player_id v) ∧
       batter_row (BatterStat.game_id v) (BatterStat.player_id v) stat = Ok v) ∧
  (∀ v,
     v ∈ pitcher_stats_data (Json.pitcher_stats data) gm pm →
     ∃ stat, stat ∈ Json.pitcher_stats data ∧
       game_row (db_file s') (Json.p_game_id stat) (PitcherStat.game_id v) ∧
       player_row (db_file s') (Json.p_player_id stat) (PitcherStat.player_id v) ∧
       v = pitcher_row (PitcherStat.game_id v) (PitcherStat.player_id v) stat).
Proof.
  intros Htx Hrun.
  destruct (resolve_reference_data_hoare data s Htx I) as [_ Hpost].
  rewrite Hrun in Hpost. destruct (Hpost _ eq_refl) as [Hpm Hgm]. simpl in *.
  split; [exact Hpm|]. split; [exact Hgm|]. split.
  - intros rows v Hrows Hv.
    destruct (batter_stats_data_lines _ _ _ _ Hrows v Hv) as (stat & ? & Hg & Hp & ?).
    exists stat. split; [done|]. split; [by eapply Hgm|]. split; [by eapply Hpm|done].
  - intros v Hv.
    destruct (pitcher_stats_data_lines _ _ _ v Hv) as (stat & ? & Hg & Hp & ?).
    exists stat. split; [done|]. split; [by eapply Hgm|]. split; [by eapply Hpm|done].
Qed.

(** ** The truth value of an identifier *)

Lemma seq_of_bump_seq_ne table table' db :
  table ≠ table' → seq_of table' (bump_seq table db) = seq_of table' db.
Proof. intros Hne. unfold seq_of, bump_seq. simpl. by rewrite lookup_insert_ne. Qed.

Lemma seq_of_bump_seq table db : seq_of table (bump_seq table db) = seq_of table db + 1.
Proof. unfold seq_of at 1, bump_seq. simpl. by rewrite lookup_insert_eq. Qed.

Lemma insert_or_ignore_team_positive a n v c db :
  positive_ids db → positive_ids (insert_or_ignore_team a n v c db).
Proof.
  intros (Hp & Hg & Hsp & Hsg).
  assert (positive_ids (bump_seq "teams" db)).
  { split; [done|]. split; [done|]. by rewrite !seq_of_bump_seq_ne. }
  unfold insert_or_ignore_team. destruct n; [|done].
  simpl. by destruct (existsb _ _).
Qed.

Lemma insert_or_ignore_player_positive a n t p db :
  positive_ids db → positive_ids (insert_or_ignore_player a n t p db).
Proof.
  intros (Hp & Hg & Hsp & Hsg).
  assert (Hbump : positive_ids (bump_seq "players" db)).
  { split; [done|]. split; [done|].
    rewrite seq_of_bump_seq, seq_of_bump_seq_ne by done. lia. }
  unfold insert_or_ignore_player. destruct n; [|done].
  simpl. destruct (existsb _ _); [done|].
  destruct Hbump as (_ & _ & Hsp' & Hsg').
  split; [|by split]. simpl.
  intros r [Hr|Hr]%elem_of_app; [by apply Hp|].
  apply list_elem_of_singleton in Hr as ->. simpl. lia.
Qed.

Lemma insert_or_ignore_game_positive a d l h w hs ws db :
  positive_ids db → positive_ids (insert_or_ignore_game a d l h w hs ws db).
Proof.
  intros (Hp & Hg & Hsp & Hsg).
  assert (Hbump : positive_ids (bump_seq "games" db)).
  { split; [done|]. split; [done|].
    rewrite seq_of_bump_seq, seq_of_bump_seq_ne by done. lia. }
  unfold insert_or_ignore_game.
  simpl. destruct (existsb _ _); [done|].
  destruct Hbump as (_ & _ & Hsp' & Hsg').
  split; [done|]. split; [|by split]. simpl.
  intros r [Hr|Hr]%elem_of_app; [by apply Hg|].
  apply list_elem_of_singleton in Hr as ->. simpl. lia.
Qed.

Lemma insert_batter_stats_seq data table : ∀ db,
  table ≠ "batter_stats" →
  seq_of table (insert_batter_stats data db) = seq_of table db.
Proof.
  induction data as [|v data IH]; intros db Hne; [done|].
  simpl. rewrite IH by done. unfold seq_of, bump_seq. simpl.
  by rewrite lookup_insert_ne.
Qed.

Lemma insert_pitcher_stats_seq data table : ∀ db,
  table ≠ "pitcher_stats" →
  seq_of table (insert_pitcher_stats data db) = seq_of table db.
Proof.
  induction data as [|v data IH]; intros db Hne; [done|].
  simpl. rewrite IH by done. unfold seq_of, bump_seq. simpl.
  by rewrite lookup_insert_ne.
Qed.

Lemma executemany_positive d db : positive_ids db → positive_ids (executemany d db).
Proof.
  intros (Hp & Hg & Hsp & Hsg).
  destruct (executemany_frame d db) as (_ & Hpl & Hgm & _).
  unfold positive_ids. rewrite Hpl, Hgm.
  split; [done|]. split; [done|].
  destruct d as [data|data]; simpl.
  - by rewrite !insert_batter_stats_seq.
  - by rewrite !insert_pitcher_stats_seq.
Qed.

Lemma insert_processed_file_positive f a b t db db' :
  insert_processed_file f a b t db = Some db' → positive_ids db → positive_ids db'.
Proof.
  unfold insert_processed_file. destruct (existsb _ _); [done|].
  intros [= <-] (Hp & Hg & Hsp & Hsg).
  split; [done|]. split; [done|]. simpl.
  change (seq_of "players" (set_processed_files _ (bump_seq "processed_files" db)))
    with (seq_of "players" (bump_seq "processed_files" db)).
  change (seq_of "games" (set_processed_files _ (bump_seq "processed_files" db)))
    with (seq_of "games" (bump_seq "processed_files" db)).
  by rewrite !seq_of_bump_seq_ne.
Qed.

Lemma resolve_reference_data_positive data :
  preserves (λ s s', positive_ids (db_file s) ∧ positive_ids (txn s) →
                     positive_ids (db_file s') ∧ positive_ids (txn s'))
    (resolve_reference_data data).
Proof.
  apply preserves_resolve_reference_data; try done.
  - intros s1 s2 s3 H12 H23 H1. auto.
  - simpl. by intros s [? ?].
  - simpl. by intros s [? ?].
  - intros a n v c s [? ?]. split; [done|]. by apply insert_or_ignore_team_positive.
  - intros a n t p s [? ?]. split; [done|]. by apply insert_or_ignore_player_positive.
  - intros a d l h w hs ws s [? ?]. split; [done|].
    by apply insert_or_ignore_game_positive.
Qed.

Lemma main_positive :
  preserves (λ s s', positive_ids (db_file s) ∧ positive_ids (txn s) →
                     positive_ids (db_file s') ∧ positive_ids (txn s')) main.
Proof.
  apply preserves_main; try done.
  - intros s1 s2 s3 H12 H23 H1. auto.
  - simpl. by intros s [? ?].
  - simpl. by intros s [? ?].
  - intros a n v c s [? ?]. split; [done|]. by apply insert_or_ignore_team_positive.
  - intros a n t p s [? ?]. split; [done|]. by apply insert_or_ignore_player_positive.
  - intros a d l h w hs ws s [? ?]. split; [done|].
    by apply insert_or_ignore_game_positive.
  - intros d s [? ?]. split; [done|]. by apply executemany_positive.
  - intros f a b t s db' Hins [? ?]. split; [done|].
    by eapply insert_processed_file_positive.
Qed.

Lemma truthy_positive (m : gmap (option Z) Z) :
  (∀ k id, m !! k = Some id → 0 < id) →
  ∀ k, truthy (m !! k) = bool_decide (is_Some (m !! k)).
Proof.
  intros Hpos k. destruct (m !! k) as [id|] eqn:Hk.
  - transitivity true; [|symmetry; apply bool_decide_eq_true_2; by eexists].
    simpl. apply negb_true_iff, Z.eqb_neq. specialize (Hpos k id Hk). lia.
  - transitivity false; [done|].
    symmetry. apply bool_decide_eq_false_2. by intros [? ?].
Qed.

(** X18: the truth test on the local identifiers drops no resolved
    line.  [if local_game_id and local_player_id] is false for [None]
    and also for [0]; but identifiers are positive: that is an invariant
    of [main], and when it holds the mappings returned by the reference
    block hold positive identifiers only, so for them the test is
    exactly the test that both lookups found something. *)
Theorem truth_test_drops_no_resolved_line :
  (∀ s, positive_ids (db_file s) → positive_ids (db_file (main s).2)) ∧
  (∀ data s s' pm gm,
     txn s = db_file s → positive_ids (db_file s) →
     resolve_reference_data data s = (Ok (pm, gm), s') →
     (∀ k id, pm !! k = Some id → 0 < id) ∧
     (∀ k id, gm !! k = Some id → 0 < id) ∧
     (∀ g p, truthy (gm !! g) && truthy (pm !! p) =
             bool_decide (is_Some (gm !! g)) && bool_decide (is_Some (pm !! p)))).
Proof.
  split.
  - intros s Hpos. rewrite main_from_fresh_connection.
    by apply (main_positive (set_txn (db_file s) s)).
  - intros data s s' pm gm Htx Hpos Hrun.
    destruct (resolve_reference_data_hoare data s Htx I) as [_ Hpost].
    pose proof (resolve_reference_data_positive data s) as Hpos'.
    rewrite Hrun in Hpost, Hpos'. simpl in Hpos'.
    destruct (Hpost _ eq_refl) as [Hpm Hgm]. simpl in Hpm, Hgm.
    destruct Hpos' as [(Hp & Hg & _) _]; [by rewrite Htx|].
    assert (Hpm' : ∀ k id, pm !! k = Some id → 0 < id).
    { intros k id Hk. destruct (Hpm k id Hk) as (r & Hr & <- & _). by apply Hp. }
    assert (Hgm' : ∀ k id, gm !! k = Some id → 0 < id).
    { intros k id Hk. destruct (Hgm k id Hk) as (r & Hr & <- & _). by apply Hg. }
    split; [done|]. split; [done|]. intros g p.
    by rewrite (truthy_positive gm Hgm'), (truthy_positive pm Hpm').
Qed.

(** ** A whole run in the normal case *)

Lemma token_matches_unique f a b a' b' :
  token_matches f a b → token_matches f a' b' → a' = a ∧ b' = b.
Proof.
  intros H1%extract_date_range_spec H2%extract_date_range_spec.
  rewrite H1 in H2. by injection H2 as <- <-.
Qed.

Lemma main_loop_normal fs : ∀ s,
  NoDup fs → faults s = [] → txn s = db_file s →
  (∀ f, f ∈ fs →
     ∃ a b data,
       endswith f ".json" = true ∧ token_matches f a b ∧
       raw_dir s !! f = Some (Some data) ∧ well_formed data ∧
       ∀ r, r ∈ processed_files (db_file s) →
            overlaps a b (ProcessedFile.start_date r) (ProcessedFile.end_date r)
              = false ∧
            ProcessedFile.file_name r ≠ f) →
  (∀ f g a b a' b',
     f ≠ g → f ∈ fs → g ∈ fs →
     token_matches f a b → token_matches g a' b' → overlaps a b a' b' = false) →
  let s' := (main_loop fs s).2 in
  faults s' = [] ∧
  (∀ f, f ∈ fs →
     raw_dir s' !! f = None ∧ historical_dir s' !! f = raw_dir s !! f ∧
     ∃ r, r ∈ processed_files (db_file s') ∧
          ProcessedFile.file_name r = f ∧
          extract_date_range f =
            (Some (ProcessedFile.start_date r), Some (ProcessedFile.end_date r))) ∧
  (∀ f, f ∉ fs →
     raw_dir s' !! f = raw_dir s !! f ∧
     historical_dir s' !! f = historical_dir s !! f) ∧
  processed_files (db_file s) `prefix_of` processed_files (db_file s').
Proof.
  induction fs as [|f fs IH]; intros s Hnd Hf Htx Hall Hpair.
  { simpl. split; [done|]. split; [by intros f Hin; apply elem_of_nil in Hin|].
    by split. }
  apply NoDup_cons in Hnd as [Hnotin Hnd].
  destruct (Hall f) as (a & b & data & Hjson & Htok & Hdata & Hwf & Hfree);
    [by apply elem_of_cons; left|].
  destruct (well_formed_snapshot_run f a b data s Hf Htx Hjson Htok Hdata Hwf Hfree)
    as (_ & Hraw1 & Hhist1 & [id Hpf1] & Hf1).
  destruct (process_file_ledger f s Htx) as [Htx1 _].
  cbv zeta in *. rewrite main_loop_step.
  set (s1 := (process_file f s).2) in *.
  destruct (IH s1 Hnd Hf1 Htx1) as (Hf' & Hin' & Hout' & Hpre').
  { intros g Hg.
    assert (Hne : g ≠ f) by (by intros ->).
    destruct (Hall g) as (a' & b' & data' & Hjson' & Htok' & Hdata' & Hwf' & Hfree');
      [by apply elem_of_cons; right|].
    exists a', b', data'. split; [done|]. split; [done|].
    split; [by rewrite Hraw1, lookup_delete_ne|]. split; [done|].
    intros r. rewrite Hpf1. intros [Hr|Hr]%elem_of_app; [by apply Hfree'|].
    apply list_elem_of_singleton in Hr as ->. simpl. split; [|done].
    apply (Hpair g f); try done.
    - by apply elem_of_cons; right.
    - by apply elem_of_cons; left. }
  { intros g h a1 b1 a2 b2 Hne Hg Hh. apply Hpair; [done|..]; by apply elem_of_cons; right. }
  split; [done|]. split; [|split].
  - intros g [->|Hg]%elem_of_cons.
    + destruct (Hout' f Hnotin) as [Hr Hh]. rewrite Hr, Hh, Hraw1, Hhist1.
      rewrite lookup_delete_eq, lookup_insert_eq. split; [done|]. split; [done|].
      eexists. split; [|split].
      * eapply elem_of_prefix; [|exact Hpre']. rewrite Hpf1.
        apply elem_of_app. right. by apply list_elem_of_singleton.
      * done.
      * simpl. by apply extract_date_range_spec.
    + assert (Hne : g ≠ f) by (by intros ->).
      destruct (Hin' g Hg) as (Hr & Hh & Hrow). split; [done|]. split; [|done].
      by rewrite Hh, Hraw1, lookup_delete_ne.
  - intros g Hg. apply not_elem_of_cons in Hg as [Hne Hg].
    destruct (Hout' g Hg) as [Hr Hh]. rewrite Hr, Hh, Hraw1, Hhist1.
    by rewrite lookup_delete_ne, lookup_insert_ne.
  - etrans; [|exact Hpre']. rewrite Hpf1. by apply prefix_app_r.
Qed.

Lemma create_tables_quiet s :
  faults s = [] → txn s = db_file s →
  ∃ s', create_tables s = (Ok (), s') ∧ faults s' = [] ∧
        db_file s' = db_file s ∧ txn s' = db_file s ∧ same_dirs s s'.
Proof.
  intros Hf Htx. unfold create_tables. unfold_run.
  destruct s as [db tx rd hd fl lg ck]. simpl in *. subst fl tx.
  simpl. eexists. by repeat split.
Qed.


(** * Instances *)

Lemma run_eta {A : Type} (r : result A * state) (a : A) :
  r.1 = Ok a → r = (Ok a, r.2).
Proof. destruct r as [r s]. simpl. by intros ->. Qed.

Lemma no_overlap_error_scan (s : state) :
  forallb (λ entry, negb (is_overlap_error entry)) (log s) = true →
  ¬ overlap_check_failed s.
Proof.
  unfold overlap_check_failed. intros Hscan Hin.
  rewrite forallb_forall in Hscan.
  apply list_elem_of_In, Hscan in Hin. done.
Qed.

Lemma empty_database_foreign_keys : foreign_keys_hold empty_database.
Proof.
  repeat split; intros; simpl in *;
    match goal with H : _ ∈ [] |- _ => by apply elem_of_nil in H end.
Qed.

Lemma empty_database_unique : unique_constraints empty_database.
Proof.
  split; [|by constructor]. intros e. simpl. repeat split; lia.
Qed.

Lemma sample_doc_well_formed : well_formed Sample.doc.
Proof.
  unfold well_formed. simpl. repeat split.
  all: repeat (apply Forall_cons; split); try apply Forall_nil.
  all: simpl; try (by eexists); try lia; try done.
Qed.

Lemma empty_database_positive : positive_ids empty_database.
Proof.
  split; [|split; [|done]]; intros r Hr; by apply elem_of_nil in Hr.
Qed.

Lemma sample_start_loadable : intake_loadable Sample.start.
Proof.
  assert (Hraw : raw_dir Sample.start =
                 ({[ Sample.token := Some Sample.doc ]}
                    : gmap string (option Json.document))) by reflexivity.
  unfold intake_loadable. rewrite Hraw.
  split.
  - intros f c Hc. apply lookup_singleton_Some in Hc as [<- <-].
    exists "2024-04-05", "2024-04-10", Sample.doc.
    split; [reflexivity|]. split; [by apply extract_date_range_spec|].
    split; [done|]. split; [apply sample_doc_well_formed|].
    intros r Hr. by apply elem_of_nil in Hr.
  - intros f g a b a' b' Hne [c Hf] [c' Hg].
    apply lookup_singleton_Some in Hf as [<- _].
    apply lookup_singleton_Some in Hg as [<- _]. done.
Qed.

Lemma recorded_range_rejects_overlaps_witness :
  let s := Sample.start in
  let s1 := (record_file_processed Sample.token "2024-04-05" "2024-04-10" s).2 in
  record_file_processed Sample.token "2024-04-05" "2024-04-10" s = (Ok (), s1) ∧
  txn s1 = db_file s1 ∧
  file_overlaps_processed "2024-04-10" "2024-04-12" s1 = (Ok true, s1).
Proof.
  intros s s1.
  assert (Hrec : record_file_processed Sample.token "2024-04-05" "2024-04-10" s
                 = (Ok (), s1)) by (apply run_eta; reflexivity).
  assert (Hle1 : text_le "2024-04-10" "2024-04-10") by (vm_compute; discriminate).
  assert (Hle2 : text_le "2024-04-05" "2024-04-12") by (vm_compute; discriminate).
  destruct (recorded_range_rejects_overlaps _ _ _ _ _ Hrec) as (_ & Htx & Hov & _).
  exact (conj Hrec (conj Htx (Hov "2024-04-10" "2024-04-12" s1 eq_refl Hle1 Hle2))).
Defined.

Lemma record_known_name_raises_witness :
  let s := Sample.recorded [] in
  let f := ProcessedFile.file_name Sample.week_one in
  (Sample.week_one ∈ processed_files (txn s) ∧
   ProcessedFile.file_name Sample.week_one = f) ∧
  (record_file_processed f "2024-04-01" "2024-04-07" s).1 = Raise SqliteError ∧
  db_file (record_file_processed f "2024-04-01" "2024-04-07" s).2 = db_file s.
Proof.
  intros s f.
  assert (Hin : Sample.week_one ∈ processed_files (txn s))
    by (apply list_elem_of_singleton; reflexivity).
  destruct (record_known_name_raises f "2024-04-01" "2024-04-07" s Sample.week_one
              Hin eq_refl) as (Hres & Hdb & _).
  exact (conj (conj Hin eq_refl) (conj Hres Hdb)).
Defined.



Lemma loaded_unit_archived_witness :
  let s := Sample.start in
  let sp := add_log INFO (ProcessingFile Sample.token) s in
  let load := (transform_and_load (os_path_join RAW_DIR Sample.token) ;;
               record_file_processed Sample.token "2024-04-05" "2024-04-10") in
  (endswith Sample.token ".json" = true ∧
   extract_date_range Sample.token = (Some "2024-04-05", Some "2024-04-10") ∧
   range_check Sample.token (Some "2024-04-05") (Some "2024-04-10") s = (Ok false, s) ∧
   load sp = (Ok (), (load sp).2)) ∧
  raw_dir s !! Sample.token = Some (Some Sample.doc) ∧
  raw_dir (process_file Sample.token s).2 !! Sample.token = None ∧
  historical_dir (process_file Sample.token s).2 !! Sample.token
    = Some (Some Sample.doc).
Proof.
  intros s sp load.
  assert (Hload : load sp = (Ok (), (load sp).2))
    by (apply run_eta; vm_compute; reflexivity).
  assert (Hrange : range_check Sample.token (Some "2024-04-05") (Some "2024-04-10") s
                   = (Ok false, s)) by reflexivity.
  destruct (loaded_unit_archived Sample.token (Some "2024-04-05") (Some "2024-04-10")
              s s (load sp).2 eq_refl eq_refl Hrange Hload)
    as (data & Hdata & Hrun & Hraw & Hhist & _).
  assert (Hdoc : raw_dir s !! Sample.token = Some (Some Sample.doc)) by reflexivity.
  assert (data = Sample.doc) as -> by congruence.
  rewrite Hrun.
  exact (conj (conj eq_refl (conj eq_refl (conj Hrange Hload)))
           (conj Hdoc (conj Hraw Hhist))).
Defined.

Lemma main_keeps_ranges_disjoint_witness :
  (ranges_disjoint (processed_files (db_file Sample.start)) ∧
   ¬ overlap_check_failed (main Sample.start).2) ∧
  ranges_disjoint (processed_files (db_file (main Sample.start).2)).
Proof.
  assert (Hdis : ranges_disjoint (processed_files (db_file Sample.start))).
  { intros i j r1 r2 _ H. simpl in H. by rewrite lookup_nil in H. }
  assert (Hlog : ¬ overlap_check_failed (main Sample.start).2).
  { apply no_overlap_error_scan. vm_compute. reflexivity. }
  exact (conj (conj Hdis Hlog) (main_keeps_ranges_disjoint Sample.start Hdis Hlog)).
Defined.

Lemma foreign_keys_kept_witness :
  foreign_keys_hold (db_file Sample.start) ∧
  foreign_keys_hold (db_file (main Sample.start).2).
Proof.
  exact (conj empty_database_foreign_keys
           (proj2 foreign_keys_kept Sample.start empty_database_foreign_keys)).
Defined.

Lemma main_keeps_unique_constraints_witness :
  unique_constraints (db_file Sample.start) ∧
  unique_constraints (db_file (main Sample.start).2).
Proof.
  exact (conj empty_database_unique
           (main_keeps_unique_constraints Sample.start empty_database_unique)).
Defined.


Lemma main_keeps_ledger_matching_tokens_witness :
  ledger_matches_tokens (processed_files (db_file Sample.start)) ∧
  ledger_matches_tokens (processed_files (db_file (main Sample.start).2)).
Proof.
  assert (Hinv : ledger_matches_tokens (processed_files (db_file Sample.start))).
  { intros r Hr. by apply elem_of_nil in Hr. }
  exact (conj Hinv (main_keeps_ledger_matching_tokens Sample.start Hinv)).
Defined.


Lemma statistic_rows_point_at_their_entities_witness :
  let run := resolve_reference_data Sample.doc Sample.start in
  let pm : gmap (option Z) Z := {[ Some 592450 := 1; Some 646240 := 2 ]} in
  let gm : gmap (option Z) Z := {[ Some 745000 := 1 ]} in
  (txn Sample.start = db_file Sample.start ∧ run = (Ok (pm, gm), run.2)) ∧
  player_row (db_file run.2) (Some 592450) 1 ∧
  game_row (db_file run.2) (Some 745000) 1.
Proof.
  intros run pm gm.
  assert (Hrun : run = (Ok (pm, gm), run.2))
    by (apply run_eta; vm_compute; reflexivity).
  destruct (statistic_rows_point_at_their_entities Sample.doc Sample.start run.2
              pm gm eq_refl Hrun) as (Hpm & Hgm & _).
  exact (conj (conj eq_refl Hrun)
           (conj (Hpm (Some 592450) 1 eq_refl) (Hgm (Some 745000) 1 eq_refl))).
Defined.

Lemma truth_test_drops_no_resolved_line_witness :
  positive_ids (db_file Sample.start) ∧
  positive_ids (db_file (main Sample.start).2).
Proof.
  exact (conj empty_database_positive
           (proj1 truth_test_drops_no_resolved_line Sample.start
              empty_database_positive)).
Defined.

